(** * Verification of the Redis container core: dict.c, intset.c, t_hash.c

    The development embeds the C functions as Rocq functions over [Z]
    (machine integers with their wrap-around written out), lists of bytes
    (the intset buffer) and lists of chains (the dict bucket arrays), and
    proves the properties stated about them. *)

From Stdlib Require Import ZArith Lia List Bool String DecimalString.
From coqutil Require Import Z.bitblast Byte Word.LittleEndianList.
From stdpp Require Import base list.

Local Open Scope Z_scope.

(** ** Machine words *)

Module Word.

(** [unsigned long] is 64 bits wide on the platforms Redis targets. *)
Definition wrap64 (x : Z) : Z := x mod 2 ^ 64.

(** [~x] on an [unsigned long]. *)
Definition not64 (x : Z) : Z := wrap64 (Z.lnot x).

(** [uint32_t] arithmetic. *)
Definition wrap32 (x : Z) : Z := x mod 2 ^ 32.

(** Conversion of a 64-bit pattern to [long long]. *)
Definition signed64 (x : Z) : Z := (x + 2 ^ 63) mod 2 ^ 64 - 2 ^ 63.

Definition word64 (x : Z) : Prop := 0 <= x < 2 ^ 64.

Lemma wrap64_range x : word64 (wrap64 x).
Proof. unfold word64, wrap64. apply Z.mod_pos_bound. lia. Qed.

Lemma wrap64_id x : word64 x -> wrap64 x = x.
Proof. unfold word64, wrap64. intros. apply Z.mod_small. lia. Qed.

Lemma testbit_wrap64 x i : Z.testbit (wrap64 x) i = (i <? 64) && Z.testbit x i.
Proof. unfold wrap64. apply Z.testbit_mod_pow2. lia. Qed.

Lemma testbit_high x n i : 0 <= x < 2 ^ n -> n <= i -> Z.testbit x i = false.
Proof.
  intros Hx Hi.
  destruct (Z.ltb_spec n 0) as [Hn|Hn].
  - rewrite Z.pow_neg_r in Hx by lia. lia.
  - rewrite <- (Z.mod_small x (2 ^ n)) by lia.
    apply Z.mod_pow2_bits_high. lia.
Qed.

Lemma bits_bound x n :
  0 <= n -> 0 <= x -> (forall i, n <= i -> Z.testbit x i = false) -> x < 2 ^ n.
Proof.
  intros Hn Hx Hb.
  assert (E : x mod 2 ^ n = x).
  { apply Z.bits_inj'. intros i Hi. rewrite Z.testbit_mod_pow2 by lia.
    destruct (Z.ltb_spec i n); simpl; [reflexivity|]. symmetry. apply Hb. lia. }
  rewrite <- E. apply Z.mod_pos_bound. lia.
Qed.

Lemma testbit_not64 x i :
  0 <= i -> Z.testbit (not64 x) i = (i <? 64) && negb (Z.testbit x i).
Proof.
  intros Hi. unfold not64. rewrite testbit_wrap64, Z.lnot_spec by lia. reflexivity.
Qed.

Lemma word64_of_bits x :
  0 <= x -> (forall i, 64 <= i -> Z.testbit x i = false) -> word64 x.
Proof. intros Hx Hb. split; [lia|]. apply bits_bound; auto. lia. Qed.

End Word.

Import Word.

(** ** dict.c: the bit reversal of the scan cursor *)

Module Rev.

(** One round of the loop body of [rev]:
    [v = ((v >> s) & mask) | ((v << s) & ~mask)]. *)
Definition swap_halves (s mask v : Z) : Z :=
  Z.lor (Z.land (Z.shiftr v s) mask)
        (Z.land (wrap64 (Z.shiftl v s)) (not64 mask)).

(** [while ((s >>= 1) > 0) { mask ^= (mask << s); v = ...; }].
    [s] halves at every turn, so [s] itself bounds the number of turns. *)
Fixpoint rev_loop (fuel : nat) (s mask v : Z) : Z :=
  match fuel with
  | O => v
  | S fuel' =>
      let s := Z.shiftr s 1 in
      if 0 <? s then
        let mask := Z.lxor mask (wrap64 (Z.shiftl mask s)) in
        let v := swap_halves s mask v in
        rev_loop fuel' s mask v
      else v
  end.

(** [static unsigned long rev(unsigned long v)] *)
Definition rev (v : Z) : Z :=
  let s := 8 * 8 in
  let mask := not64 0 in
  rev_loop (Z.to_nat s) s mask v.

(** [v |= ~m; v = rev(v); v++; v = rev(v);] of [dictScan]. *)
Definition cursor_next (m v : Z) : Z :=
  let v := Z.lor v (not64 m) in
  let v := rev v in
  let v := wrap64 (v + 1) in
  rev v.

(** The six masks the loop goes through. *)
Definition m32 : Z := 0x00000000FFFFFFFF.
Definition m16 : Z := 0x0000FFFF0000FFFF.
Definition m8 : Z := 0x00FF00FF00FF00FF.
Definition m4 : Z := 0x0F0F0F0F0F0F0F0F.
Definition m2 : Z := 0x3333333333333333.
Definition m1 : Z := 0x5555555555555555.

Lemma rev_rounds v :
  rev v =
  swap_halves 1 m1 (swap_halves 2 m2 (swap_halves 4 m4
    (swap_halves 8 m8 (swap_halves 16 m16 (swap_halves 32 m32 v))))).
Proof. reflexivity. Qed.

Lemma swap_halves_word s mask v :
  word64 mask -> 0 <= v -> 0 <= s -> word64 (swap_halves s mask v).
Proof.
  intros Hm Hv Hs. apply word64_of_bits.
  - unfold swap_halves. apply Z.lor_nonneg. split.
    + apply Z.land_nonneg. right. apply Hm.
    + apply Z.land_nonneg. left. apply wrap64_range.
  - intros i Hi. unfold swap_halves.
    rewrite Z.lor_spec, !Z.land_spec, testbit_not64 by lia.
    rewrite (testbit_high mask 64 i) by (auto; lia).
    destruct (Z.ltb_spec i 64); [lia|].
    rewrite !andb_false_r. reflexivity.
Qed.

Lemma swap_halves_bit s mask v i j :
  0 <= i < 64 -> 0 <= s ->
  j = (if Z.testbit mask i then i + s else i - s) ->
  Z.testbit (swap_halves s mask v) i = Z.testbit v j.
Proof.
  intros Hi Hs ->. unfold swap_halves.
  rewrite Z.lor_spec, !Z.land_spec, testbit_not64, testbit_wrap64 by lia.
  rewrite Z.shiftr_spec, Z.shiftl_spec by lia.
  destruct (Z.ltb_spec i 64); [|lia].
  destruct (Z.testbit mask i); simpl.
  - rewrite andb_false_r, andb_true_r, orb_false_r. reflexivity.
  - rewrite andb_false_r, andb_true_r. reflexivity.
Qed.

Lemma rev_bit_nat v (n : nat) :
  (n < 64)%nat -> Z.testbit (rev v) (Z.of_nat n) = Z.testbit v (63 - Z.of_nat n).
Proof.
  intros Hn. rewrite rev_rounds.
  do 64 (destruct n as [|n];
    [ repeat (erewrite swap_halves_bit; [ | lia | lia | vm_compute; reflexivity ]);
      reflexivity | ]).
  lia.
Qed.

Lemma rev_bit v i :
  0 <= i < 64 -> Z.testbit (rev v) i = Z.testbit v (63 - i).
Proof.
  intros Hi. rewrite <- (Z2Nat.id i) by lia. apply rev_bit_nat. lia.
Qed.

Lemma rev_word v : 0 <= v -> word64 (rev v).
Proof.
  intros Hv. rewrite rev_rounds.
  apply swap_halves_word; [unfold word64, m1; lia| |lia].
  repeat (apply swap_halves_word; [unfold word64, m1, m2, m4, m8, m16, m32; lia| |lia]).
  assumption.
Qed.

Lemma rev_involutive v : word64 v -> rev (rev v) = v.
Proof.
  intros Hv. pose proof (rev_word v (proj1 Hv)) as Hr.
  pose proof (rev_word _ (proj1 Hr)) as Hrr.
  apply Z.bits_inj'. intros i Hi.
  destruct (Z.ltb_spec i 64).
  - rewrite !rev_bit by lia. f_equal. lia.
  - rewrite (testbit_high _ 64 i), (testbit_high v 64 i) by (auto; lia). reflexivity.
Qed.

(** *** The cursor as a counter in reversed bit order

    For a table of [2^k] buckets the cursor that is [u]-th in the visiting
    order is [cursor_at k u]; [slot k v] is the rank of the cursor [v]. *)

Definition cursor_at (k u : Z) : Z := rev (u * 2 ^ (64 - k)).
Definition slot (k v : Z) : Z := rev v / 2 ^ (64 - k).

Lemma testbit_mod0 x n j :
  0 <= n -> x mod 2 ^ n = 0 -> 0 <= j < n -> Z.testbit x j = false.
Proof.
  intros Hn Hx Hj. rewrite <- (Z.mod_pow2_bits_low x n j) by lia.
  rewrite Hx. apply Z.bits_0.
Qed.

Lemma mod0_of_bits x n :
  0 <= n -> (forall j, 0 <= j < n -> Z.testbit x j = false) -> x mod 2 ^ n = 0.
Proof.
  intros Hn Hb. apply Z.bits_inj'. intros j Hj.
  rewrite Z.testbit_mod_pow2, Z.bits_0 by lia.
  destruct (Z.ltb_spec j n); simpl; [apply Hb; lia | reflexivity].
Qed.

Lemma rev_small_iff x n :
  word64 x -> 0 <= n <= 64 -> (rev x < 2 ^ (64 - n) <-> x mod 2 ^ n = 0).
Proof.
  intros Hx Hn. pose proof (rev_word x (proj1 Hx)) as Hr. split.
  - intros Hlt. apply mod0_of_bits; [lia|]. intros j Hj.
    rewrite <- (rev_involutive x Hx), rev_bit by lia.
    apply (testbit_high _ (64 - n)); [split; [apply Hr | exact Hlt] | lia].
  - intros Hm. apply bits_bound; [lia | apply Hr |]. intros i Hi.
    destruct (Z.ltb_spec i 64).
    + rewrite rev_bit by lia. apply (testbit_mod0 x n); lia.
    + apply (testbit_high _ 64); [apply Hr | lia].
Qed.


Lemma pow2_split k : 0 <= k <= 64 -> 2 ^ k * 2 ^ (64 - k) = 2 ^ 64.
Proof. intros Hk. rewrite <- Z.pow_add_r by lia. f_equal. lia. Qed.

Lemma scaled_word k u :
  0 <= k <= 64 -> 0 <= u < 2 ^ k -> word64 (u * 2 ^ (64 - k)).
Proof.
  intros Hk Hu. pose proof (pow2_split k Hk) as E.
  assert (0 < 2 ^ (64 - k)) by (apply Z.pow_pos_nonneg; lia).
  unfold word64. nia.
Qed.

Lemma cursor_at_range k u :
  0 <= k <= 64 -> 0 <= u < 2 ^ k -> 0 <= cursor_at k u < 2 ^ k.
Proof.
  intros Hk Hu. unfold cursor_at.
  pose proof (scaled_word k u Hk Hu) as Hw.
  split; [apply rev_word, Hw|].
  replace k with (64 - (64 - k)) at 2 by lia.
  apply rev_small_iff; [exact Hw | lia |].
  apply Z.mod_mul. apply Z.pow_nonzero; lia.
Qed.

Lemma slot_cursor_at k u :
  0 <= k <= 64 -> 0 <= u < 2 ^ k -> slot k (cursor_at k u) = u.
Proof.
  intros Hk Hu. unfold slot, cursor_at.
  rewrite rev_involutive by (apply scaled_word; lia).
  apply Z.div_mul. apply Z.pow_nonzero; lia.
Qed.

Lemma rev_scaled k v :
  0 <= k <= 64 -> 0 <= v < 2 ^ k -> rev v = slot k v * 2 ^ (64 - k).
Proof.
  intros Hk Hv. unfold slot.
  assert (Hw : word64 v).
  { split; [lia|]. apply Z.lt_le_trans with (2 ^ k); [lia|].
    apply Z.pow_le_mono_r; lia. }
  assert (Hm : rev v mod 2 ^ (64 - k) = 0).
  { apply rev_small_iff; [apply rev_word, Hw | lia |].
    rewrite rev_involutive by exact Hw. replace (64 - (64 - k)) with k by lia. lia. }
  assert (Hnz : 2 ^ (64 - k) <> 0) by (apply Z.pow_nonzero; lia).
  pose proof (Z.div_mod (rev v) (2 ^ (64 - k)) Hnz) as E.
  rewrite Hm in E. lia.
Qed.

Lemma slot_range k v :
  0 <= k <= 64 -> 0 <= v < 2 ^ k -> 0 <= slot k v < 2 ^ k.
Proof.
  intros Hk Hv.
  assert (Hw : word64 v).
  { split; [lia|]. apply Z.lt_le_trans with (2 ^ k); [lia|].
    apply Z.pow_le_mono_r; lia. }
  pose proof (rev_word v (proj1 Hw)) as Hr.
  pose proof (pow2_split k Hk) as E.
  assert (0 < 2 ^ (64 - k)) by (apply Z.pow_pos_nonneg; lia).
  unfold slot. split.
  - apply Z.div_pos; [apply Hr | lia].
  - apply Z.div_lt_upper_bound; [lia|]. unfold word64 in Hr. lia.
Qed.

Lemma cursor_at_slot k v :
  0 <= k <= 64 -> 0 <= v < 2 ^ k -> cursor_at k (slot k v) = v.
Proof.
  intros Hk Hv. unfold cursor_at. rewrite <- rev_scaled by lia.
  apply rev_involutive. split; [lia|].
  apply Z.lt_le_trans with (2 ^ k); [lia|]. apply Z.pow_le_mono_r; lia.
Qed.

Lemma mask_ones k : 2 ^ k - 1 = Z.ones k.
Proof. rewrite Z.ones_equiv. lia. Qed.

Lemma rev_lor_not_mask k v :
  0 <= k <= 64 -> 0 <= v < 2 ^ k ->
  rev (Z.lor v (not64 (2 ^ k - 1))) = rev v + (2 ^ (64 - k) - 1).
Proof.
  intros Hk Hv.
  assert (Hnn : 0 <= Z.lor v (not64 (2 ^ k - 1))).
  { apply Z.lor_nonneg. split; [lia | apply wrap64_range]. }
  assert (E : rev (Z.lor v (not64 (2 ^ k - 1))) = Z.lor (rev v) (Z.ones (64 - k))).
  { apply Z.bits_inj'. intros i Hi.
    rewrite Z.lor_spec, Z.testbit_ones_nonneg by lia.
    destruct (Z.ltb_spec i 64) as [Hlt|Hge].
    - rewrite !rev_bit, Z.lor_spec, testbit_not64, mask_ones by lia.
      rewrite Z.testbit_ones_nonneg by lia.
      destruct (Z.ltb_spec (63 - i) 64); [|lia].
      destruct (Z.ltb_spec (63 - i) k), (Z.ltb_spec i (64 - k)); simpl; try lia; reflexivity.
    - rewrite !(testbit_high _ 64 i) by (try apply rev_word; lia).
      destruct (Z.ltb_spec i (64 - k)); [lia | reflexivity]. }
  rewrite E, <- Z.lxor_lor, <- Z.add_nocarry_lxor, mask_ones; try reflexivity.
  all: apply Z.bits_inj'; intros i Hi;
    rewrite Z.land_spec, Z.bits_0, Z.testbit_ones_nonneg by lia;
    destruct (Z.ltb_spec i (64 - k)); rewrite ?andb_false_r; try reflexivity;
    rewrite rev_bit by lia; rewrite (testbit_high v k) by lia; reflexivity.
Qed.

Lemma cursor_next_masked m v :
  word64 v -> cursor_next m v = cursor_next m (Z.land v (wrap64 m)).
Proof.
  intros Hv. unfold cursor_next.
  assert (E : Z.lor v (not64 m) = Z.lor (Z.land v (wrap64 m)) (not64 m)).
  { apply Z.bits_inj'. intros i Hi.
    rewrite !Z.lor_spec, Z.land_spec, testbit_not64, testbit_wrap64 by lia.
    destruct (Z.ltb_spec i 64); simpl.
    - destruct (Z.testbit v i), (Z.testbit m i); reflexivity.
    - rewrite (testbit_high v 64 i) by (auto; lia). reflexivity. }
  rewrite E. reflexivity.
Qed.

Lemma cursor_next_at k u :
  0 <= k <= 64 -> 0 <= u < 2 ^ k ->
  cursor_next (2 ^ k - 1) (cursor_at k u) = cursor_at k ((u + 1) mod 2 ^ k).
Proof.
  intros Hk Hu. pose proof (cursor_at_range k u Hk Hu) as Hc.
  unfold cursor_next. rewrite rev_lor_not_mask by lia.
  unfold cursor_at at 1. rewrite rev_involutive by (apply scaled_word; lia).
  unfold cursor_at. f_equal.
  replace (u * 2 ^ (64 - k) + (2 ^ (64 - k) - 1) + 1) with ((u + 1) * 2 ^ (64 - k)) by lia.
  unfold wrap64. rewrite <- (pow2_split k Hk).
  rewrite Z.mul_mod_distr_r; [reflexivity | |]; apply Z.pow_nonzero; lia.
Qed.

Lemma cursor_next_slot k a :
  0 <= k <= 64 -> 0 <= a < 2 ^ k ->
  cursor_next (2 ^ k - 1) a = cursor_at k ((slot k a + 1) mod 2 ^ k).
Proof.
  intros Hk Ha. rewrite <- (cursor_at_slot k a Hk Ha) at 1.
  apply cursor_next_at; [exact Hk | apply slot_range; assumption].
Qed.

(** C8. [rev] is an involution on machine words, and for the mask
    [2^k - 1] of a table of [2^k] buckets the cursor increment
    [v := rev(rev(v | ~mask) + 1)] only depends on the masked bits of [v]
    and is a bijection of the cursor space [0 .. mask]: it maps the space to
    itself, is injective and is surjective. *)
Theorem rev_involution_cursor_bijection (v k a b : Z) :
  word64 v -> 0 <= k <= 64 -> 0 <= a <= 2 ^ k - 1 -> 0 <= b <= 2 ^ k - 1 ->
  rev (rev v) = v /\
  cursor_next (2 ^ k - 1) v = cursor_next (2 ^ k - 1) (Z.land v (2 ^ k - 1)) /\
  0 <= cursor_next (2 ^ k - 1) a <= 2 ^ k - 1 /\
  (cursor_next (2 ^ k - 1) a = cursor_next (2 ^ k - 1) b -> a = b) /\
  exists c, 0 <= c <= 2 ^ k - 1 /\ cursor_next (2 ^ k - 1) c = a.
Proof.
  intros Hv Hk Ha Hb.
  assert (Hp : 0 < 2 ^ k) by (apply Z.pow_pos_nonneg; lia).
  assert (Hp64 : 2 ^ k <= 2 ^ 64) by (apply Z.pow_le_mono_r; lia).
  pose proof (slot_range k a Hk ltac:(lia)) as Hsa.
  pose proof (slot_range k b Hk ltac:(lia)) as Hsb.
  split; [apply rev_involutive, Hv|].
  split.
  { rewrite (cursor_next_masked _ v Hv). rewrite wrap64_id; [reflexivity|].
    unfold word64. lia. }
  split.
  { rewrite cursor_next_slot by lia.
    pose proof (Z.mod_pos_bound (slot k a + 1) (2 ^ k) Hp) as Hm.
    pose proof (cursor_at_range k _ Hk Hm). lia. }
  split.
  { rewrite !cursor_next_slot by lia. intros E.
    pose proof (Z.mod_pos_bound (slot k a + 1) (2 ^ k) Hp) as Hma.
    pose proof (Z.mod_pos_bound (slot k b + 1) (2 ^ k) Hp) as Hmb.
    apply (f_equal (slot k)) in E. rewrite !slot_cursor_at in E by lia.
    assert (Es : slot k a = slot k b).
    { destruct (Z.eq_dec (slot k a + 1) (2 ^ k)) as [Ea|Ea],
               (Z.eq_dec (slot k b + 1) (2 ^ k)) as [Eb|Eb].
      - lia.
      - rewrite Ea, Z.mod_same, Z.mod_small in E by lia. lia.
      - rewrite Eb, Z.mod_same, Z.mod_small in E by lia. lia.
      - rewrite !Z.mod_small in E by lia. lia. }
    rewrite <- (cursor_at_slot k a), <- (cursor_at_slot k b) by lia.
    rewrite Es. reflexivity. }
  pose proof (Z.mod_pos_bound (slot k a - 1) (2 ^ k) Hp) as Hm.
  exists (cursor_at k ((slot k a - 1) mod 2 ^ k)).
  pose proof (cursor_at_range k _ Hk Hm) as Hr.
  split; [lia|].
  rewrite cursor_next_at by lia.
  rewrite Zplus_mod_idemp_l. replace (slot k a - 1 + 1) with (slot k a) by lia.
  rewrite Z.mod_small by lia. apply cursor_at_slot; lia.
Qed.

Lemma rev_involution_cursor_bijection_witness :
  rev (rev 6) = 6 /\
  cursor_next (2 ^ 3 - 1) 6 = cursor_next (2 ^ 3 - 1) (Z.land 6 (2 ^ 3 - 1)) /\
  0 <= cursor_next (2 ^ 3 - 1) 5 <= 2 ^ 3 - 1 /\
  (cursor_next (2 ^ 3 - 1) 5 = cursor_next (2 ^ 3 - 1) 3 -> 5 = 3) /\
  exists c, 0 <= c <= 2 ^ 3 - 1 /\ cursor_next (2 ^ 3 - 1) c = 5.
Proof.
  apply (rev_involution_cursor_bijection 6 3 5 3); unfold word64; lia.
Defined.

End Rev.

Arguments Rev.rev : simpl never.
Arguments Rev.cursor_at : simpl never.
Arguments Rev.cursor_next : simpl never.
Arguments Rev.slot : simpl never.

(** ** Outcomes of fallible code

    [Panic] is an [assert] that fails or a [serverPanic]; [NoFuel] is a loop
    of the model that was not given enough turns. *)

Inductive outcome (A : Type) : Type :=
  | Ret (a : A)
  | Panic
  | NoFuel.
Arguments Ret {A} a.
Arguments Panic {A}.
Arguments NoFuel {A}.

Definition bind {A B : Type} (m : outcome A) (f : A -> outcome B) : outcome B :=
  match m with
  | Ret a => f a
  | Panic => Panic
  | NoFuel => NoFuel
  end.

Notation "'letM' x ':=' m 'in' k" := (bind m (fun x => k))
  (at level 10, x name, m at level 100, k at level 200).
Notation "'letM' ' p ':=' m 'in' k" := (bind m (fun p => k))
  (at level 10, p pattern, m at level 100, k at level 200).

(** ** dict.c: the hash table *)

Module Dict.

(** Modelled from the spec: dict.h is not among the sources; the values of
    its constants are the ones of section 4.2 ([INITIAL_SIZE] is 4) and the
    status codes are the two results "ok" and "error". *)
Definition DICT_OK : Z := 0.
Definition DICT_ERR : Z := 1.
Definition DICT_HT_INITIAL_SIZE : Z := 4.
Definition LONG_MAX : Z := 2 ^ 63 - 1.

(** [static unsigned int dict_force_resize_ratio = 5;] *)
Definition dict_force_resize_ratio : Z := 5.

Section Dict.

Set Default Proof Using "Type".

Context {K V : Type}.

(** The global switch set by [dictEnableResize] and [dictDisableResize]. *)
Variable dict_can_resize : bool.

(** The address [zcalloc] returns for a request of the given size.
    Allocation failure is fatal, so a returned address is never NULL. *)
Variable zcalloc : Z -> Z.

(** An entry; the [next] link is the tail of the chain the entry is in. *)
Record dictEntry : Type := DictEntry { key : K; val : V }.

Notation "'chain'" := (list dictEntry).

(** Modelled from the spec: the type descriptor of section 6, with the two
    callbacks the functions below call. *)
Record dictType : Type := DictType {
  hashFunction : K -> Z;
  keyCompare : K -> K -> bool
}.

(** [table] is the address of the bucket array (0 is NULL) and [buckets]
    the array it points to, one chain per bucket. *)
Record dictht : Type := Dictht {
  table : Z;
  buckets : list chain;
  size : Z;
  sizemask : Z;
  used : Z
}.

Record dict : Type := MkDict {
  type : dictType;
  ht0 : dictht;
  ht1 : dictht;
  rehashidx : Z;
  iterators : Z
}.

Definition set_ht0 (d : dict) (t : dictht) : dict :=
  MkDict (type d) t (ht1 d) (rehashidx d) (iterators d).
Definition set_ht1 (d : dict) (t : dictht) : dict :=
  MkDict (type d) (ht0 d) t (rehashidx d) (iterators d).
Definition set_rehashidx (d : dict) (i : Z) : dict :=
  MkDict (type d) (ht0 d) (ht1 d) i (iterators d).
Definition set_iterators (d : dict) (n : Z) : dict :=
  MkDict (type d) (ht0 d) (ht1 d) (rehashidx d) n.
Definition set_buckets (t : dictht) (b : list chain) : dictht :=
  Dictht (table t) b (size t) (sizemask t) (used t).
Definition set_used (t : dictht) (n : Z) : dictht :=
  Dictht (table t) (buckets t) (size t) (sizemask t) n.

(** [ht->table[i]]; a NULL head is the empty chain. *)
Definition bucket_at (t : dictht) (i : Z) : chain :=
  if i <? 0 then [] else default [] (buckets t !! Z.to_nat i).

(** [ht->table[i] = c] *)
Definition store_bucket (t : dictht) (i : Z) (c : chain) : dictht :=
  set_buckets t (<[Z.to_nat i := c]> (buckets t)).

(** Modelled from the spec: the macros of dict.h. *)
Definition dictIsRehashing (d : dict) : bool := negb (rehashidx d =? -1).
Definition dictSize (d : dict) : Z := used (ht0 d) + used (ht1 d).
Definition dictHashKey (d : dict) (k : K) : Z := hashFunction (type d) k.
Definition dictCompareKeys (d : dict) (k1 k2 : K) : bool := keyCompare (type d) k1 k2.

Definition _dictReset : dictht := Dictht 0 [] 0 0 0.

(** [dictCreate] and [_dictInit] *)
Definition dictCreate (ty : dictType) : dict := MkDict ty _dictReset _dictReset (-1) 0.

(** The loop of [_dictNextPower]: [while(1) { if (i >= size) return i; i *= 2; }].
    [i] doubles, so 64 turns exhaust an [unsigned long]. *)
Fixpoint next_power_loop (fuel : nat) (i sz : Z) : Z :=
  if sz <=? i then i
  else match fuel with
       | O => i
       | S fuel' => next_power_loop fuel' (wrap64 (i * 2)) sz
       end.

Definition _dictNextPower (sz : Z) : Z :=
  if LONG_MAX <=? sz then wrap64 (LONG_MAX + 1)
  else next_power_loop 64 DICT_HT_INITIAL_SIZE sz.

(** [int dictExpand(dict *d, unsigned long size)]: the status and the dict. *)
Definition dictExpand (d : dict) (sz : Z) : Z * dict :=
  if dictIsRehashing d || (sz <? used (ht0 d)) then (DICT_ERR, d)
  else
    let realsize := _dictNextPower sz in
    if realsize =? size (ht0 d) then (DICT_ERR, d)
    else
      let n := Dictht (zcalloc (wrap64 (realsize * 8)))
                      (replicate (Z.to_nat realsize) [])
                      realsize (realsize - 1) 0 in
      if table (ht0 d) =? 0 then (DICT_OK, set_ht0 d n)
      else (DICT_OK, set_rehashidx (set_ht1 d n) 0).

(** The innermost loop of [dictRehash]: every entry of the chain goes to the
    head of its bucket in [ht[1]]. *)
Fixpoint rehash_chain (d : dict) (de : chain) : dict :=
  match de with
  | [] => d
  | e :: nextde =>
      let h := Z.land (dictHashKey d (key e)) (sizemask (ht1 d)) in
      let t1 := store_bucket (ht1 d) h (e :: bucket_at (ht1 d) h) in
      let d := set_ht0 d (set_used (ht0 d) (used (ht0 d) - 1)) in
      let d := set_ht1 d (set_used t1 (used t1 + 1)) in
      rehash_chain d nextde
  end.

(** [while(d->ht[0].table[d->rehashidx] == NULL) { d->rehashidx++;
    if (--empty_visits == 0) return 1; }]: the dict, what is left of
    [empty_visits], and whether the function returned from inside. *)
Fixpoint skip_empty (empty_visits : nat) (d : dict) : dict * nat * bool :=
  match bucket_at (ht0 d) (rehashidx d) with
  | [] =>
      let d := set_rehashidx d (rehashidx d + 1) in
      match empty_visits with
      | O => (d, O, true)
      | S ev => match ev with
                | O => (d, O, true)
                | S _ => skip_empty ev d
                end
      end
  | _ :: _ => (d, empty_visits, false)
  end.

(** What [dictRehash] does once its loop is over. *)
Definition rehash_finish (d : dict) : Z * dict :=
  if used (ht0 d) =? 0 then
    (0, set_rehashidx (set_ht1 (set_ht0 d (ht1 d)) _dictReset) (-1))
  else (1, d).

(** The body of the loop of [dictRehash] past the empty buckets: the chain
    at [rehashidx] moves to [ht[1]], the bucket is cleared and the index
    advances. *)
Definition migrate_bucket (d : dict) : dict :=
  let de := bucket_at (ht0 d) (rehashidx d) in
  let d := rehash_chain d de in
  let d := set_ht0 d (store_bucket (ht0 d) (rehashidx d) []) in
  set_rehashidx d (rehashidx d + 1).

(** [while(n-- && d->ht[0].used != 0) { ... }] and the rest of [dictRehash]. *)
Fixpoint rehash_loop (n empty_visits : nat) (d : dict) : outcome (Z * dict) :=
  match n with
  | O => Ret (rehash_finish d)
  | S n' =>
      if used (ht0 d) =? 0 then Ret (rehash_finish d)
      else if negb (wrap64 (rehashidx d) <? size (ht0 d)) then Panic
      else
        let '(d, ev, returned) := skip_empty empty_visits d in
        if returned then Ret (1, d)
        else rehash_loop n' ev (migrate_bucket d)
  end.

(** [int dictRehash(dict *d, int n)], for the [n >= 0] its callers pass. *)
Definition dictRehash (d : dict) (n : nat) : outcome (Z * dict) :=
  let empty_visits := (n * 10)%nat in
  if negb (dictIsRehashing d) then Ret (0, d)
  else rehash_loop n empty_visits d.

Definition _dictRehashStep (d : dict) : outcome dict :=
  if iterators d =? 0 then
    letM '(_, d') := dictRehash d 1 in Ret d'
  else Ret d.




(** *** Lookup and insertion *)

(** [_dictExpandIfNeeded]: the status and the dict. *)
Definition _dictExpandIfNeeded (d : dict) : Z * dict :=
  if dictIsRehashing d then (DICT_OK, d)
  else if size (ht0 d) =? 0 then dictExpand d DICT_HT_INITIAL_SIZE
  else if (size (ht0 d) <=? used (ht0 d)) &&
          (dict_can_resize || (dict_force_resize_ratio <? used (ht0 d) / size (ht0 d)))
  then dictExpand d (wrap64 (used (ht0 d) * 2))
  else (DICT_OK, d).

(** [while(he) { if (key==he->key || dictCompareKeys(d, key, he->key)) ...;
    he = he->next; }]: the first entry of the chain with the key. Keys are
    values here, so a key that is the same pointer is a key that compares
    equal. *)
Fixpoint chain_find (d : dict) (k : K) (he : chain) : option dictEntry :=
  match he with
  | [] => None
  | e :: next => if dictCompareKeys d k (key e) then Some e else chain_find d k next
  end.

(** [_dictKeyIndex]: the index (-1 when the key exists or the expansion
    failed), [*existing], and the dict, which may have been expanded. *)
Definition _dictKeyIndex (d : dict) (k : K) (hash : Z) : Z * option dictEntry * dict :=
  let '(status, d) := _dictExpandIfNeeded d in
  if status =? DICT_ERR then (-1, None, d)
  else
    let idx := Z.land hash (sizemask (ht0 d)) in
    match chain_find d k (bucket_at (ht0 d) idx) with
    | Some he => (-1, Some he, d)
    | None =>
        if negb (dictIsRehashing d) then (idx, None, d)
        else
          let idx := Z.land hash (sizemask (ht1 d)) in
          match chain_find d k (bucket_at (ht1 d) idx) with
          | Some he => (-1, Some he, d)
          | None => (idx, None, d)
          end
    end.

(** [dictAddRaw]: whether an entry was created, [*existing], and the dict.
    The source returns the new entry for the caller to store the value
    through it; here the entry is created with the value [v] the caller
    stores. *)
Definition dictAddRaw (d : dict) (k : K) (v : V)
    : outcome (bool * option dictEntry * dict) :=
  letM d := (if dictIsRehashing d then _dictRehashStep d else Ret d) in
  let '(index, existing, d) := _dictKeyIndex d k (dictHashKey d k) in
  if index =? -1 then Ret (false, existing, d)
  else
    let e := DictEntry k v in
    if dictIsRehashing d then
      let t := ht1 d in
      Ret (true, None,
           set_ht1 d (set_used (store_bucket t index (e :: bucket_at t index)) (used t + 1)))
    else
      let t := ht0 d in
      Ret (true, None,
           set_ht0 d (set_used (store_bucket t index (e :: bucket_at t index)) (used t + 1))).

(** [dictAdd]: the status and the dict. *)
Definition dictAdd (d : dict) (k : K) (v : V) : outcome (Z * dict) :=
  letM '(created, _, d) := dictAddRaw d k v in
  Ret (if created : bool then DICT_OK else DICT_ERR, d).

(** [dictFind]: the entry (or NULL) and the dict, on which a rehash step
    may have run. *)
Definition dictFind (d : dict) (k : K) : outcome (option dictEntry * dict) :=
  if used (ht0 d) + used (ht1 d) =? 0 then Ret (None, d)
  else
    letM d := (if dictIsRehashing d then _dictRehashStep d else Ret d) in
    let h := dictHashKey d k in
    match chain_find d k (bucket_at (ht0 d) (Z.land h (sizemask (ht0 d)))) with
    | Some he => Ret (Some he, d)
    | None =>
        if negb (dictIsRehashing d) then Ret (None, d)
        else Ret (chain_find d k (bucket_at (ht1 d) (Z.land h (sizemask (ht1 d)))), d)
    end.

(** [dictGetVal(de) = v] for the entry [de] that [dictFind] returned for
    the key: the write goes through the pointer, so the entry changes where
    it sits, which is where the lookup found it. *)
Fixpoint chain_set_val (d : dict) (k : K) (v : V) (he : chain) : chain :=
  match he with
  | [] => []
  | e :: next =>
      if dictCompareKeys d k (key e) then DictEntry (key e) v :: next
      else e :: chain_set_val d k v next
  end.

Definition set_entry_val (d : dict) (k : K) (v : V) : dict :=
  let h := dictHashKey d k in
  let i0 := Z.land h (sizemask (ht0 d)) in
  match chain_find d k (bucket_at (ht0 d) i0) with
  | Some _ =>
      set_ht0 d (store_bucket (ht0 d) i0 (chain_set_val d k v (bucket_at (ht0 d) i0)))
  | None =>
      let i1 := Z.land h (sizemask (ht1 d)) in
      set_ht1 d (store_bucket (ht1 d) i1 (chain_set_val d k v (bucket_at (ht1 d) i1)))
  end.

(** *** Fingerprint and iterators *)

(** One round of the integer hash of [dictFingerprint], on [long long]. *)
Definition fingerprint_mix (hash : Z) : Z :=
  let hash := signed64 (Z.lnot hash + Z.shiftl hash 21) in
  let hash := Z.lxor hash (Z.shiftr hash 24) in
  let hash := signed64 ((hash + Z.shiftl hash 3) + Z.shiftl hash 8) in
  let hash := Z.lxor hash (Z.shiftr hash 14) in
  let hash := signed64 ((hash + Z.shiftl hash 2) + Z.shiftl hash 4) in
  let hash := Z.lxor hash (Z.shiftr hash 28) in
  signed64 (hash + Z.shiftl hash 31).

Definition dictFingerprint (d : dict) : Z :=
  let integers :=
    [ signed64 (table (ht0 d)); signed64 (size (ht0 d)); signed64 (used (ht0 d));
      signed64 (table (ht1 d)); signed64 (size (ht1 d)); signed64 (used (ht1 d)) ] in
  fold_left (fun hash i => fingerprint_mix (signed64 (hash + i))) integers 0.

(** The iterator. [entry] and [nextEntry] point into a chain: each is the
    part of the chain from the entry it points to, [[]] for NULL. *)
Record dictIterator : Type := DictIterator {
  index : Z;
  iter_table : Z;
  safe : bool;
  entry : chain;
  nextEntry : chain;
  fingerprint : Z
}.

(** [dictGetIterator]; the source leaves [fingerprint] as allocated. *)
Definition dictGetIterator (d : dict) : dictIterator :=
  DictIterator (-1) 0 false [] [] 0.

Definition dictGetSafeIterator (d : dict) : dictIterator :=
  let i := dictGetIterator d in
  DictIterator (index i) (iter_table i) true (entry i) (nextEntry i) (fingerprint i).

Definition iter_ht (d : dict) (t : Z) : dictht := if t =? 0 then ht0 d else ht1 d.

(** The [while (1)] of [dictNext]: the entry returned (or NULL), the
    iterator and the dict, whose counter a safe iterator touches. *)
Fixpoint dictNext_loop (fuel : nat) (iter : dictIterator) (d : dict)
    : outcome (option dictEntry * dictIterator * dict) :=
  match fuel with
  | O => NoFuel
  | S fuel' =>
      let step :=
        match entry iter with
        | [] =>
            let ht := iter_ht d (iter_table iter) in
            let '(iter, d) :=
              if (index iter =? -1) && (iter_table iter =? 0) then
                if safe iter then (iter, set_iterators d (iterators d + 1))
                else (DictIterator (index iter) (iter_table iter) (safe iter)
                        (entry iter) (nextEntry iter) (dictFingerprint d), d)
              else (iter, d) in
            let idx := index iter + 1 in
            if signed64 (size ht) <=? idx then
              if dictIsRehashing d && (iter_table iter =? 0) then
                let ht := ht1 d in
                inl (DictIterator 0 (iter_table iter + 1) (safe iter)
                       (bucket_at ht 0) (nextEntry iter) (fingerprint iter), d)
              else
                inr (DictIterator idx (iter_table iter) (safe iter)
                       (entry iter) (nextEntry iter) (fingerprint iter), d)
            else
              inl (DictIterator idx (iter_table iter) (safe iter)
                     (bucket_at ht idx) (nextEntry iter) (fingerprint iter), d)
        | _ :: _ =>
            inl (DictIterator (index iter) (iter_table iter) (safe iter)
                   (nextEntry iter) (nextEntry iter) (fingerprint iter), d)
        end in
      match step with
      | inr (iter, d) => Ret (None, iter, d)
      | inl (iter, d) =>
          match entry iter with
          | e :: next =>
              Ret (Some e,
                   DictIterator (index iter) (iter_table iter) (safe iter)
                     (entry iter) next (fingerprint iter), d)
          | [] => dictNext_loop fuel' iter d
          end
      end
  end.

Definition dictNext := dictNext_loop.

(** [dictReleaseIterator]; the [assert] on the fingerprint can fail. *)
Definition dictReleaseIterator (iter : dictIterator) (d : dict) : outcome dict :=
  if negb ((index iter =? -1) && (iter_table iter =? 0)) then
    if safe iter then Ret (set_iterators d (iterators d - 1))
    else if fingerprint iter =? dictFingerprint d then Ret d
    else Panic
  else Ret d.

(** *** dictScan *)

Section Scan.

Context {P : Type}.
Variable fn : P -> dictEntry -> P.
Variable bucketfn : option (P -> chain -> P).

(** [if (bucketfn) bucketfn(privdata, &t->table[i]); de = t->table[i];
    while (de) { next = de->next; fn(privdata, de); de = next; }] *)
Definition emit_bucket (t : dictht) (i : Z) (privdata : P) : P :=
  let privdata :=
    match bucketfn with
    | Some f => f privdata (bucket_at t i)
    | None => privdata
    end in
  fold_left fn (bucket_at t i) privdata.

(** [do { ... } while (v & (m0 ^ m1));] over the larger table. *)
Fixpoint scan_expansions (fuel : nat) (t1 : dictht) (m0 m1 v : Z) (privdata : P)
    : outcome (Z * P) :=
  match fuel with
  | O => NoFuel
  | S fuel' =>
      let privdata := emit_bucket t1 (Z.land v m1) privdata in
      let v := Rev.cursor_next m1 v in
      if Z.land v (Z.lxor m0 m1) =? 0 then Ret (v, privdata)
      else scan_expansions fuel' t1 m0 m1 v privdata
  end.

(** [unsigned long dictScan(dict *d, unsigned long v, fn, bucketfn, privdata)]:
    the next cursor and the private data after the callbacks ran. *)
Definition dictScan (fuel : nat) (d : dict) (v : Z) (privdata : P) : outcome (Z * P) :=
  if dictSize d =? 0 then Ret (0, privdata)
  else if negb (dictIsRehashing d) then
    let t0 := ht0 d in
    let m0 := sizemask t0 in
    let privdata := emit_bucket t0 (Z.land v m0) privdata in
    Ret (Rev.cursor_next m0 v, privdata)
  else
    let '(t0, t1) :=
      if size (ht1 d) <? size (ht0 d) then (ht1 d, ht0 d) else (ht0 d, ht1 d) in
    let m0 := sizemask t0 in
    let m1 := sizemask t1 in
    let privdata := emit_bucket t0 (Z.land v m0) privdata in
    scan_expansions fuel t1 m0 m1 v privdata.

(** The caller's loop: [do { v = dictScan(d, v, ...); } while (v != 0);]
    on a dict nothing else touches. *)
Fixpoint scan_until_zero (fuel calls : nat) (d : dict) (v : Z) (privdata : P) : outcome P :=
  match calls with
  | O => NoFuel
  | S calls' =>
      letM '(v, privdata) := dictScan fuel d v privdata in
      if v =? 0 then Ret privdata
      else scan_until_zero fuel calls' d v privdata
  end.

End Scan.

(** The [collect] callback: the entries emitted, in order. *)
Definition collect (acc : list dictEntry) (de : dictEntry) : list dictEntry := acc ++ [de].

Definition scan_collect (fuel : nat) (d : dict) : outcome (list dictEntry) :=
  scan_until_zero collect None fuel fuel d 0 [].

(** *** Well-formed dicts (the invariants of section 3.2) *)

Definition pow2_table (t : dictht) : Prop :=
  exists k, 0 <= k <= 63 /\ size t = 2 ^ k /\ sizemask t = 2 ^ k - 1 /\
            Z.of_nat (length (buckets t)) = 2 ^ k /\ table t <> 0.

Definition counted (t : dictht) : Prop :=
  used t = Z.of_nat (length (concat (buckets t))).

Definition wf_dict (d : dict) : Prop :=
  counted (ht0 d) /\ counted (ht1 d) /\
  if dictIsRehashing d then
    pow2_table (ht0 d) /\ pow2_table (ht1 d) /\
    0 <= rehashidx d <= size (ht0 d) /\
    (forall i, 0 <= i < rehashidx d -> bucket_at (ht0 d) i = [])
  else
    (pow2_table (ht0 d) \/ ht0 d = _dictReset) /\ ht1 d = _dictReset.

(** Every entry of the dict, [ht[0]] first. *)
Definition dict_entries (d : dict) : list dictEntry :=
  concat (buckets (ht0 d)) ++ concat (buckets (ht1 d)).

(** The bucket discipline of section 8.2: every entry of bucket [i] hashes
    to [i] under the mask of its table. *)
Definition placed_in (ty : dictType) (t : dictht) : Prop :=
  forall i e, In e (bucket_at t i) -> Z.land (hashFunction ty (key e)) (sizemask t) = i.

(** The comparison callback decides equality of keys. *)
Definition compare_eq (ty : dictType) : Prop :=
  forall a b, keyCompare ty a b = true <-> a = b.

(** A well-formed dict whose entries sit in their buckets and whose keys
    are unique. *)
Definition dict_ok (d : dict) : Prop :=
  wf_dict d /\ placed_in (type d) (ht0 d) /\ placed_in (type d) (ht1 d) /\
  NoDup (map key (dict_entries d)) /\ compare_eq (type d).









Lemma bucket_at_in t i e : In e (bucket_at t i) -> In e (concat (buckets t)).
Proof.
  unfold bucket_at. destruct (i <? 0); [intros []|].
  destruct (buckets t !! Z.to_nat i) as [c|] eqn:E; simpl; [|intros []].
  intros He. apply in_concat. exists c. split; [|exact He].
  apply list_elem_of_In. eapply list_elem_of_lookup_2. exact E.
Qed.

Lemma in_concat_bucket t e :
  In e (concat (buckets t)) ->
  exists i, 0 <= i < Z.of_nat (length (buckets t)) /\ In e (bucket_at t i).
Proof.
  intros He. apply in_concat in He as [c [Hc He]].
  apply list_elem_of_In, list_elem_of_lookup in Hc as [i Hi].
  exists (Z.of_nat i). split.
  - apply lookup_lt_Some in Hi. lia.
  - unfold bucket_at. destruct (Z.ltb_spec (Z.of_nat i) 0); [lia|].
    rewrite Nat2Z.id, Hi. exact He.
Qed.












Lemma counted_nil (t : dictht) : counted t -> used t = 0 -> concat (buckets t) = [].
Proof.
  unfold counted. intros Hc Hu. destruct (concat (buckets t)); [reflexivity|].
  simpl in Hc. lia.
Qed.


(** *** dictExpand *)

Lemma next_power_loop_spec sz :
  0 <= sz < LONG_MAX ->
  forall (fuel : nat) j,
    2 <= j <= 63 -> 63 <= Z.of_nat fuel + j -> (j = 2 \/ 2 ^ (j - 1) < sz) ->
    exists j', j <= j' <= 63 /\ next_power_loop fuel (2 ^ j) sz = 2 ^ j' /\
               sz <= 2 ^ j' /\ (j' = 2 \/ 2 ^ (j' - 1) < sz).
Proof.
  intros Hsz. unfold LONG_MAX in Hsz.
  induction fuel as [|fuel IH]; intros j Hj Hf Hmin.
  - assert (j = 63) by lia. subst j. exists 63. cbn [next_power_loop].
    destruct (Z.leb_spec sz (2 ^ 63)); [|lia]. repeat split; try lia.
  - cbn [next_power_loop]. destruct (Z.leb_spec sz (2 ^ j)) as [Hle|Hgt].
    + exists j. repeat split; lia.
    + assert (Hj63 : j < 63).
      { destruct (Z.eq_dec j 63); [subst j; lia | lia]. }
      assert (Hw : wrap64 (2 ^ j * 2) = 2 ^ (j + 1)).
      { rewrite Z.pow_add_r by lia. change (2 ^ 1) with 2.
        apply wrap64_id. split; [apply Z.mul_nonneg_nonneg; [apply Z.pow_nonneg|]; lia|].
        change (2 ^ 64) with (2 ^ 63 * 2).
        assert (2 ^ j < 2 ^ 63) by (apply Z.pow_lt_mono_r; lia). lia. }
      rewrite Hw. destruct (IH (j + 1)) as (j' & Hj' & E & Hle & Hm); try lia.
      { right. replace (j + 1 - 1) with j by lia. exact Hgt. }
      exists j'. repeat split; lia.
Qed.

Lemma _dictNextPower_spec sz :
  0 <= sz ->
  exists j, 2 <= j <= 63 /\ _dictNextPower sz = 2 ^ j /\
            (sz < LONG_MAX -> sz <= 2 ^ j /\ (j = 2 \/ 2 ^ (j - 1) < sz)).
Proof.
  intros Hsz. unfold _dictNextPower.
  destruct (Z.leb_spec LONG_MAX sz) as [Hbig|Hsmall].
  - exists 63. split; [lia|]. split; [reflexivity | lia].
  - destruct (next_power_loop_spec sz ltac:(lia) 64 2) as (j & Hj & E & Hle & Hm);
      try lia.
    exists j. split; [lia|]. split; [exact E | intros _; split; assumption].
Qed.

(** The table [dictExpand] allocates for a request of [sz] buckets. *)
Definition new_table (sz : Z) : dictht :=
  Dictht (zcalloc (wrap64 (_dictNextPower sz * 8)))
         (replicate (Z.to_nat (_dictNextPower sz)) [])
         (_dictNextPower sz) (_dictNextPower sz - 1) 0.

(** C4, as the code has it. [dictExpand] returns an error and leaves the
    dict unchanged when (a) a rehash is in progress, (b) the requested size
    is strictly less than the number of entries of [ht[0]], or (c) the chosen
    power of two equals the size of [ht[0]]. In every other case it succeeds:
    the new table has the chosen size (a power of two, at least 4, the least
    one that holds the request), all its buckets empty; it becomes [ht[0]]
    when the dict had no table, and otherwise [ht[1]] with the rehash started
    at index 0. *)
Theorem dictExpand_failure_model (d : dict) (sz : Z) :
  0 <= sz ->
  (dictIsRehashing d = true \/ sz < used (ht0 d) \/ _dictNextPower sz = size (ht0 d) ->
   dictExpand d sz = (DICT_ERR, d)) /\
  (dictIsRehashing d = false -> used (ht0 d) <= sz ->
   _dictNextPower sz <> size (ht0 d) ->
   dictExpand d sz =
     (DICT_OK, if table (ht0 d) =? 0 then set_ht0 d (new_table sz)
               else set_rehashidx (set_ht1 d (new_table sz)) 0)) /\
  (exists j, 2 <= j <= 63 /\ size (new_table sz) = 2 ^ j /\
             sizemask (new_table sz) = 2 ^ j - 1 /\
             Z.of_nat (length (buckets (new_table sz))) = 2 ^ j /\
             (sz < LONG_MAX -> sz <= 2 ^ j /\ (j = 2 \/ 2 ^ (j - 1) < sz))) /\
  used (new_table sz) = 0 /\
  (forall i, bucket_at (new_table sz) i = []).
Proof.
  intros Hsz. split; [|split; [|split; [|split]]].
  - intros H. unfold dictExpand.
    destruct (dictIsRehashing d); [reflexivity|]. cbn [orb].
    destruct (Z.ltb_spec sz (used (ht0 d))); [reflexivity|].
    destruct (Z.eqb_spec (_dictNextPower sz) (size (ht0 d))); [reflexivity|].
    destruct H as [H|[H|H]]; [discriminate | lia | contradiction].
  - intros Hre Hu Hne. unfold dictExpand. rewrite Hre. cbn [orb].
    destruct (Z.ltb_spec sz (used (ht0 d))); [lia|].
    destruct (Z.eqb_spec (_dictNextPower sz) (size (ht0 d))); [contradiction|].
    fold (new_table sz). destruct (table (ht0 d) =? 0); reflexivity.
  - destruct (_dictNextPower_spec sz Hsz) as (j & Hj & E & Hmin).
    exists j. cbn [size sizemask buckets new_table]. rewrite E.
    repeat split; try lia; try (apply Hmin; assumption).
    rewrite length_replicate. apply Z2Nat.id. apply Z.pow_nonneg. lia.
  - reflexivity.
  - intros i. unfold bucket_at. destruct (i <? 0); [reflexivity|].
    cbn [buckets new_table].
    destruct (replicate (Z.to_nat (_dictNextPower sz)) [] !! Z.to_nat i) eqn:E;
      [|reflexivity].
    apply lookup_replicate in E as [-> _]. reflexivity.
Qed.

(** *** Iterators *)

Local Arguments dictFingerprint : simpl never.

Definition fresh (iter : dictIterator) : bool :=
  (index iter =? -1) && (iter_table iter =? 0).

(** How many buckets an iterator has yet to look at. *)
Definition buckets_ahead (iter : dictIterator) (d : dict) : Z :=
  if iter_table iter =? 0
  then Z.max 0 (size (ht0 d) - index iter) + size (ht1 d) + 1
  else Z.max 0 (size (ht1 d) - index iter).

Lemma signed64_small x : 0 <= x < 2 ^ 63 -> signed64 x = x.
Proof. intros Hx. unfold signed64. rewrite Z.mod_small by lia. lia. Qed.




(** C10. An iterator, safe or not, that is released before any [dictNext]
    leaves the dict as it finds it, whatever was done to the dict since the
    iterator was created: the counter is not decremented and the fingerprint
    is not compared, so the release cannot fail. *)
Theorem release_unadvanced_iterator (d d' : dict) :
  dictReleaseIterator (dictGetIterator d) d' = Ret d' /\
  dictReleaseIterator (dictGetSafeIterator d) d' = Ret d'.
Proof. split; reflexivity. Qed.

(** *** Incremental rehash *)

Definition total (t : dictht) : Z := Z.of_nat (length (concat (buckets t))).

Lemma bucket_at_lookup (t : dictht) (i : nat) c :
  buckets t !! i = Some c -> bucket_at t (Z.of_nat i) = c.
Proof.
  intros E. unfold bucket_at. destruct (Z.ltb_spec (Z.of_nat i) 0); [lia|].
  rewrite Nat2Z.id, E. reflexivity.
Qed.

Lemma bucket_at_lookup_Z (t : dictht) i :
  0 <= i < Z.of_nat (length (buckets t)) ->
  buckets t !! Z.to_nat i = Some (bucket_at t i).
Proof.
  intros Hi. destruct (lookup_lt_is_Some_2 (buckets t) (Z.to_nat i)) as [c E]; [lia|].
  rewrite E. f_equal. rewrite <- (Z2Nat.id i) at 1 by lia.
  symmetry. apply bucket_at_lookup, E.
Qed.

Lemma bucket_at_out (t : dictht) i :
  Z.of_nat (length (buckets t)) <= i -> bucket_at t i = [].
Proof.
  intros Hi. unfold bucket_at. destruct (i <? 0); [reflexivity|].
  rewrite lookup_ge_None_2 by lia. reflexivity.
Qed.

Lemma store_bucket_total (t : dictht) i c :
  0 <= i < Z.of_nat (length (buckets t)) ->
  total (store_bucket t i c) =
  total t - Z.of_nat (length (bucket_at t i)) + Z.of_nat (length c).
Proof.
  intros Hi. pose proof (bucket_at_lookup_Z t i Hi) as E.
  unfold total, store_bucket. cbn [buckets set_buckets].
  rewrite insert_take_drop by lia.
  rewrite <- (take_drop_middle _ _ _ E) at 3.
  rewrite !concat_app, !length_app. cbn [concat]. rewrite !length_app. lia.
Qed.

Lemma bucket_at_store (t : dictht) i j c :
  0 <= i < Z.of_nat (length (buckets t)) -> 0 <= j ->
  bucket_at (store_bucket t i c) j = if j =? i then c else bucket_at t j.
Proof.
  intros Hi Hj. unfold bucket_at, store_bucket. cbn [buckets set_buckets].
  destruct (Z.ltb_spec j 0); [lia|].
  destruct (Z.eqb_spec j i) as [->|Hne].
  - rewrite list_lookup_insert_eq by lia. reflexivity.
  - rewrite list_lookup_insert_ne by lia. reflexivity.
Qed.

Lemma total_nonempty (t : dictht) :
  total t <> 0 ->
  exists i, 0 <= i < Z.of_nat (length (buckets t)) /\ bucket_at t i <> [].
Proof.
  unfold total. intros H.
  destruct (concat (buckets t)) as [|e l] eqn:E; [cbn in H; lia|].
  destruct (in_concat_bucket t e) as (i & Hi & He); [rewrite E; left; reflexivity|].
  exists i. split; [exact Hi|]. intros E'. rewrite E' in He. destruct He.
Qed.

Lemma concat_insert_perm (bs : list chain) (i : nat) (c c' : chain) :
  bs !! i = Some c -> c ++ concat (<[i := c']> bs) ≡ₚ c' ++ concat bs.
Proof.
  intros E. pose proof (lookup_lt_Some _ _ _ E) as Hi.
  rewrite insert_take_drop by exact Hi.
  rewrite <- (take_drop_middle bs i c E) at 3.
  rewrite !concat_app. cbn [concat].
  rewrite (Permutation_app_swap_app c), (Permutation_app_swap_app c').
  apply Permutation_app_head. apply Permutation_app_swap_app.
Qed.

Lemma concat_insert_cons (bs : list chain) (i : nat) (c : chain) e :
  bs !! i = Some c -> concat (<[i := e :: c]> bs) ≡ₚ e :: concat bs.
Proof.
  intros E. apply (Permutation_app_inv_l c).
  rewrite (concat_insert_perm _ _ _ (e :: c) E). cbn [app].
  apply Permutation_middle.
Qed.

(** The chain loop moves every entry of the chain and nothing else. *)
Lemma rehash_chain_spec (de : list dictEntry) :
  forall (d : dict) k1,
    0 <= k1 -> sizemask (ht1 d) = 2 ^ k1 - 1 ->
    Z.of_nat (length (buckets (ht1 d))) = 2 ^ k1 ->
    let d' := rehash_chain d de in
    type d' = type d /\ rehashidx d' = rehashidx d /\ iterators d' = iterators d /\
    ht0 d' = set_used (ht0 d) (used (ht0 d) - Z.of_nat (length de)) /\
    table (ht1 d') = table (ht1 d) /\ size (ht1 d') = size (ht1 d) /\
    sizemask (ht1 d') = sizemask (ht1 d) /\
    length (buckets (ht1 d')) = length (buckets (ht1 d)) /\
    used (ht1 d') = used (ht1 d) + Z.of_nat (length de) /\
    total (ht1 d') = total (ht1 d) + Z.of_nat (length de).
Proof.
  induction de as [|e de IH]; intros d k1 Hk1 Hm Hl.
  - cbn. destruct d as [ty [tp b sz m u] t1 r it]; cbn.
    repeat split; try lia. unfold set_used. cbn. do 2 f_equal. lia.
  - cbn [rehash_chain].
    set (h := Z.land (dictHashKey d (key e)) (sizemask (ht1 d))).
    assert (Hh : 0 <= h < Z.of_nat (length (buckets (ht1 d)))).
    { unfold h. rewrite Hm, Hl, Rev.mask_ones, Z.land_ones by lia.
      apply Z.mod_pos_bound. apply Z.pow_pos_nonneg; lia. }
    set (t1 := store_bucket (ht1 d) h (e :: bucket_at (ht1 d) h)).
    set (d1 := set_ht1 (set_ht0 d (set_used (ht0 d) (used (ht0 d) - 1)))
                 (set_used t1 (used t1 + 1))).
    assert (Hlen1 : length (buckets (ht1 d1)) = length (buckets (ht1 d))).
    { unfold d1, t1, store_bucket. cbn. apply length_insert. }
    assert (Htot1 : total (ht1 d1) = total (ht1 d) + 1).
    { unfold d1. cbn [ht1 set_ht1]. unfold total at 1. cbn [buckets set_used].
      fold (total t1). unfold t1. rewrite store_bucket_total by exact Hh.
      cbn [length]. lia. }
    destruct (IH d1 k1 Hk1) as (Hty & Hr & Hit & H0 & Htp & Hsz & Hmk & Hlen & Hu & Htot).
    { unfold d1. cbn. exact Hm. }
    { rewrite Hlen1. exact Hl. }
    fold h. fold t1. fold d1.
    rewrite Hty, Hr, Hit, H0, Htp, Hsz, Hmk, Hlen, Hu, Htot, Hlen1, Htot1.
    unfold d1, t1. cbn [type rehashidx iterators ht0 ht1 set_ht0 set_ht1 table size
                         sizemask used set_used store_bucket set_buckets buckets length].
    repeat split; try lia. unfold set_used. cbn. f_equal. lia.
Qed.

(** The loop over empty buckets only moves [rehashidx], over buckets that
    are empty, and never past a bucket that is not. *)
Lemma skip_empty_spec (ev : nat) :
  forall (d : dict) i,
    (0 < ev)%nat -> rehashidx d <= i -> bucket_at (ht0 d) i <> [] ->
    exists r ev' returned,
      skip_empty ev d = (set_rehashidx d r, ev', returned) /\
      rehashidx d <= r <= i /\
      (forall x, rehashidx d <= x < r -> bucket_at (ht0 d) x = []) /\
      (returned = true -> rehashidx d < r) /\
      (returned = false -> bucket_at (ht0 d) r <> [] /\ (0 < ev')%nat).
Proof.
  induction ev as [|ev IH]; intros d i Hev Hi Hne; [lia|].
  cbn [skip_empty].
  destruct (bucket_at (ht0 d) (rehashidx d)) as [|e c] eqn:Eb.
  - assert (Hlt : rehashidx d < i).
    { destruct (Z.eq_dec (rehashidx d) i) as [E|E]; [|lia].
      rewrite E in Eb. contradiction. }
    destruct ev as [|ev].
    + exists (rehashidx d + 1), 0%nat, true. split; [reflexivity|].
      split; [lia|]. split.
      * intros x Hx. replace x with (rehashidx d) by lia. exact Eb.
      * split; [lia | discriminate].
    + destruct (IH (set_rehashidx d (rehashidx d + 1)) i)
        as (r & ev' & ret & E & Hr & Hempty & Hret & Hnot);
        cbn [rehashidx set_rehashidx ht0]; try lia; try exact Hne.
      exists r, ev', ret. cbn [rehashidx set_rehashidx ht0] in *.
      split.
      { rewrite E. destruct d; reflexivity. }
      split; [lia|]. split.
      * intros x Hx. destruct (Z.eq_dec x (rehashidx d)) as [->|Hx'];
          [exact Eb | apply Hempty; lia].
      * split; [intros; lia | exact Hnot].
  - exists (rehashidx d), (S ev), false. split.
    { destruct d; reflexivity. }
    split; [lia|]. split; [intros; lia|]. split; [discriminate|].
    intros _. split; [rewrite Eb; discriminate | lia].
Qed.

Lemma wf_rehashing_intro (d : dict) :
  counted (ht0 d) -> counted (ht1 d) -> pow2_table (ht0 d) -> pow2_table (ht1 d) ->
  0 <= rehashidx d <= size (ht0 d) ->
  (forall i, 0 <= i < rehashidx d -> bucket_at (ht0 d) i = []) ->
  wf_dict d /\ dictIsRehashing d = true.
Proof.
  intros Hc0 Hc1 Hp0 Hp1 Hr He.
  assert (E : dictIsRehashing d = true).
  { unfold dictIsRehashing. destruct (Z.eqb_spec (rehashidx d) (-1)); [lia | reflexivity]. }
  split; [|exact E]. unfold wf_dict. rewrite E. repeat split; auto; lia.
Qed.

Lemma wf_rehashing_elim (d : dict) :
  wf_dict d -> dictIsRehashing d = true ->
  counted (ht0 d) /\ counted (ht1 d) /\ pow2_table (ht0 d) /\ pow2_table (ht1 d) /\
  0 <= rehashidx d <= size (ht0 d) /\
  (forall i, 0 <= i < rehashidx d -> bucket_at (ht0 d) i = []).
Proof.
  intros (Hc0 & Hc1 & Hs) E. rewrite E in Hs. tauto.
Qed.

Lemma rehash_finish_spec (d : dict) :
  wf_dict d -> dictIsRehashing d = true ->
  wf_dict (snd (rehash_finish d)) /\
  type (snd (rehash_finish d)) = type d /\
  iterators (snd (rehash_finish d)) = iterators d /\
  ((used (ht0 d) = 0 /\ fst (rehash_finish d) = 0 /\
    dictIsRehashing (snd (rehash_finish d)) = false) \/
   (used (ht0 d) <> 0 /\ rehash_finish d = (1, d))).
Proof.
  intros Hwf Hre.
  destruct (wf_rehashing_elim d Hwf Hre) as (Hc0 & Hc1 & Hp0 & Hp1 & Hr & He).
  unfold rehash_finish. destruct (Z.eqb_spec (used (ht0 d)) 0) as [Hu|Hu].
  - cbn [fst snd]. split; [|split; [reflexivity|split; [reflexivity|]]].
    + unfold wf_dict. cbn. split; [exact Hc1|]. split; [reflexivity|]. auto.
    + left. split; [exact Hu|]. split; reflexivity.
  - cbn [fst snd]. split; [exact Hwf|]. split; [reflexivity|]. split; [reflexivity|].
    right. split; [exact Hu | reflexivity].
Qed.

(** The entries the chain loop adds to [ht[1]] sit in their buckets. *)
Lemma rehash_chain_entries (de : list dictEntry) :
  forall (d : dict) k1,
    0 <= k1 -> sizemask (ht1 d) = 2 ^ k1 - 1 ->
    Z.of_nat (length (buckets (ht1 d))) = 2 ^ k1 ->
    concat (buckets (ht1 (rehash_chain d de))) ≡ₚ de ++ concat (buckets (ht1 d)) /\
    (placed_in (type d) (ht1 d) -> placed_in (type d) (ht1 (rehash_chain d de))).
Proof.
  induction de as [|e de IH]; intros d k1 Hk1 Hm Hl.
  - cbn. split; [reflexivity | auto].
  - cbn [rehash_chain].
    set (h := Z.land (dictHashKey d (key e)) (sizemask (ht1 d))).
    assert (Hh : 0 <= h < Z.of_nat (length (buckets (ht1 d)))).
    { unfold h. rewrite Hm, Hl, Rev.mask_ones, Z.land_ones by lia.
      apply Z.mod_pos_bound. apply Z.pow_pos_nonneg; lia. }
    set (t1 := store_bucket (ht1 d) h (e :: bucket_at (ht1 d) h)).
    set (d1 := set_ht1 (set_ht0 d (set_used (ht0 d) (used (ht0 d) - 1)))
                 (set_used t1 (used t1 + 1))).
    destruct (IH d1 k1 Hk1) as [Hperm Hplaced].
    { unfold d1. cbn. exact Hm. }
    { unfold d1, t1, store_bucket. cbn. rewrite length_insert. exact Hl. }
    split.
    + rewrite Hperm. unfold d1, t1, store_bucket. cbn [ht1 set_ht1 buckets set_used set_buckets].
      rewrite (concat_insert_cons _ _ _ e (bucket_at_lookup_Z _ _ Hh)).
      symmetry. apply Permutation_middle.
    + intros Hp. apply Hplaced. unfold d1. cbn [type set_ht1 set_ht0 ht1].
      intros i x Hx. change (sizemask (set_used t1 (used t1 + 1))) with (sizemask (ht1 d)).
      change (bucket_at (set_used t1 (used t1 + 1)) i) with (bucket_at t1 i) in Hx.
      destruct (Z.ltb_spec i 0) as [Hneg|Hpos].
      { unfold bucket_at in Hx. destruct (Z.ltb_spec i 0); [destruct Hx | lia]. }
      unfold t1 in Hx. rewrite bucket_at_store in Hx by lia.
      destruct (Z.eqb_spec i h) as [->|Hne].
      * destruct Hx as [<-|Hx]; [reflexivity | apply Hp, Hx].
      * apply Hp, Hx.
Qed.

(** Moving [rehashidx] over empty buckets keeps the dict well-formed. *)
Lemma skip_wf (d : dict) r :
  wf_dict d -> dictIsRehashing d = true ->
  rehashidx d <= r <= size (ht0 d) ->
  (forall x, rehashidx d <= x < r -> bucket_at (ht0 d) x = []) ->
  wf_dict (set_rehashidx d r) /\ dictIsRehashing (set_rehashidx d r) = true.
Proof.
  intros Hwf Hre Hr Hskip.
  destruct (wf_rehashing_elim d Hwf Hre) as (Hc0 & Hc1 & Hp0 & Hp1 & Hr0 & He).
  apply wf_rehashing_intro; cbn [ht0 ht1 rehashidx set_rehashidx]; auto; try lia.
  intros x Hx. destruct (Z.lt_ge_cases x (rehashidx d)); [apply He | apply Hskip]; lia.
Qed.

(** One bucket moved: the dict stays well-formed, holds the same entries,
    and the entries stay in their buckets. *)
Lemma migrate_bucket_spec (d : dict) :
  wf_dict d -> dictIsRehashing d = true -> rehashidx d < size (ht0 d) ->
  wf_dict (migrate_bucket d) /\ dictIsRehashing (migrate_bucket d) = true /\
  type (migrate_bucket d) = type d /\ iterators (migrate_bucket d) = iterators d /\
  size (ht0 (migrate_bucket d)) = size (ht0 d) /\
  rehashidx (migrate_bucket d) = rehashidx d + 1 /\
  dict_entries (migrate_bucket d) ≡ₚ dict_entries d /\
  (placed_in (type d) (ht0 d) -> placed_in (type d) (ht1 d) ->
   placed_in (type d) (ht0 (migrate_bucket d)) /\
   placed_in (type d) (ht1 (migrate_bucket d))).
Proof.
  intros Hwf Hre Hlt.
  destruct (wf_rehashing_elim d Hwf Hre) as (Hc0 & Hc1 & Hp0 & Hp1 & Hr & He).
  destruct Hp0 as (k0 & Hk0 & Hs0 & Hm0 & Hl0 & Ht0).
  destruct Hp1 as (k1 & Hk1 & Hs1 & Hm1 & Hl1 & Ht1).
  set (r := rehashidx d) in *. set (de := bucket_at (ht0 d) r).
  destruct (rehash_chain_spec de d k1 ltac:(lia) Hm1 Hl1)
    as (Hty & Hrx & Hit & H0 & Htp & Hsz & Hmk & Hlen & Hu1 & Htot).
  destruct (rehash_chain_entries de d k1 ltac:(lia) Hm1 Hl1) as [Hperm Hplaced].
  assert (Hrng : 0 <= r < Z.of_nat (length (buckets (ht0 d)))) by lia.
  assert (E5 : migrate_bucket d =
               set_rehashidx (set_ht0 (rehash_chain d de)
                                (store_bucket (set_used (ht0 d) (used (ht0 d) - Z.of_nat (length de))) r []))
                 (r + 1)).
  { unfold migrate_bucket. fold r. fold de. cbn [rehashidx set_ht0].
    rewrite H0, Hrx. reflexivity. }
  rewrite E5. set (d3 := rehash_chain d de) in *.
  cbn [type iterators ht0 ht1 rehashidx set_rehashidx set_ht0].
  assert (Hwf5 : wf_dict (set_rehashidx (set_ht0 d3
                    (store_bucket (set_used (ht0 d) (used (ht0 d) - Z.of_nat (length de))) r []))
                    (r + 1)) /\
                 dictIsRehashing (set_rehashidx (set_ht0 d3
                    (store_bucket (set_used (ht0 d) (used (ht0 d) - Z.of_nat (length de))) r []))
                    (r + 1)) = true).
  { apply wf_rehashing_intro; cbn [ht0 ht1 rehashidx set_rehashidx set_ht0].
    - unfold counted.
      fold (total (store_bucket (set_used (ht0 d) (used (ht0 d) - Z.of_nat (length de))) r [])).
      rewrite store_bucket_total by exact Hrng.
      cbn [used store_bucket set_buckets set_used length].
      unfold counted in Hc0. fold (total (ht0 d)) in Hc0.
      change (bucket_at (set_used (ht0 d) (used (ht0 d) - Z.of_nat (length de))) r)
        with (bucket_at (ht0 d) r).
      change (total (set_used (ht0 d) (used (ht0 d) - Z.of_nat (length de))))
        with (total (ht0 d)).
      fold de. lia.
    - unfold counted. fold (total (ht1 d3)).
      unfold counted in Hc1. fold (total (ht1 d)) in Hc1. lia.
    - exists k0. cbn [size sizemask table buckets store_bucket set_buckets set_used].
      rewrite length_insert. auto.
    - exists k1. rewrite Hsz, Hmk, Htp, Hlen. auto.
    - cbn [size store_bucket set_buckets set_used]. lia.
    - intros x Hx.
      rewrite (bucket_at_store (set_used (ht0 d) _) r x []) by (cbn [buckets set_used]; lia).
      destruct (Z.eqb_spec x r); [reflexivity|].
      change (bucket_at (set_used (ht0 d) (used (ht0 d) - Z.of_nat (length de))) x)
        with (bucket_at (ht0 d) x).
      apply He. lia. }
  destruct Hwf5 as [Hwf5 Hre5].
  split; [exact Hwf5|]. split; [exact Hre5|]. split; [exact Hty|]. split; [exact Hit|].
  split; [reflexivity|]. split; [reflexivity|]. split.
  - unfold dict_entries. cbn [ht0 ht1 set_rehashidx set_ht0 buckets store_bucket set_buckets set_used].
    rewrite Hperm, Permutation_app_swap_app.
    rewrite (app_assoc de). apply Permutation_app_tail.
    exact (concat_insert_perm _ _ _ [] (bucket_at_lookup_Z _ _ Hrng)).
  - intros P0 P1. split; [|exact (Hplaced P1)].
    intros i x Hx.
    change (sizemask (store_bucket (set_used (ht0 d) (used (ht0 d) - Z.of_nat (length de))) r []))
      with (sizemask (ht0 d)).
    destruct (Z.ltb_spec i 0) as [Hneg|Hpos].
    { unfold bucket_at in Hx. destruct (Z.ltb_spec i 0); [destruct Hx | lia]. }
    rewrite (bucket_at_store (set_used (ht0 d) _) r i []) in Hx by (cbn [buckets set_used]; lia).
    destruct (Z.eqb_spec i r); [destruct Hx|]. apply P0, Hx.
Qed.

(** What [dictRehash] does once its loop is over keeps all of it too. *)
Lemma rehash_finish_entries (d : dict) :
  wf_dict d -> dictIsRehashing d = true ->
  dict_entries (snd (rehash_finish d)) ≡ₚ dict_entries d /\
  (placed_in (type d) (ht0 d) -> placed_in (type d) (ht1 d) ->
   placed_in (type d) (ht0 (snd (rehash_finish d))) /\
   placed_in (type d) (ht1 (snd (rehash_finish d)))).
Proof.
  intros Hwf Hre.
  destruct (wf_rehashing_elim d Hwf Hre) as (Hc0 & Hc1 & _).
  unfold rehash_finish. destruct (Z.eqb_spec (used (ht0 d)) 0) as [Hu|Hu]; cbn [snd].
  - unfold dict_entries. cbn [ht0 ht1 set_rehashidx set_ht0 set_ht1 buckets _dictReset concat].
    rewrite (counted_nil _ Hc0 Hu), app_nil_r. split; [reflexivity|].
    intros _ P1. split; [exact P1|]. intros i e He. unfold bucket_at in He. cbn in He.
    destruct (i <? 0); [destruct He|]. rewrite lookup_nil in He. destruct He.
  - split; [reflexivity | auto].
Qed.

(** [dictRehash] on a dict that is being rehashed: it returns, the dict
    stays well-formed with the same entries, each in its bucket, and when
    it reports more work the rehash index has advanced. *)
Lemma rehash_loop_spec (n : nat) :
  forall (ev : nat) (d : dict),
    wf_dict d -> dictIsRehashing d = true -> (0 < ev)%nat ->
    exists r d',
      rehash_loop n ev d = Ret (r, d') /\ wf_dict d' /\
      type d' = type d /\ iterators d' = iterators d /\
      dict_entries d' ≡ₚ dict_entries d /\
      (placed_in (type d) (ht0 d) -> placed_in (type d) (ht1 d) ->
       placed_in (type d) (ht0 d') /\ placed_in (type d) (ht1 d')) /\
      ((r = 0 /\ dictIsRehashing d' = false) \/
       (r = 1 /\ dictIsRehashing d' = true /\ size (ht0 d') = size (ht0 d) /\
        rehashidx d <= rehashidx d' /\ ((0 < n)%nat -> rehashidx d < rehashidx d'))).
Proof.
  assert (Hfin : forall d : dict, wf_dict d -> dictIsRehashing d = true ->
            exists r d', rehash_finish d = (r, d') /\ wf_dict d' /\
              type d' = type d /\ iterators d' = iterators d /\
              dict_entries d' ≡ₚ dict_entries d /\
              (placed_in (type d) (ht0 d) -> placed_in (type d) (ht1 d) ->
               placed_in (type d) (ht0 d') /\ placed_in (type d) (ht1 d')) /\
              ((r = 0 /\ dictIsRehashing d' = false /\ used (ht0 d) = 0) \/
               (r = 1 /\ d' = d /\ used (ht0 d) <> 0))).
  { intros d Hwf Hre.
    destruct (rehash_finish_spec d Hwf Hre) as (Hwf' & Hty & Hit & Hcase).
    destruct (rehash_finish_entries d Hwf Hre) as (Hperm & Hpl).
    destruct (rehash_finish d) as [r d'] eqn:E. cbn [fst snd] in *.
    exists r, d'. repeat (split; [assumption || reflexivity|]).
    destruct Hcase as [(Hu & Hr0 & Hnr)|(Hu & E')]; [left; auto|].
    inversion E'; subst. right. auto. }
  induction n as [|n IH]; intros ev d Hwf Hre Hev.
  - cbn [rehash_loop].
    destruct (Hfin d Hwf Hre) as (r & d' & E & Hwf' & Hty & Hit & Hperm & Hpl & Hcase).
    exists r, d'. rewrite E. repeat (split; [assumption || reflexivity|]).
    destruct Hcase as [(-> & Hnr & _)|(-> & -> & _)]; [left; auto|].
    right. repeat split; try lia; auto.
  - cbn [rehash_loop].
    destruct (Z.eqb_spec (used (ht0 d)) 0) as [Hu|Hu].
    { destruct (Hfin d Hwf Hre) as (r & d' & E & Hwf' & Hty & Hit & Hperm & Hpl & Hcase).
      exists r, d'. rewrite E. repeat (split; [assumption || reflexivity|]).
      destruct Hcase as [(-> & Hnr & _)|(_ & _ & Hu')]; [left; auto | contradiction]. }
    destruct (wf_rehashing_elim d Hwf Hre) as (Hc0 & Hc1 & Hp0 & Hp1 & Hr & He).
    destruct Hp0 as (k0 & Hk0 & Hs0 & Hm0 & Hl0 & Ht0).
    destruct (total_nonempty (ht0 d)) as (i & Hi & Hne).
    { unfold counted in Hc0. unfold total. lia. }
    assert (Hri : rehashidx d <= i).
    { destruct (Z.le_gt_cases (rehashidx d) i) as [H|H]; [exact H|].
      exfalso. apply Hne, He. lia. }
    assert (Hp63 : 2 ^ k0 <= 2 ^ 63) by (apply Z.pow_le_mono_r; lia).
    rewrite wrap64_id by (unfold word64; lia).
    destruct (Z.ltb_spec (rehashidx d) (size (ht0 d))) as [_|Hbad]; [|lia].
    cbn [negb].
    destruct (skip_empty_spec ev d i Hev Hri Hne)
      as (r & ev' & ret & Esk & Hrr & Hskip & Hret & Hnot).
    rewrite Esk.
    destruct (skip_wf d r Hwf Hre ltac:(lia) Hskip) as [Hwfr Hrer].
    destruct ret.
    + exists 1, (set_rehashidx d r). split; [reflexivity|].
      split; [exact Hwfr|]. split; [reflexivity|]. split; [reflexivity|].
      split; [reflexivity|]. split; [auto|].
      right. specialize (Hret eq_refl). cbn [ht0 rehashidx set_rehashidx].
      repeat split; try lia; auto.
    + destruct (Hnot eq_refl) as [Hbr Hev']. clear Hnot Hret.
      destruct (migrate_bucket_spec (set_rehashidx d r) Hwfr Hrer)
        as (Hwf5 & Hre5 & Hty5 & Hit5 & Hsz5 & Hrx5 & Hperm5 & Hpl5).
      { cbn [ht0 rehashidx set_rehashidx]. lia. }
      cbn [type iterators ht0 ht1 rehashidx set_rehashidx] in Hty5, Hit5, Hsz5, Hrx5, Hpl5.
      change (dict_entries (set_rehashidx d r)) with (dict_entries d) in Hperm5.
      destruct (IH ev' _ Hwf5 Hre5 Hev')
        as (r' & d' & E & Hwf' & Hty' & Hit' & Hperm' & Hpl' & Hcase).
      exists r', d'. split; [exact E|]. split; [exact Hwf'|].
      split; [congruence|]. split; [congruence|].
      split; [rewrite Hperm'; exact Hperm5|].
      split.
      { intros P0 P1. destruct (Hpl5 P0 P1) as [Q0 Q1]. rewrite Hty5 in Hpl'. auto. }
      destruct Hcase as [?|(? & ? & ? & ? & ?)]; [left; assumption|].
      right. repeat split; try assumption; try lia; try congruence.
Qed.






(** *** Lookup and insertion on well-formed dicts *)

Lemma chain_find_some (d : dict) k (c : chain) e :
  compare_eq (type d) -> chain_find d k c = Some e -> In e c /\ key e = k.
Proof.
  intros Hc. induction c as [|x c IH]; cbn [chain_find]; [discriminate|].
  unfold dictCompareKeys. destruct (keyCompare (type d) k (key x)) eqn:E.
  - intros [= <-]. split; [left; reflexivity|]. symmetry. apply Hc, E.
  - intros H. destruct (IH H) as [Hin Hk]. split; [right; exact Hin | exact Hk].
Qed.

Lemma chain_find_none (d : dict) k (c : chain) :
  compare_eq (type d) -> (forall e, In e c -> key e <> k) -> chain_find d k c = None.
Proof.
  intros Hc. induction c as [|x c IH]; intros Hne; cbn [chain_find]; [reflexivity|].
  unfold dictCompareKeys. destruct (keyCompare (type d) k (key x)) eqn:E.
  - apply Hc in E. exfalso. apply (Hne x); [left; reflexivity | congruence].
  - apply IH. intros e He. apply Hne. right. exact He.
Qed.

Lemma chain_find_in (d : dict) (c : chain) e :
  compare_eq (type d) -> NoDup (map key c) -> In e c -> chain_find d (key e) c = Some e.
Proof.
  intros Hc. induction c as [|x c IH]; intros Hnd Hin; [destruct Hin|].
  cbn [chain_find]. unfold dictCompareKeys. cbn [map] in Hnd.
  apply NoDup_cons in Hnd as [Hx Hnd].
  destruct (keyCompare (type d) (key e) (key x)) eqn:E.
  - apply Hc in E. destruct Hin as [->|Hin]; [reflexivity|].
    exfalso. apply Hx. rewrite <- E. apply list_elem_of_In, in_map, Hin.
  - destruct Hin as [->|Hin]; [|apply IH; assumption].
    assert (keyCompare (type d) (key e) (key e) = true) by (apply Hc; reflexivity).
    congruence.
Qed.

Lemma bucket_nodup (t : dictht) i :
  NoDup (map key (concat (buckets t))) -> NoDup (map key (bucket_at t i)).
Proof.
  intros Hnd. unfold bucket_at. destruct (i <? 0); [constructor|].
  destruct (buckets t !! Z.to_nat i) as [c|] eqn:E; [|constructor]. cbn [default].
  rewrite <- (take_drop_middle _ _ _ E), concat_app in Hnd. cbn [concat] in Hnd.
  rewrite !map_app in Hnd.
  apply NoDup_app in Hnd as (_ & _ & Hnd). apply NoDup_app in Hnd as (Hnd & _). exact Hnd.
Qed.

(** A key that is in a table is found in the bucket its hash selects. *)
Lemma table_hit (d : dict) (t : dictht) e :
  compare_eq (type d) -> placed_in (type d) t ->
  NoDup (map key (concat (buckets t))) -> In e (concat (buckets t)) ->
  chain_find d (key e) (bucket_at t (Z.land (dictHashKey d (key e)) (sizemask t))) = Some e.
Proof.
  intros Hc Hp Hnd Hin. apply in_concat_bucket in Hin as (i & Hi & Hin).
  unfold dictHashKey. rewrite (Hp i e Hin).
  apply chain_find_in; [exact Hc | apply bucket_nodup, Hnd | exact Hin].
Qed.

Lemma table_miss (d : dict) (t : dictht) k i :
  compare_eq (type d) -> (forall e, In e (concat (buckets t)) -> key e <> k) ->
  chain_find d k (bucket_at t i) = None.
Proof.
  intros Hc Hne. apply chain_find_none; [exact Hc|].
  intros e He. apply Hne. eapply bucket_at_in, He.
Qed.

Lemma key_inj (l : chain) a b :
  NoDup (map key l) -> In a l -> In b l -> key a = key b -> a = b.
Proof.
  induction l as [|x l IH]; intros Hnd Ha Hb E; [destruct Ha|].
  cbn [map] in Hnd. apply NoDup_cons in Hnd as [Hx Hnd].
  destruct Ha as [->|Ha], Hb as [->|Hb]; auto.
  - exfalso. apply Hx. rewrite E. apply list_elem_of_In, in_map, Hb.
  - exfalso. apply Hx. rewrite <- E. apply list_elem_of_In, in_map, Ha.
Qed.

Lemma concat_replicate_nil (n : nat) : concat (replicate n ([] : chain)) = [].
Proof. induction n as [|n IH]; [reflexivity | exact IH]. Qed.

Lemma bucket_at_replicate (t : dictht) n i : buckets t = replicate n [] -> bucket_at t i = [].
Proof.
  intros E. unfold bucket_at. destruct (i <? 0); [reflexivity|]. rewrite E.
  destruct (replicate n [] !! Z.to_nat i) eqn:El; [|reflexivity].
  apply lookup_replicate in El as [-> _]. reflexivity.
Qed.

Lemma dictSize_entries (d : dict) :
  wf_dict d -> dictSize d = Z.of_nat (length (dict_entries d)).
Proof.
  intros (Hc0 & Hc1 & _). unfold dictSize, dict_entries. rewrite length_app.
  unfold counted in Hc0, Hc1. lia.
Qed.

Lemma mask_index k h : 0 <= k -> 0 <= Z.land h (2 ^ k - 1) < 2 ^ k.
Proof.
  intros Hk. rewrite Rev.mask_ones, Z.land_ones by lia.
  apply Z.mod_pos_bound. apply Z.pow_pos_nonneg; lia.
Qed.

(** Allocation failure is fatal in [zcalloc]: the address is never NULL. *)
Definition alloc_ok : Prop := forall n, zcalloc n <> 0.

(** The table [dictExpand] allocates. *)
Lemma fresh_table_ok (ty : dictType) (j a : Z) :
  0 <= j <= 63 -> a <> 0 ->
  pow2_table (Dictht a (replicate (Z.to_nat (2 ^ j)) []) (2 ^ j) (2 ^ j - 1) 0) /\
  counted (Dictht a (replicate (Z.to_nat (2 ^ j)) []) (2 ^ j) (2 ^ j - 1) 0) /\
  placed_in ty (Dictht a (replicate (Z.to_nat (2 ^ j)) []) (2 ^ j) (2 ^ j - 1) 0).
Proof.
  intros Hj Ha. split; [|split].
  - exists j. cbn [size sizemask buckets table]. rewrite length_replicate.
    rewrite Z2Nat.id by (apply Z.pow_nonneg; lia). repeat split; try lia; auto.
  - unfold counted. cbn [used buckets]. rewrite concat_replicate_nil. reflexivity.
  - intros i e He. rewrite (bucket_at_replicate _ (Z.to_nat (2 ^ j))) in He by reflexivity.
    destruct He.
Qed.

(** On a well-formed dict the growth check never fails. *)
Lemma _dictExpandIfNeeded_ok (d : dict) :
  alloc_ok -> dict_ok d -> used (ht0 d) < 2 ^ 62 ->
  exists d',
    _dictExpandIfNeeded d = (DICT_OK, d') /\ dict_ok d' /\
    type d' = type d /\ iterators d' = iterators d /\
    dict_entries d' = dict_entries d /\ pow2_table (ht0 d').
Proof.
  intros Ha (Hwf & P0 & P1 & Hnd & Hc) Hu. unfold _dictExpandIfNeeded.
  destruct (dictIsRehashing d) eqn:Hre.
  { exists d. destruct (wf_rehashing_elim d Hwf Hre) as (_ & _ & Hp0 & _).
    split; [reflexivity|]. split; [unfold dict_ok; tauto|]. repeat split; auto. }
  pose proof Hwf as (Hc0 & Hc1 & Hs). rewrite Hre in Hs. destruct Hs as [Hp0 E1].
  assert (Hu0 : 0 <= used (ht0 d)) by (unfold counted in Hc0; lia).
  destruct (Z.eqb_spec (size (ht0 d)) 0) as [Hz|Hnz].
  - destruct Hp0 as [(k & Hk & Hs & _)|E0].
    { exfalso. assert (0 < 2 ^ k) by (apply Z.pow_pos_nonneg; lia). lia. }
    unfold dictExpand. rewrite Hre, E0. cbn [used _dictReset orb size table].
    change (DICT_HT_INITIAL_SIZE <? 0) with false.
    change (_dictNextPower DICT_HT_INITIAL_SIZE) with (2 ^ 2).
    change (2 ^ 2 =? 0) with false. change (0 =? 0) with true. cbv iota.
    destruct (fresh_table_ok (type d) 2 (zcalloc (wrap64 (2 ^ 2 * 8))) ltac:(lia) (Ha _))
      as (Hp & Hcn & Hpl).
    eexists. split; [reflexivity|]. cbn [type iterators ht0 ht1 set_ht0].
    split; [|split; [reflexivity|split; [reflexivity|split; [|exact Hp]]]].
    + split; [|split; [exact Hpl|split; [exact P1|split; [|exact Hc]]]].
      * unfold wf_dict. cbn [ht0 ht1 set_ht0]. split; [exact Hcn|]. split; [exact Hc1|].
        change (dictIsRehashing (set_ht0 d _)) with (dictIsRehashing d). rewrite Hre.
        split; [left; exact Hp | exact E1].
      * unfold dict_entries. cbn [ht0 ht1 set_ht0 buckets]. rewrite concat_replicate_nil.
        unfold dict_entries in Hnd. rewrite E0 in Hnd. exact Hnd.
    + unfold dict_entries. cbn [ht0 ht1 set_ht0 buckets]. rewrite concat_replicate_nil, E0.
      reflexivity.
  - assert (Hp : pow2_table (ht0 d)).
    { destruct Hp0 as [Hp|E0]; [exact Hp|]. rewrite E0 in Hnz. contradiction. }
    destruct ((size (ht0 d) <=? used (ht0 d)) &&
              (dict_can_resize || (dict_force_resize_ratio <? used (ht0 d) / size (ht0 d))))
      eqn:Hgrow.
    2:{ exists d. split; [reflexivity|]. split; [unfold dict_ok; tauto|].
        repeat split; auto. }
    apply andb_true_iff in Hgrow as [Hge _]. apply Z.leb_le in Hge.
    destruct Hp as (k & Hk & Hs & Hm & Hl & Ht).
    assert (Hpos : 0 < 2 ^ k) by (apply Z.pow_pos_nonneg; lia).
    assert (Hw : wrap64 (used (ht0 d) * 2) = used (ht0 d) * 2).
    { apply wrap64_id. unfold word64. lia. }
    rewrite Hw. unfold dictExpand. rewrite Hre. cbn [orb].
    destruct (Z.ltb_spec (used (ht0 d) * 2) (used (ht0 d))) as [Hbad|_]; [lia|].
    destruct (_dictNextPower_spec (used (ht0 d) * 2) ltac:(lia)) as (j & Hj & Ej & Hmin).
    destruct Hmin as [Hle _]; [unfold LONG_MAX; lia|].
    rewrite Ej.
    destruct (Z.eqb_spec (2 ^ j) (size (ht0 d))) as [Heq|_]; [lia|].
    destruct (Z.eqb_spec (table (ht0 d)) 0) as [Hnull|_]; [contradiction|].
    destruct (fresh_table_ok (type d) j (zcalloc (wrap64 (2 ^ j * 8))) ltac:(lia) (Ha _))
      as (Hpn & Hcn & Hpl).
    eexists. split; [reflexivity|]. cbn [type iterators ht0 ht1 set_ht1 set_rehashidx].
    split; [|split; [reflexivity|split; [reflexivity|split; [|exists k; auto]]]].
    + split; [|split; [exact P0|split; [exact Hpl|split; [|exact Hc]]]].
      * apply wf_rehashing_intro; cbn [ht0 ht1 rehashidx set_ht1 set_rehashidx]; auto.
        { exists k. auto. }
        { lia. }
        { intros i Hi. lia. }
      * unfold dict_entries. cbn [ht0 ht1 set_ht1 set_rehashidx buckets].
        rewrite concat_replicate_nil.
        unfold dict_entries in Hnd. rewrite E1 in Hnd. exact Hnd.
    + unfold dict_entries. cbn [ht0 ht1 set_ht1 set_rehashidx buckets].
      rewrite concat_replicate_nil, E1. reflexivity.
Qed.

(** A rehash step keeps the dict and its entries. *)
Lemma _dictRehashStep_ok (d : dict) :
  dict_ok d ->
  exists d',
    _dictRehashStep d = Ret d' /\ dict_ok d' /\
    type d' = type d /\ iterators d' = iterators d /\
    dict_entries d' ≡ₚ dict_entries d.
Proof.
  intros (Hwf & P0 & P1 & Hnd & Hc). unfold _dictRehashStep.
  destruct (iterators d =? 0).
  2:{ exists d. split; [reflexivity|]. split; [unfold dict_ok; tauto|]. repeat split; auto. }
  unfold dictRehash. destruct (dictIsRehashing d) eqn:Hre; cbn [negb bind].
  2:{ exists d. split; [reflexivity|]. split; [unfold dict_ok; tauto|]. repeat split; auto. }
  destruct (rehash_loop_spec 1 (1 * 10) d Hwf Hre ltac:(lia))
    as (r & d' & E & Hwf' & Hty & Hit & Hperm & Hpl & _).
  rewrite E. cbn [bind]. exists d'. split; [reflexivity|].
  destruct (Hpl P0 P1) as [Q0 Q1].
  split; [|repeat split; auto]. unfold dict_ok. rewrite Hty.
  split; [exact Hwf'|]. split; [exact Q0|]. split; [exact Q1|]. split; [|exact Hc].
  eapply NoDup_Permutation_proper; [|exact Hnd]. apply Permutation_map. exact Hperm.
Qed.

(** A new entry at the head of the bucket its key selects. *)
Lemma table_insert (ty : dictType) (t : dictht) k v :
  pow2_table t -> counted t -> placed_in ty t ->
  pow2_table (set_used (store_bucket t (Z.land (hashFunction ty k) (sizemask t))
                (DictEntry k v :: bucket_at t (Z.land (hashFunction ty k) (sizemask t))))
                (used t + 1)) /\
  counted (set_used (store_bucket t (Z.land (hashFunction ty k) (sizemask t))
             (DictEntry k v :: bucket_at t (Z.land (hashFunction ty k) (sizemask t))))
             (used t + 1)) /\
  placed_in ty (set_used (store_bucket t (Z.land (hashFunction ty k) (sizemask t))
                  (DictEntry k v :: bucket_at t (Z.land (hashFunction ty k) (sizemask t))))
                  (used t + 1)) /\
  concat (buckets (store_bucket t (Z.land (hashFunction ty k) (sizemask t))
            (DictEntry k v :: bucket_at t (Z.land (hashFunction ty k) (sizemask t)))))
    ≡ₚ DictEntry k v :: concat (buckets t) /\
  0 <= Z.land (hashFunction ty k) (sizemask t).
Proof.
  intros (j & Hj & Hs & Hm & Hl & Ht) Hc Hp.
  set (i := Z.land (hashFunction ty k) (sizemask t)).
  assert (Hi : 0 <= i < Z.of_nat (length (buckets t))).
  { unfold i. rewrite Hm, Hl. apply mask_index. lia. }
  split; [|split; [|split; [|split]]].
  - exists j. cbn [size sizemask table buckets store_bucket set_buckets set_used].
    rewrite length_insert. auto.
  - unfold counted. cbn [used buckets set_used].
    fold (total (store_bucket t i (DictEntry k v :: bucket_at t i))).
    rewrite store_bucket_total by exact Hi. cbn [length].
    unfold counted in Hc. fold (total t) in Hc. lia.
  - intros x e He.
    change (sizemask (set_used _ _)) with (sizemask t).
    change (bucket_at (set_used ?a ?b) x) with (bucket_at a x) in He.
    destruct (Z.ltb_spec x 0) as [Hneg|Hpos].
    { unfold bucket_at in He. destruct (Z.ltb_spec x 0); [destruct He | lia]. }
    rewrite bucket_at_store in He by lia.
    destruct (Z.eqb_spec x i) as [->|Hne]; [|apply Hp, He].
    destruct He as [<-|He]; [reflexivity | apply Hp, He].
  - unfold store_bucket. cbn [buckets set_buckets].
    apply concat_insert_cons, bucket_at_lookup_Z, Hi.
  - lia.
Qed.

(** [dictAdd] of a key the dict does not hold: the entry is added, on every
    well-formed dict, rehashing or not. *)
Lemma dictAdd_spec (d : dict) k v :
  alloc_ok -> dict_ok d -> dictSize d < 2 ^ 62 ->
  (forall e, In e (dict_entries d) -> key e <> k) ->
  exists d',
    dictAdd d k v = Ret (DICT_OK, d') /\ dict_ok d' /\
    type d' = type d /\ iterators d' = iterators d /\
    dict_entries d' ≡ₚ DictEntry k v :: dict_entries d.
Proof.
  intros Ha Hok Hsz Hfresh. unfold dictAdd, dictAddRaw.
  assert (H1 : exists d1,
             (if dictIsRehashing d then _dictRehashStep d else Ret d) = Ret d1 /\
             dict_ok d1 /\ type d1 = type d /\ iterators d1 = iterators d /\
             dict_entries d1 ≡ₚ dict_entries d).
  { destruct (dictIsRehashing d); [apply _dictRehashStep_ok, Hok|].
    exists d. repeat split; auto; apply Hok. }
  destruct H1 as (d1 & E1 & Hok1 & Hty1 & Hit1 & Hperm1). rewrite E1. cbn [bind].
  assert (Hsz1 : used (ht0 d1) < 2 ^ 62).
  { pose proof (dictSize_entries d1 ltac:(apply Hok1)) as S1.
    pose proof (dictSize_entries d ltac:(apply Hok)) as S0.
    rewrite (Permutation_length Hperm1) in S1.
    destruct Hok1 as ((_ & Hc1 & _) & _). unfold counted in Hc1. unfold dictSize in *. lia. }
  destruct (_dictExpandIfNeeded_ok d1 Ha Hok1 Hsz1)
    as (d2 & E2 & Hok2 & Hty2 & Hit2 & Hent2 & Hp2).
  unfold _dictKeyIndex. rewrite E2. change (DICT_OK =? DICT_ERR) with false. cbv iota.
  assert (Hfresh2 : forall e, In e (dict_entries d2) -> key e <> k).
  { intros e He. apply Hfresh. rewrite Hent2 in He.
    eapply Permutation_in; [exact Hperm1 | exact He]. }
  destruct Hok2 as (Hwf2 & P0 & P1 & Hnd2 & Hc2).
  rewrite (table_miss d2 (ht0 d2) k _ Hc2)
    by (intros e He; apply Hfresh2; unfold dict_entries; apply in_or_app; left; exact He).
  assert (Hh : dictHashKey d1 k = hashFunction (type d2) k)
    by (unfold dictHashKey; rewrite Hty2; reflexivity).
  rewrite Hh.
  destruct (dictIsRehashing d2) eqn:Hre2; cbn [negb].
  - rewrite (table_miss d2 (ht1 d2) k _ Hc2)
      by (intros e He; apply Hfresh2; unfold dict_entries; apply in_or_app; right; exact He).
    rewrite Hre2.
    destruct (wf_rehashing_elim d2 Hwf2 Hre2) as (Hc0 & Hc1 & Hq0 & Hq1 & Hr & He0).
    destruct (table_insert (type d2) (ht1 d2) k v Hq1 Hc1 P1) as (Hq & Hcn & Hpl & Hpm & Hi).
    destruct (Z.eqb_spec (Z.land (hashFunction (type d2) k) (sizemask (ht1 d2))) (-1));
      [lia|].
    cbn [bind]. eexists. split; [reflexivity|].
    cbn [type iterators set_ht1].
    split; [|split; [congruence|split; [congruence|]]].
    + split; [|split; [exact P0|split; [exact Hpl|split; [|exact Hc2]]]].
      * apply wf_rehashing_intro; cbn [ht0 ht1 rehashidx set_ht1]; auto.
      * unfold dict_entries. cbn [ht0 ht1 set_ht1 buckets set_used].
        eapply NoDup_Permutation_proper.
        { apply Permutation_map. rewrite Hpm. symmetry. apply Permutation_middle. }
        cbn [map key]. apply NoDup_cons. split; [|exact Hnd2].
        intros Hin. apply list_elem_of_In, in_map_iff in Hin as (e & Ek & He).
        exact (Hfresh2 e He Ek).
    + unfold dict_entries. cbn [ht0 ht1 set_ht1 buckets set_used].
      rewrite Hpm, <- Permutation_middle.
      apply perm_skip. fold (dict_entries d2). rewrite Hent2. exact Hperm1.
  - rewrite Hre2.
    pose proof Hwf2 as (Hc0 & Hc1 & Hs). rewrite Hre2 in Hs. destruct Hs as [_ E1'].
    destruct (table_insert (type d2) (ht0 d2) k v Hp2 Hc0 P0) as (Hq & Hcn & Hpl & Hpm & Hi).
    destruct (Z.eqb_spec (Z.land (hashFunction (type d2) k) (sizemask (ht0 d2))) (-1));
      [lia|].
    cbn [bind]. eexists. split; [reflexivity|].
    cbn [type iterators set_ht0].
    split; [|split; [congruence|split; [congruence|]]].
    + split; [|split; [exact Hpl|split; [exact P1|split; [|exact Hc2]]]].
      * unfold wf_dict. cbn [ht0 ht1 set_ht0]. split; [exact Hcn|]. split; [exact Hc1|].
        change (dictIsRehashing (set_ht0 d2 _)) with (dictIsRehashing d2). rewrite Hre2.
        split; [left; exact Hq | exact E1'].
      * unfold dict_entries. cbn [ht0 ht1 set_ht0 buckets set_used].
        eapply NoDup_Permutation_proper.
        { apply Permutation_map. rewrite Hpm. reflexivity. }
        cbn [map key app]. apply NoDup_cons. split; [|exact Hnd2].
        intros Hin. apply list_elem_of_In, in_map_iff in Hin as (e & Ek & He).
        exact (Hfresh2 e He Ek).
    + unfold dict_entries. cbn [ht0 ht1 set_ht0 buckets set_used].
      rewrite Hpm. cbn [app].
      apply perm_skip. fold (dict_entries d2). rewrite Hent2. exact Hperm1.
Qed.

(** [dictFind] returns the entry of the key when the dict holds it, and
    NULL when it does not; the rehash step it runs keeps the entries. *)
Lemma dictFind_spec (d : dict) k :
  dict_ok d ->
  exists r d',
    dictFind d k = Ret (r, d') /\ dict_ok d' /\
    type d' = type d /\ iterators d' = iterators d /\
    dict_entries d' ≡ₚ dict_entries d /\
    (forall e, In e (dict_entries d) -> key e = k -> r = Some e) /\
    ((forall e, In e (dict_entries d) -> key e <> k) -> r = None).
Proof.
  intros Hok. unfold dictFind.
  destruct (Z.eqb_spec (used (ht0 d) + used (ht1 d)) 0) as [Hz|Hnz].
  { exists None, d. split; [reflexivity|]. split; [exact Hok|].
    split; [reflexivity|]. split; [reflexivity|]. split; [reflexivity|].
    split; [|reflexivity]. intros e He. exfalso.
    pose proof (dictSize_entries d ltac:(apply Hok)) as S. unfold dictSize in S.
    rewrite Hz in S. destruct (dict_entries d); [destruct He | cbn in S; lia]. }
  assert (H1 : exists d1,
             (if dictIsRehashing d then _dictRehashStep d else Ret d) = Ret d1 /\
             dict_ok d1 /\ type d1 = type d /\ iterators d1 = iterators d /\
             dict_entries d1 ≡ₚ dict_entries d).
  { destruct (dictIsRehashing d); [apply _dictRehashStep_ok, Hok|].
    exists d. repeat split; auto; apply Hok. }
  destruct H1 as (d1 & E1 & Hok1 & Hty1 & Hit1 & Hperm1). rewrite E1. cbn [bind].
  pose proof Hok1 as (Hwf1 & P0 & P1 & Hnd1 & Hc1).
  pose proof Hnd1 as Hnd. unfold dict_entries in Hnd. rewrite map_app in Hnd.
  apply NoDup_app in Hnd as (Hnd0 & _ & Hnd1').
  assert (Hin1 : forall e, In e (dict_entries d) -> In e (dict_entries d1)).
  { intros e He. eapply Permutation_in; [symmetry; exact Hperm1 | exact He]. }
  assert (Hin0 : forall e, In e (dict_entries d1) -> In e (dict_entries d)).
  { intros e He. eapply Permutation_in; [exact Hperm1 | exact He]. }
  destruct (chain_find d1 k (bucket_at (ht0 d1) (Z.land (dictHashKey d1 k) (sizemask (ht0 d1)))))
    as [he|] eqn:Ef.
  - destruct (chain_find_some d1 k _ he Hc1 Ef) as [Hhe Hk].
    assert (Hhe1 : In he (dict_entries d1)).
    { unfold dict_entries. apply in_or_app. left. eapply bucket_at_in, Hhe. }
    exists (Some he), d1. split; [reflexivity|]. split; [exact Hok1|].
    split; [exact Hty1|]. split; [exact Hit1|]. split; [exact Hperm1|]. split.
    + intros e He Ek. f_equal.
      apply (key_inj (dict_entries d1)); auto. congruence.
    + intros Hn. exfalso. exact (Hn he (Hin0 he Hhe1) Hk).
  - destruct (dictIsRehashing d1) eqn:Hre1; cbn [negb].
    + eexists _, d1. split; [reflexivity|]. split; [exact Hok1|].
      split; [exact Hty1|]. split; [exact Hit1|]. split; [exact Hperm1|]. split.
      * intros e He Ek. apply Hin1 in He. unfold dict_entries in He.
        apply in_app_or in He as [He|He].
        -- pose proof (table_hit d1 (ht0 d1) e Hc1 P0 Hnd0 He) as Hhit.
           rewrite Ek, Ef in Hhit. discriminate.
        -- pose proof (table_hit d1 (ht1 d1) e Hc1 P1 Hnd1' He) as Hhit.
           rewrite Ek in Hhit. exact Hhit.
      * intros Hn. apply table_miss; [exact Hc1|].
        intros e He. apply Hn, Hin0. unfold dict_entries. apply in_or_app. right. exact He.
    + exists None, d1. split; [reflexivity|]. split; [exact Hok1|].
      split; [exact Hty1|]. split; [exact Hit1|]. split; [exact Hperm1|].
      split; [|reflexivity].
      intros e He Ek. apply Hin1 in He. unfold dict_entries in He.
      apply in_app_or in He as [He|He].
      * pose proof (table_hit d1 (ht0 d1) e Hc1 P0 Hnd0 He) as Hhit.
        rewrite Ek, Ef in Hhit. discriminate.
      * destruct Hwf1 as (_ & _ & Hs). rewrite Hre1 in Hs. destruct Hs as [_ Er].
        rewrite Er in He. destruct He.
Qed.

Lemma dictCreate_ok (ty : dictType) :
  compare_eq ty -> dict_ok (dictCreate ty) /\ dict_entries (dictCreate ty) = [].
Proof.
  intros Hc. split; [|reflexivity].
  split; [|split; [|split; [|split; [constructor | exact Hc]]]].
  - split; [reflexivity|]. split; [reflexivity|]. cbn. auto.
  - intros i e He. unfold bucket_at in He. cbn in He.
    destruct (i <? 0); [destruct He|]. rewrite lookup_nil in He. destruct He.
  - intros i e He. unfold bucket_at in He. cbn in He.
    destruct (i <? 0); [destruct He|]. rewrite lookup_nil in He. destruct He.
Qed.


End Dict.

Arguments dictEntry : clear implicits.
Arguments dictType : clear implicits.
Arguments dictht : clear implicits.
Arguments dict : clear implicits.
Arguments dictIterator : clear implicits.

(** *** Concrete dicts: small non-negative integer keys, hashed by their
    own value *)

Definition int_type : dictType Z := DictType (fun k : Z => k) Z.eqb.

Definition no_table : dictht Z Z := _dictReset.

(** Four buckets, keys 1, 5 (chained in bucket 1) and 2; not rehashing. *)
Definition small_dict : dict Z Z :=
  MkDict int_type
    (Dictht 4096 [[]; [DictEntry 5 50; DictEntry 1 10]; [DictEntry 2 20]; []] 4 3 3)
    no_table (-1) 0.

(** A rehash from four to eight buckets, started and not yet advanced:
    key 1 waits in bucket 1 of [ht[0]] and key 6 is already in [ht[1]]. *)
Definition rehashing_dict : dict Z Z :=
  MkDict int_type
    (Dictht 4096 [[]; [DictEntry 1 10]; []; []] 4 3 1)
    (Dictht 8192 [[]; []; []; []; []; []; [DictEntry 6 60]; []] 8 7 1)
    0 0.

Lemma small_dict_wf : wf_dict small_dict.
Proof.
  split; [reflexivity|]. split; [reflexivity|]. cbn. split; [|reflexivity].
  left. exists 2. cbn. repeat split; lia.
Qed.

Lemma rehashing_dict_wf : wf_dict rehashing_dict.
Proof.
  split; [reflexivity|]. split; [reflexivity|]. cbn.
  split; [exists 2; cbn; repeat split; lia|].
  split; [exists 3; cbn; repeat split; lia|].
  split; [lia|]. intros i Hi. lia.
Qed.

Example scan_small_dict :
  scan_collect 4 small_dict = Ret [DictEntry 2 20; DictEntry 5 50; DictEntry 1 10].
Proof. vm_compute. reflexivity. Qed.

Example scan_rehashing_dict :
  scan_collect 4 rehashing_dict = Ret [DictEntry 6 60; DictEntry 1 10].
Proof. vm_compute. reflexivity. Qed.


(** Five entries in four buckets, as a dict gets while resizing is
    disabled. *)
Definition crowded_dict : dict Z Z :=
  MkDict int_type
    (Dictht 4096 [[DictEntry 4 40; DictEntry 0 0]; [DictEntry 1 10];
                  [DictEntry 2 20]; [DictEntry 3 30]] 4 3 5)
    no_table (-1) 0.

(** An allocator that hands out one fixed address. *)
Definition fixed_alloc (n : Z) : Z := 8192.

(** C4, counterexample to (b) as stated: a request equal to the number of
    entries is accepted. *)
Lemma dictExpand_size_equal_used_accepted :
  5 <= used (ht0 crowded_dict) /\
  fst (dictExpand fixed_alloc crowded_dict 5) = DICT_OK /\
  size (ht1 (snd (dictExpand fixed_alloc crowded_dict 5))) = 8 /\
  dictIsRehashing (snd (dictExpand fixed_alloc crowded_dict 5)) = true.
Proof.
  split; [cbn; lia|]. repeat split; vm_compute; reflexivity.
Qed.

Lemma dictExpand_failure_model_witness :
  (dictIsRehashing crowded_dict = true \/ 5 < used (ht0 crowded_dict) \/
   _dictNextPower 5 = size (ht0 crowded_dict) ->
   dictExpand fixed_alloc crowded_dict 5 = (DICT_ERR, crowded_dict)) /\
  (dictIsRehashing crowded_dict = false -> used (ht0 crowded_dict) <= 5 ->
   _dictNextPower 5 <> size (ht0 crowded_dict) ->
   dictExpand fixed_alloc crowded_dict 5 =
     (DICT_OK, if table (ht0 crowded_dict) =? 0
               then set_ht0 crowded_dict (new_table fixed_alloc 5)
               else set_rehashidx (set_ht1 crowded_dict (new_table fixed_alloc 5)) 0)) /\
  (exists j, 2 <= j <= 63 /\ size (new_table (K:=Z) (V:=Z) fixed_alloc 5) = 2 ^ j /\
             sizemask (new_table (K:=Z) (V:=Z) fixed_alloc 5) = 2 ^ j - 1 /\
             Z.of_nat (length (buckets (new_table (K:=Z) (V:=Z) fixed_alloc 5))) = 2 ^ j /\
             (5 < LONG_MAX -> 5 <= 2 ^ j /\ (j = 2 \/ 2 ^ (j - 1) < 5))) /\
  used (new_table (K:=Z) (V:=Z) fixed_alloc 5) = 0 /\
  (forall i, bucket_at (new_table (K:=Z) (V:=Z) fixed_alloc 5) i = []).
Proof.
  apply (dictExpand_failure_model fixed_alloc crowded_dict 5). lia.
Defined.



(** Scenario 5 of the specification on [small_dict]: an unsafe iterator
    that was advanced is released without complaint on the untouched dict,
    and the release fails once an entry was added in between. *)
Example unsafe_iterator_fingerprint :
  exists e iter',
    dictNext 8 (dictGetIterator small_dict) small_dict = Ret (Some e, iter', small_dict) /\
    dictReleaseIterator iter' small_dict = Ret small_dict /\
    dictReleaseIterator iter'
      (set_ht0 small_dict (set_used (store_bucket (ht0 small_dict) 0 [DictEntry 4 40]) 4))
    = Panic.
Proof. eexists _, _. split; [reflexivity|]. split; vm_compute; reflexivity. Qed.



Example add_and_find :
  exists d1 d2 d3,
    dictAdd true fixed_alloc (dictCreate int_type) 7 70 = Ret (DICT_OK, d1) /\
    dictAdd true fixed_alloc d1 3 30 = Ret (DICT_OK, d2) /\
    dictAdd true fixed_alloc d2 7 71 = Ret (DICT_ERR, d2) /\
    dictFind d2 7 = Ret (Some (DictEntry 7 70), d3) /\
    buckets (ht0 d2) = [[]; []; []; [DictEntry 3 30; DictEntry 7 70]].
Proof. eexists _, _, _. repeat split. Qed.

(** The fifth key makes the table grow: the insertion goes to [ht[1]], and
    the lookups that follow move the buckets one at a time. *)
Example add_starts_rehash :
  exists d,
    dictAdd true fixed_alloc
      (MkDict int_type
         (Dictht 4096 [[DictEntry 0 0]; [DictEntry 1 10]; [DictEntry 2 20]; [DictEntry 3 30]]
            4 3 4) no_table (-1) 0) 12 120 = Ret (DICT_OK, d) /\
    rehashidx d = 0 /\ size (ht1 d) = 8 /\ bucket_at (ht1 d) 4 = [DictEntry 12 120] /\
    exists d', dictFind d 2 = Ret (Some (DictEntry 2 20), d') /\ rehashidx d' = 1.
Proof. eexists. repeat split. eexists. repeat split. Qed.

(** *** The rest of the API: deletion, replacement, shrinking, iteration *)

Section Api.

Context {K V : Type}.
Variable dict_can_resize : bool.
Variable zcalloc : Z -> Z.

(** The [while(he)] of [dictGenericDelete]: the entry unlinked and what is
    left of the chain. As in [chain_find], a key that is the same pointer
    is a key that compares equal. *)
Fixpoint chain_unlink (d : dict K V) (k : K) (he : list (dictEntry K V))
    : option (dictEntry K V * list (dictEntry K V)) :=
  match he with
  | [] => None
  | e :: next =>
      if dictCompareKeys d k (key e) then Some (e, next)
      else match chain_unlink d k next with
           | Some (x, rest) => Some (x, e :: rest)
           | None => None
           end
  end.

(** [dictGenericDelete]: the entry (or NULL) and the dict. [nofree] says
    whether the entry is released, which changes nothing in the dict. *)
Definition dictGenericDelete (d : dict K V) (k : K) (nofree : bool)
    : outcome (option (dictEntry K V) * dict K V) :=
  if (used (ht0 d) =? 0) && (used (ht1 d) =? 0) then Ret (None, d)
  else
    letM d := (if dictIsRehashing d then _dictRehashStep d else Ret d) in
    let h := dictHashKey d k in
    let idx := Z.land h (sizemask (ht0 d)) in
    match chain_unlink d k (bucket_at (ht0 d) idx) with
    | Some (he, rest) =>
        Ret (Some he,
             set_ht0 d (set_used (store_bucket (ht0 d) idx rest) (used (ht0 d) - 1)))
    | None =>
        if negb (dictIsRehashing d) then Ret (None, d)
        else
          let idx := Z.land h (sizemask (ht1 d)) in
          match chain_unlink d k (bucket_at (ht1 d) idx) with
          | Some (he, rest) =>
              Ret (Some he,
                   set_ht1 d (set_used (store_bucket (ht1 d) idx rest) (used (ht1 d) - 1)))
          | None => Ret (None, d)
          end
    end.

Definition dictDelete (d : dict K V) (k : K) : outcome (Z * dict K V) :=
  letM '(he, d) := dictGenericDelete d k false in
  Ret (match he with Some _ => DICT_OK | None => DICT_ERR end, d).

Definition dictUnlink (d : dict K V) (k : K)
    : outcome (option (dictEntry K V) * dict K V) :=
  dictGenericDelete d k true.

(** [dictReplace]: 1 when the key was added, 0 when its value was
    overwritten. With no new entry and no existing one the source reads
    through a NULL pointer. *)
Definition dictReplace (d : dict K V) (k : K) (v : V) : outcome (Z * dict K V) :=
  letM '(created, existing, d) := dictAddRaw dict_can_resize zcalloc d k v in
  if created : bool then Ret (1, d)
  else match existing with
       | Some _ => Ret (0, set_entry_val d k v)
       | None => Panic
       end.

(** [dictFetchValue]: the value (or NULL) and the dict. *)
Definition dictFetchValue (d : dict K V) (k : K) : outcome (option V * dict K V) :=
  letM '(he, d) := dictFind d k in
  Ret (match he with Some he => Some (val he) | None => None end, d).

(** [int] from [unsigned long], and back. *)
Definition to_int (x : Z) : Z := (x + 2 ^ 31) mod 2 ^ 32 - 2 ^ 31.

(** [dictResize]: [minimal] is an [int]. *)
Definition dictResize (d : dict K V) : Z * dict K V :=
  if negb dict_can_resize || dictIsRehashing d then (DICT_ERR, d)
  else
    let minimal := to_int (used (ht0 d)) in
    let minimal := if minimal <? DICT_HT_INITIAL_SIZE then DICT_HT_INITIAL_SIZE
                   else minimal in
    dictExpand zcalloc d (wrap64 minimal).

(** [while((de = dictNext(iter)) != NULL)]: the entries returned, in
    order, and the iterator and dict when NULL comes. *)
Fixpoint dict_iterate (fuel : nat) (iter : dictIterator K V) (d : dict K V)
    (acc : list (dictEntry K V))
    : outcome (list (dictEntry K V) * dictIterator K V * dict K V) :=
  match fuel with
  | O => NoFuel
  | S fuel' =>
      letM '(de, iter, d) := dictNext fuel iter d in
      match de with
      | None => Ret (acc, iter, d)
      | Some e => dict_iterate fuel' iter d (acc ++ [e])
      end
  end.

(** **** Deletion *)

Lemma chain_unlink_some (d : dict K V) k (c : list (dictEntry K V)) e rest :
  compare_eq (type d) -> chain_unlink d k c = Some (e, rest) ->
  key e = k /\ c ≡ₚ e :: rest /\ (forall x, In x rest -> In x c).
Proof.
  intros Hc. revert e rest. induction c as [|x c IH]; intros e rest; cbn [chain_unlink];
    [discriminate|].
  unfold dictCompareKeys. destruct (keyCompare (type d) k (key x)) eqn:E.
  - intros [= <- <-]. split; [symmetry; apply Hc, E|]. split; [reflexivity|].
    intros y Hy. right. exact Hy.
  - destruct (chain_unlink d k c) as [[y r]|] eqn:Eu; [|discriminate].
    intros [= <- <-]. destruct (IH y r eq_refl) as (Hk & Hp & Hin).
    split; [exact Hk|]. split.
    + rewrite Hp. apply perm_swap.
    + intros z [->|Hz]; [left; reflexivity | right; apply Hin, Hz].
Qed.

Lemma chain_unlink_none (d : dict K V) k (c : list (dictEntry K V)) :
  compare_eq (type d) ->
  (chain_unlink d k c = None <-> forall e, In e c -> key e <> k).
Proof.
  intros Hc. induction c as [|x c IH]; cbn [chain_unlink].
  - split; [intros _ e [] | reflexivity].
  - unfold dictCompareKeys. destruct (keyCompare (type d) k (key x)) eqn:E.
    + split; [discriminate|]. intros H. exfalso. apply (H x); [left; reflexivity|].
      symmetry. apply Hc, E.
    + destruct (chain_unlink d k c) as [[y r]|] eqn:Eu.
      * split; [discriminate|]. intros H. exfalso.
        assert (Hn : forall e, In e c -> key e <> k) by (intros e He; apply H; right; exact He).
        apply IH in Hn. discriminate.
      * split; [|reflexivity]. intros _ e [<-|He].
        -- intros Hk. assert (keyCompare (type d) k (key x) = true) by (apply Hc; congruence).
           congruence.
        -- apply (proj1 IH eq_refl e He).
Qed.

(** An entry unlinked from the bucket its key selects. *)
Lemma table_remove (ty : dictType K) (t : dictht K V) i e rest :
  pow2_table t -> counted t -> placed_in ty t ->
  0 <= i < size t -> bucket_at t i ≡ₚ e :: rest ->
  (forall x, In x rest -> In x (bucket_at t i)) ->
  pow2_table (set_used (store_bucket t i rest) (used t - 1)) /\
  counted (set_used (store_bucket t i rest) (used t - 1)) /\
  placed_in ty (set_used (store_bucket t i rest) (used t - 1)) /\
  concat (buckets t) ≡ₚ e :: concat (buckets (store_bucket t i rest)) /\
  (forall j, bucket_at t j = [] -> bucket_at (store_bucket t i rest) j = []).
Proof.
  intros (j & Hj & Hs & Hm & Hl & Ht) Hc Hp Hi Hperm Hsub.
  assert (Hi' : 0 <= i < Z.of_nat (length (buckets t))) by lia.
  pose proof (bucket_at_lookup_Z t i Hi') as Hlk.
  split; [|split; [|split; [|split]]].
  - exists j. cbn [size sizemask table buckets store_bucket set_buckets set_used].
    rewrite length_insert. auto.
  - unfold counted. cbn [used buckets set_used].
    fold (total (store_bucket t i rest)). rewrite store_bucket_total by exact Hi'.
    unfold counted in Hc. fold (total t) in Hc.
    rewrite (Permutation_length Hperm). cbn [length]. lia.
  - intros x y Hy.
    change (sizemask (set_used _ _)) with (sizemask t).
    change (bucket_at (set_used ?a ?b) x) with (bucket_at a x) in Hy.
    destruct (Z.ltb_spec x 0) as [Hneg|Hpos].
    { unfold bucket_at in Hy. destruct (Z.ltb_spec x 0); [destruct Hy | lia]. }
    rewrite bucket_at_store in Hy by lia.
    destruct (Z.eqb_spec x i) as [->|Hne]; [apply Hp, Hsub, Hy | apply Hp, Hy].
  - unfold store_bucket. cbn [buckets set_buckets].
    apply (Permutation_app_inv_l rest).
    rewrite <- (concat_insert_perm _ _ _ rest Hlk), Hperm. cbn [app].
    apply Permutation_middle.
  - intros x Hx. destruct (Z.ltb_spec x 0) as [Hneg|Hpos].
    { unfold bucket_at. destruct (Z.ltb_spec x 0); [reflexivity | lia]. }
    rewrite bucket_at_store by lia. destruct (Z.eqb_spec x i) as [->|]; [|exact Hx].
    rewrite Hx in Hperm. apply Permutation_nil in Hperm. discriminate.
Qed.

Lemma table_no_key (d : dict K V) (t : dictht K V) k :
  compare_eq (type d) -> placed_in (type d) t ->
  chain_unlink d k (bucket_at t (Z.land (dictHashKey d k) (sizemask t))) = None ->
  forall e, In e (concat (buckets t)) -> key e <> k.
Proof.
  intros Hc Hp Hn e He Hk. apply in_concat_bucket in He as (i & Hi & He).
  pose proof (Hp i e He) as Hpl. rewrite Hk in Hpl. unfold dictHashKey in Hn.
  rewrite Hpl in Hn. exact (proj1 (chain_unlink_none d k _ Hc) Hn e He Hk).
Qed.

Lemma step_if_rehashing (d : dict K V) :
  dict_ok d ->
  exists d1,
    (if dictIsRehashing d then _dictRehashStep d else Ret d) = Ret d1 /\
    dict_ok d1 /\ type d1 = type d /\ iterators d1 = iterators d /\
    dict_entries d1 ≡ₚ dict_entries d.
Proof.
  intros Hok. destruct (dictIsRehashing d); [apply _dictRehashStep_ok, Hok|].
  exists d. repeat split; auto; apply Hok.
Qed.

(** [dictGenericDelete] unlinks the entry of the key when there is one and
    leaves everything else. *)
Lemma dictGenericDelete_spec (d : dict K V) k nofree :
  dict_ok d ->
  exists r d',
    dictGenericDelete d k nofree = Ret (r, d') /\ dict_ok d' /\
    type d' = type d /\ iterators d' = iterators d /\
    match r with
    | None => (forall e, In e (dict_entries d) -> key e <> k) /\
              dict_entries d' ≡ₚ dict_entries d
    | Some e => key e = k /\ dict_entries d ≡ₚ e :: dict_entries d'
    end.
Proof.
  intros Hok. unfold dictGenericDelete.
  destruct ((used (ht0 d) =? 0) && (used (ht1 d) =? 0)) eqn:Hz.
  { exists None, d. split; [reflexivity|]. split; [exact Hok|].
    split; [reflexivity|]. split; [reflexivity|]. split; [|reflexivity].
    apply andb_true_iff in Hz as [H0 H1]. apply Z.eqb_eq in H0, H1.
    pose proof (dictSize_entries d ltac:(apply Hok)) as S. unfold dictSize in S.
    intros e He. destruct (dict_entries d); [destruct He | cbn in S; lia]. }
  destruct (step_if_rehashing d Hok) as (d1 & E1 & Hok1 & Hty1 & Hit1 & Hperm1).
  rewrite E1. cbn [bind].
  pose proof Hok1 as (Hwf1 & P0 & P1 & Hnd1 & Hc1).
  assert (Hnd' : forall e l, dict_entries d1 ≡ₚ e :: l -> NoDup (map key l)).
  { intros e l Hp. apply (Permutation_map key) in Hp. rewrite Hp in Hnd1.
    cbn [map] in Hnd1. apply NoDup_cons in Hnd1. apply Hnd1. }
  destruct (chain_unlink d1 k (bucket_at (ht0 d1) (Z.land (dictHashKey d1 k) (sizemask (ht0 d1)))))
    as [[he rest]|] eqn:Eu.
  - destruct (chain_unlink_some d1 k _ he rest Hc1 Eu) as (Hk & Hp & Hsub).
    assert (Hpow : pow2_table (ht0 d1)).
    { destruct (dictIsRehashing d1) eqn:Hre.
      - apply (wf_rehashing_elim d1 Hwf1 Hre).
      - destruct Hwf1 as (_ & _ & Hs). rewrite Hre in Hs. destruct Hs as [[Hq|Er] _]; [exact Hq|].
        rewrite Er in Hp. unfold bucket_at in Hp. cbn in Hp.
        destruct (_ <? 0); [|rewrite lookup_nil in Hp]; apply Permutation_nil in Hp;
          discriminate. }
    assert (Hidx : 0 <= Z.land (dictHashKey d1 k) (sizemask (ht0 d1)) < size (ht0 d1)).
    { destruct Hpow as (j & Hj & Hs & Hm & _). rewrite Hm, Hs. apply mask_index. lia. }
    destruct Hwf1 as (Hc0 & Hc1' & Hs).
    destruct (table_remove (type d1) (ht0 d1) _ he rest Hpow Hc0 P0 Hidx Hp Hsub)
      as (Hq & Hcn & Hpl & Hpm & Hemp).
    assert (Hent : dict_entries d1 ≡ₚ
              he :: dict_entries (set_ht0 d1 (set_used (store_bucket (ht0 d1)
                      (Z.land (dictHashKey d1 k) (sizemask (ht0 d1))) rest)
                      (used (ht0 d1) - 1)))).
    { unfold dict_entries. cbn [ht0 ht1 set_ht0 buckets set_used]. rewrite Hpm. reflexivity. }
    eexists (Some he), _. split; [reflexivity|]. cbn [type iterators set_ht0].
    split; [|split; [exact Hty1|split; [exact Hit1|split; [exact Hk|]]]].
    + split; [|split; [exact Hpl|split; [exact P1|split; [|exact Hc1]]]].
      * unfold wf_dict. cbn [ht0 ht1 set_ht0]. split; [exact Hcn|]. split; [exact Hc1'|].
        change (dictIsRehashing (set_ht0 d1 _)) with (dictIsRehashing d1).
        destruct (dictIsRehashing d1).
        -- destruct Hs as (_ & Hq1 & Hr & He). split; [exact Hq|]. split; [exact Hq1|].
           split; [exact Hr|]. intros i Hi.
           change (bucket_at (set_used ?a ?b) i) with (bucket_at a i). apply Hemp, He, Hi.
        -- split; [left; exact Hq | apply Hs].
      * apply (Hnd' he), Hent.
    + rewrite <- Hperm1. exact Hent.
  - pose proof (table_no_key d1 (ht0 d1) k Hc1 P0 Eu) as Hno0.
    destruct (dictIsRehashing d1) eqn:Hre; cbn [negb].
    2:{ exists None, d1. split; [reflexivity|]. split; [exact Hok1|].
        split; [exact Hty1|]. split; [exact Hit1|]. split; [|exact Hperm1].
        intros e He. apply (Permutation_in _ (Permutation_sym Hperm1)) in He.
        unfold dict_entries in He. apply in_app_or in He as [He|He]; [apply Hno0, He|].
        destruct Hwf1 as (_ & _ & Hs). rewrite Hre in Hs. destruct Hs as [_ Er].
        rewrite Er in He. destruct He. }
    destruct (chain_unlink d1 k (bucket_at (ht1 d1) (Z.land (dictHashKey d1 k) (sizemask (ht1 d1)))))
      as [[he rest]|] eqn:Eu1.
    + destruct (chain_unlink_some d1 k _ he rest Hc1 Eu1) as (Hk & Hp & Hsub).
      destruct (wf_rehashing_elim d1 Hwf1 Hre) as (Hc0 & Hc1' & Hq0 & Hq1 & Hr & He).
      assert (Hidx : 0 <= Z.land (dictHashKey d1 k) (sizemask (ht1 d1)) < size (ht1 d1)).
      { destruct Hq1 as (j & Hj & Hs & Hm & _). rewrite Hm, Hs. apply mask_index. lia. }
      destruct (table_remove (type d1) (ht1 d1) _ he rest Hq1 Hc1' P1 Hidx Hp Hsub)
        as (Hq & Hcn & Hpl & Hpm & Hemp).
      assert (Hent : dict_entries d1 ≡ₚ
                he :: dict_entries (set_ht1 d1 (set_used (store_bucket (ht1 d1)
                        (Z.land (dictHashKey d1 k) (sizemask (ht1 d1))) rest)
                        (used (ht1 d1) - 1)))).
      { unfold dict_entries. cbn [ht0 ht1 set_ht1 buckets set_used]. rewrite Hpm.
        symmetry. apply Permutation_middle. }
      eexists (Some he), _. split; [reflexivity|]. cbn [type iterators set_ht1].
      split; [|split; [exact Hty1|split; [exact Hit1|split; [exact Hk|]]]].
      * split; [|split; [exact P0|split; [exact Hpl|split; [|exact Hc1]]]].
        -- apply wf_rehashing_intro; cbn [ht0 ht1 rehashidx set_ht1]; auto.
        -- apply (Hnd' he), Hent.
      * rewrite <- Hperm1. exact Hent.
    + pose proof (table_no_key d1 (ht1 d1) k Hc1 P1 Eu1) as Hno1.
      exists None, d1. split; [reflexivity|]. split; [exact Hok1|].
      split; [exact Hty1|]. split; [exact Hit1|]. split; [|exact Hperm1].
      intros e He. apply (Permutation_in _ (Permutation_sym Hperm1)) in He.
      unfold dict_entries in He. apply in_app_or in He as [He|He]; auto.
Qed.

(** **** Insertion of a key that is there, and replacement *)

Lemma chain_set_val_spec (d : dict K V) k v (c : list (dictEntry K V)) e :
  chain_find d k c = Some e ->
  exists pre post, c = pre ++ e :: post /\
                   chain_set_val d k v c = pre ++ DictEntry (key e) v :: post.
Proof.
  induction c as [|x c IH]; cbn [chain_find chain_set_val]; [discriminate|].
  destruct (dictCompareKeys d k (key x)).
  - intros [= <-]. exists [], c. split; reflexivity.
  - intros H. destruct (IH H) as (pre & post & -> & ->).
    exists (x :: pre), post. split; reflexivity.
Qed.

Lemma table_set_val (ty : dictType K) (t : dictht K V) i e pre post v :
  pow2_table t -> counted t -> placed_in ty t ->
  0 <= i < size t -> bucket_at t i = pre ++ e :: post ->
  pow2_table (store_bucket t i (pre ++ DictEntry (key e) v :: post)) /\
  counted (store_bucket t i (pre ++ DictEntry (key e) v :: post)) /\
  placed_in ty (store_bucket t i (pre ++ DictEntry (key e) v :: post)) /\
  (exists l, concat (buckets t) ≡ₚ e :: l /\
             concat (buckets (store_bucket t i (pre ++ DictEntry (key e) v :: post)))
               ≡ₚ DictEntry (key e) v :: l) /\
  (forall j, bucket_at t j = [] ->
             bucket_at (store_bucket t i (pre ++ DictEntry (key e) v :: post)) j = []).
Proof.
  intros (j & Hj & Hs & Hm & Hl & Ht) Hc Hp Hi Hb.
  assert (Hi' : 0 <= i < Z.of_nat (length (buckets t))) by lia.
  pose proof (bucket_at_lookup_Z t i Hi') as Hlk. rewrite Hb in Hlk.
  split; [|split; [|split; [|split]]].
  - exists j. cbn [size sizemask table buckets store_bucket set_buckets].
    rewrite length_insert. auto.
  - unfold counted. cbn [used store_bucket set_buckets].
    fold (total (store_bucket t i (pre ++ DictEntry (key e) v :: post))).
    rewrite store_bucket_total by exact Hi'. rewrite Hb.
    unfold counted in Hc. fold (total t) in Hc. rewrite !length_app. cbn [length]. lia.
  - intros x y Hy. change (sizemask (store_bucket _ _ _)) with (sizemask t).
    destruct (Z.ltb_spec x 0) as [Hneg|Hpos].
    { unfold bucket_at in Hy. destruct (Z.ltb_spec x 0); [destruct Hy | lia]. }
    rewrite bucket_at_store in Hy by lia.
    destruct (Z.eqb_spec x i) as [->|Hne]; [|apply Hp, Hy].
    apply in_app_or in Hy as [Hy|[<-|Hy]].
    + apply Hp. rewrite Hb. apply in_or_app. left. exact Hy.
    + cbn [key]. apply Hp. rewrite Hb. apply in_or_app. right. left. reflexivity.
    + apply Hp. rewrite Hb. apply in_or_app. right. right. exact Hy.
  - exists (concat (take (Z.to_nat i) (buckets t)) ++ pre ++ post ++
            concat (drop (S (Z.to_nat i)) (buckets t))).
    unfold store_bucket. cbn [buckets set_buckets].
    rewrite insert_take_drop by lia.
    rewrite <- (take_drop_middle (buckets t) (Z.to_nat i) _ Hlk) at 1.
    rewrite !concat_app. cbn [concat]. rewrite <- !app_assoc. cbn [app].
    split.
    + rewrite (app_assoc _ pre). rewrite <- Permutation_middle.
      rewrite <- app_assoc. reflexivity.
    + rewrite (app_assoc _ pre). rewrite <- Permutation_middle.
      rewrite <- app_assoc. reflexivity.
  - intros x Hx. destruct (Z.ltb_spec x 0) as [Hneg|Hpos].
    { unfold bucket_at. destruct (Z.ltb_spec x 0); [reflexivity | lia]. }
    rewrite bucket_at_store by lia. destruct (Z.eqb_spec x i) as [->|]; [|exact Hx].
    rewrite Hx in Hb. destruct pre; discriminate.
Qed.

(** Writing the value of the entry of a key that the dict holds. *)
Lemma set_entry_val_spec (d : dict K V) k v e :
  dict_ok d -> In e (dict_entries d) -> key e = k ->
  dict_ok (set_entry_val d k v) /\
  type (set_entry_val d k v) = type d /\
  iterators (set_entry_val d k v) = iterators d /\
  exists l, dict_entries d ≡ₚ e :: l /\
            dict_entries (set_entry_val d k v) ≡ₚ DictEntry k v :: l.
Proof.
  intros Hok Hin Hk. pose proof Hok as (Hwf & P0 & P1 & Hnd & Hc).
  pose proof Hnd as Hnd2. unfold dict_entries in Hnd2. rewrite map_app in Hnd2.
  apply NoDup_app in Hnd2 as (Hnd0 & _ & Hnd1).
  assert (Hkeys : forall e' l l', dict_entries d ≡ₚ e' :: l -> key e' = k ->
            l' ≡ₚ DictEntry k v :: l -> NoDup (map key l')).
  { intros e' l l' Hp Hk' Hp'. apply (Permutation_map key) in Hp, Hp'.
    rewrite Hp in Hnd. rewrite Hp'. cbn [map key] in *. rewrite Hk' in Hnd. exact Hnd. }
  unfold set_entry_val.
  destruct (chain_find d k (bucket_at (ht0 d) (Z.land (dictHashKey d k) (sizemask (ht0 d)))))
    as [he|] eqn:Ef.
  - destruct (chain_find_some d k _ he Hc Ef) as [Hhe Hkh].
    assert (Ehe : he = e).
    { apply (key_inj (dict_entries d)); [exact Hnd| |exact Hin|congruence].
      unfold dict_entries. apply in_or_app. left. eapply bucket_at_in, Hhe. }
    subst he.
    destruct (chain_set_val_spec d k v _ e Ef) as (pre & post & Eb & Es). rewrite Es, Hk.
    assert (Hpow : pow2_table (ht0 d)).
    { destruct (dictIsRehashing d) eqn:Hre.
      - apply (wf_rehashing_elim d Hwf Hre).
      - destruct Hwf as (_ & _ & Hs). rewrite Hre in Hs. destruct Hs as [[Hq|Er] _]; [exact Hq|].
        rewrite Er in Eb. unfold bucket_at in Eb. cbn in Eb.
        destruct (_ <? 0); [|rewrite lookup_nil in Eb]; destruct pre; discriminate. }
    assert (Hidx : 0 <= Z.land (dictHashKey d k) (sizemask (ht0 d)) < size (ht0 d)).
    { destruct Hpow as (j & Hj & Hs & Hm & _). rewrite Hm, Hs. apply mask_index. lia. }
    destruct Hwf as (Hc0 & Hc1 & Hs).
    destruct (table_set_val (type d) (ht0 d) _ e pre post v Hpow Hc0 P0 Hidx Eb)
      as (Hq & Hcn & Hpl & (l & Hl & Hl') & Hemp).
    rewrite Hkh in Hq, Hcn, Hpl, Hl', Hemp.
    assert (Hent : dict_entries d ≡ₚ e :: (l ++ concat (buckets (ht1 d))) /\
                   dict_entries (set_ht0 d (store_bucket (ht0 d)
                     (Z.land (dictHashKey d k) (sizemask (ht0 d)))
                     (pre ++ DictEntry k v :: post))) ≡ₚ
                   DictEntry k v :: (l ++ concat (buckets (ht1 d)))).
    { unfold dict_entries. cbn [ht0 ht1 set_ht0]. rewrite Hl, Hl'. split; reflexivity. }
    destruct Hent as [He He'].
    cbn [type iterators set_ht0].
    split; [|split; [reflexivity|split; [reflexivity|eexists; split; [exact He | exact He']]]].
    split; [|split; [exact Hpl|split; [exact P1|split; [|exact Hc]]]].
    + unfold wf_dict. cbn [ht0 ht1 set_ht0]. split; [exact Hcn|]. split; [exact Hc1|].
      change (dictIsRehashing (set_ht0 d _)) with (dictIsRehashing d).
      destruct (dictIsRehashing d).
      * destruct Hs as (_ & Hq1 & Hr & Hempty). split; [exact Hq|]. split; [exact Hq1|].
        split; [exact Hr|]. intros i Hi. apply Hemp, Hempty, Hi.
      * split; [left; exact Hq | apply Hs].
    + exact (Hkeys e _ _ He Hkh He').
  - assert (Hin1 : In e (concat (buckets (ht1 d)))).
    { unfold dict_entries in Hin. apply in_app_or in Hin as [Hin|Hin]; [|exact Hin].
      pose proof (table_hit d (ht0 d) e Hc P0 Hnd0 Hin) as Hhit.
      rewrite Hk, Ef in Hhit. discriminate. }
    assert (Hre : dictIsRehashing d = true).
    { destruct (dictIsRehashing d) eqn:Hre; [reflexivity|].
      destruct Hwf as (_ & _ & Hs). rewrite Hre in Hs. destruct Hs as [_ Er].
      rewrite Er in Hin1. destruct Hin1. }
    pose proof (table_hit d (ht1 d) e Hc P1 Hnd1 Hin1) as Ef1. rewrite Hk in Ef1.
    destruct (chain_set_val_spec d k v _ e Ef1) as (pre & post & Eb & Es). rewrite Es, Hk.
    destruct (wf_rehashing_elim d Hwf Hre) as (Hc0 & Hc1 & Hq0 & Hq1 & Hr & Hempty).
    assert (Hidx : 0 <= Z.land (dictHashKey d k) (sizemask (ht1 d)) < size (ht1 d)).
    { destruct Hq1 as (j & Hj & Hs & Hm & _). rewrite Hm, Hs. apply mask_index. lia. }
    destruct (table_set_val (type d) (ht1 d) _ e pre post v Hq1 Hc1 P1 Hidx Eb)
      as (Hq & Hcn & Hpl & (l & Hl & Hl') & Hemp).
    rewrite Hk in Hq, Hcn, Hpl, Hl', Hemp.
    assert (Hent : dict_entries d ≡ₚ e :: (concat (buckets (ht0 d)) ++ l) /\
                   dict_entries (set_ht1 d (store_bucket (ht1 d)
                     (Z.land (dictHashKey d k) (sizemask (ht1 d)))
                     (pre ++ DictEntry k v :: post))) ≡ₚ
                   DictEntry k v :: (concat (buckets (ht0 d)) ++ l)).
    { unfold dict_entries. cbn [ht0 ht1 set_ht1]. rewrite Hl, Hl'.
      split; symmetry; apply Permutation_middle. }
    destruct Hent as [He He'].
    cbn [type iterators set_ht1].
    split; [|split; [reflexivity|split; [reflexivity|eexists; split; [exact He | exact He']]]].
    split; [|split; [exact P0|split; [exact Hpl|split; [|exact Hc]]]].
    + apply wf_rehashing_intro; cbn [ht0 ht1 rehashidx set_ht1]; auto.
    + exact (Hkeys e _ _ He Hk He').
Qed.

Lemma key_decide (d : dict K V) k (l : list (dictEntry K V)) :
  compare_eq (type d) ->
  (exists e, In e l /\ key e = k) \/ (forall e, In e l -> key e <> k).
Proof.
  intros Hc. destruct (existsb (fun e => keyCompare (type d) k (key e)) l) eqn:E.
  - left. apply existsb_exists in E as (e & He & Hk). exists e. split; [exact He|].
    symmetry. apply Hc, Hk.
  - right. intros e He Hk.
    assert (Ht : existsb (fun e => keyCompare (type d) k (key e)) l = true).
    { apply existsb_exists. exists e. split; [exact He|]. apply Hc. congruence. }
    congruence.
Qed.

Lemma dictAddRaw_existing (d : dict K V) k v e :
  alloc_ok zcalloc -> dict_ok d -> dictSize d < 2 ^ 62 ->
  In e (dict_entries d) -> key e = k ->
  exists d',
    dictAddRaw dict_can_resize zcalloc d k v = Ret (false, Some e, d') /\ dict_ok d' /\
    type d' = type d /\ iterators d' = iterators d /\
    dict_entries d' ≡ₚ dict_entries d.
Proof.
  intros Ha Hok Hsz Hin Hk. unfold dictAddRaw.
  destruct (step_if_rehashing d Hok) as (d1 & E1 & Hok1 & Hty1 & Hit1 & Hperm1).
  rewrite E1. cbn [bind].
  assert (Hsz1 : used (ht0 d1) < 2 ^ 62).
  { pose proof (dictSize_entries d1 ltac:(apply Hok1)) as S1.
    pose proof (dictSize_entries d ltac:(apply Hok)) as S0.
    rewrite (Permutation_length Hperm1) in S1.
    destruct Hok1 as ((_ & Hc1 & _) & _). unfold counted in Hc1. unfold dictSize in *. lia. }
  destruct (_dictExpandIfNeeded_ok dict_can_resize zcalloc d1 Ha Hok1 Hsz1)
    as (d2 & E2 & Hok2 & Hty2 & Hit2 & Hent2 & Hp2).
  unfold _dictKeyIndex. rewrite E2. change (DICT_OK =? DICT_ERR) with false. cbv iota.
  assert (Hin2 : In e (dict_entries d2)).
  { rewrite Hent2. eapply Permutation_in; [symmetry; exact Hperm1 | exact Hin]. }
  pose proof Hok2 as (Hwf2 & P0 & P1 & Hnd2 & Hc2).
  pose proof Hnd2 as Hnd. unfold dict_entries in Hnd. rewrite map_app in Hnd.
  apply NoDup_app in Hnd as (Hnd0 & _ & Hnd1).
  assert (Hh : dictHashKey d1 k = dictHashKey d2 k)
    by (unfold dictHashKey; rewrite Hty2; reflexivity).
  rewrite Hh.
  assert (Hres : exists he,
            match chain_find d2 k (bucket_at (ht0 d2) (Z.land (dictHashKey d2 k) (sizemask (ht0 d2)))) with
            | Some he => (-1, Some he, d2)
            | None =>
                if negb (dictIsRehashing d2) then
                  (Z.land (dictHashKey d2 k) (sizemask (ht0 d2)), None, d2)
                else
                  match chain_find d2 k (bucket_at (ht1 d2) (Z.land (dictHashKey d2 k) (sizemask (ht1 d2)))) with
                  | Some he => (-1, Some he, d2)
                  | None => (Z.land (dictHashKey d2 k) (sizemask (ht1 d2)), None, d2)
                  end
            end = (-1, Some he, d2) /\ he = e).
  { unfold dict_entries in Hin2. apply in_app_or in Hin2 as [Hin0|Hin1].
    - pose proof (table_hit d2 (ht0 d2) e Hc2 P0 Hnd0 Hin0) as Hhit. rewrite Hk in Hhit.
      rewrite Hhit. exists e. split; reflexivity.
    - destruct (chain_find d2 k (bucket_at (ht0 d2) _)) as [he|] eqn:Ef.
      + destruct (chain_find_some d2 k _ he Hc2 Ef) as [Hhe Hkh].
        exists he. split; [reflexivity|].
        apply (key_inj (dict_entries d2)); [exact Hnd2| | |congruence];
          unfold dict_entries; apply in_or_app;
          [left; eapply bucket_at_in, Hhe | right; exact Hin1].
      + destruct (dictIsRehashing d2) eqn:Hre; cbn [negb].
        * pose proof (table_hit d2 (ht1 d2) e Hc2 P1 Hnd1 Hin1) as Hhit. rewrite Hk in Hhit.
          rewrite Hhit. exists e. split; reflexivity.
        * exfalso. destruct Hwf2 as (_ & _ & Hs). rewrite Hre in Hs. destruct Hs as [_ Er].
          rewrite Er in Hin1. destruct Hin1. }
  destruct Hres as (he & -> & ->). change (-1 =? -1) with true. cbv iota.
  exists d2. split; [reflexivity|]. split; [exact Hok2|].
  split; [congruence|]. split; [congruence|]. rewrite Hent2. exact Hperm1.
Qed.

Lemma dictFetchValue_of (d : dict K V) k r d' :
  dictFind d k = Ret (r, d') ->
  dictFetchValue d k = Ret (match r with Some e => Some (val e) | None => None end, d').
Proof. intros E. unfold dictFetchValue. rewrite E. reflexivity. Qed.

(** Lookup of a key in a dict whose entries are known. *)
Lemma fetch_in (d : dict K V) k v :
  dict_ok d -> In (DictEntry k v) (dict_entries d) ->
  exists d', dictFetchValue d k = Ret (Some v, d').
Proof.
  intros Hok Hin.
  destruct (dictFind_spec d k Hok) as (r & d' & E & _ & _ & _ & _ & Hhit & _).
  rewrite (Hhit _ Hin eq_refl) in E. exists d'.
  rewrite (dictFetchValue_of d k _ _ E). reflexivity.
Qed.

(** **** What the operations do to the entries *)

(** X6. [dictFind] on any well-formed dict, rehashing or not: it returns the
    entry of the key when the dict holds one and NULL when it holds none,
    and [dictFetchValue] the value of that entry; the step of rehashing
    they run keeps the entries. *)
Theorem dictFind_finds_key (d : dict K V) (k : K) :
  dict_ok d ->
  exists r d',
    dictFind d k = Ret (r, d') /\
    dictFetchValue d k =
      Ret (match r with Some e => Some (val e) | None => None end, d') /\
    dict_ok d' /\ dict_entries d' ≡ₚ dict_entries d /\
    match r with
    | Some e => In e (dict_entries d) /\ key e = k
    | None => forall e, In e (dict_entries d) -> key e <> k
    end.
Proof.
  intros Hok.
  destruct (dictFind_spec d k Hok) as (r & d' & E & Hok' & _ & _ & Hent & Hhit & Hmiss).
  exists r, d'. split; [exact E|]. split; [apply dictFetchValue_of, E|].
  split; [exact Hok'|]. split; [exact Hent|].
  destruct (key_decide d k (dict_entries d) ltac:(apply Hok)) as [(e & He & Hk)|Hno].
  - rewrite (Hhit e He Hk). auto.
  - rewrite (Hmiss Hno). exact Hno.
Qed.

(** X7. [dictAdd] adds the pair when the key is new and refuses when the key
    is there: it returns DICT_OK and the entries are the old ones and the
    new one, or it returns DICT_ERR and the entries are the old ones, the
    value of the key untouched. Either way the dict stays well-formed
    (the call may have grown the table or moved a bucket), and a lookup of
    the key that follows gives the value the dict now has for it. *)
Theorem dictAdd_adds_or_refuses (d : dict K V) (k : K) (v : V) :
  alloc_ok zcalloc -> dict_ok d -> dictSize d < 2 ^ 62 ->
  exists st d',
    dictAdd dict_can_resize zcalloc d k v = Ret (st, d') /\ dict_ok d' /\
    ((st = DICT_OK /\ (forall e, In e (dict_entries d) -> key e <> k) /\
      dict_entries d' ≡ₚ DictEntry k v :: dict_entries d /\
      exists d'', dictFetchValue d' k = Ret (Some v, d'')) \/
     (st = DICT_ERR /\ dict_entries d' ≡ₚ dict_entries d /\
      exists e d'', In e (dict_entries d) /\ key e = k /\
                    dictFetchValue d' k = Ret (Some (val e), d''))).
Proof.
  intros Ha Hok Hsz.
  destruct (key_decide d k (dict_entries d) ltac:(apply Hok)) as [(e & He & Hk)|Hno].
  - destruct (dictAddRaw_existing d k v e Ha Hok Hsz He Hk)
      as (d' & E & Hok' & _ & _ & Hent).
    exists DICT_ERR, d'. unfold dictAdd. rewrite E. cbn [bind].
    split; [reflexivity|]. split; [exact Hok'|]. right.
    split; [reflexivity|]. split; [exact Hent|].
    destruct (fetch_in d' k (val e) Hok') as (d'' & Ef).
    { apply (Permutation_in _ (Permutation_sym Hent)). destruct e as [ke ve].
      cbn [key val] in *. subst ke. exact He. }
    exists e, d''. auto.
  - destruct (dictAdd_spec dict_can_resize zcalloc d k v Ha Hok Hsz Hno)
      as (d' & E & Hok' & _ & _ & Hent).
    exists DICT_OK, d'. split; [exact E|]. split; [exact Hok'|]. left.
    split; [reflexivity|]. split; [exact Hno|]. split; [exact Hent|].
    apply (fetch_in d' k v Hok').
    apply (Permutation_in _ (Permutation_sym Hent)). left. reflexivity.
Qed.

(** X8. [dictDelete] removes the entry of the key and nothing else: DICT_OK
    and one entry fewer, the one of the key, or DICT_ERR when the dict has
    no such key, the entries being the same. After it the key is not
    found. [dictUnlink] does the same to the dict and hands the entry
    back. *)
Theorem dictDelete_removes_key (d : dict K V) (k : K) :
  dict_ok d ->
  exists st d',
    dictDelete d k = Ret (st, d') /\ dict_ok d' /\
    ((st = DICT_OK /\
      exists e, key e = k /\ dict_entries d ≡ₚ e :: dict_entries d' /\
                dictUnlink d k = Ret (Some e, d') /\ dictSize d' = dictSize d - 1) \/
     (st = DICT_ERR /\ (forall e, In e (dict_entries d) -> key e <> k) /\
      dict_entries d' ≡ₚ dict_entries d /\ dictUnlink d k = Ret (None, d'))) /\
    exists d'', dictFind d' k = Ret (None, d'').
Proof.
  intros Hok.
  destruct (dictGenericDelete_spec d k false Hok) as (r & d' & E & Hok' & _ & _ & Hr).
  assert (Eu : dictUnlink d k = Ret (r, d')).
  { unfold dictUnlink. rewrite <- E. reflexivity. }
  assert (Hgone : forall x, In x (dict_entries d') -> key x <> k).
  { destruct r as [e|].
    - destruct Hr as [Hk Hp]. intros x Hx Hkx.
      destruct Hok as (_ & _ & _ & Hnd & _). apply (Permutation_map key) in Hp.
      rewrite Hp in Hnd. cbn [map] in Hnd. apply NoDup_cons in Hnd as [Hnot _].
      apply Hnot. rewrite Hk, <- Hkx. apply list_elem_of_In, in_map, Hx.
    - destruct Hr as [Hno Hp]. intros x Hx. apply Hno.
      apply (Permutation_in _ Hp), Hx. }
  exists (match r with Some _ => DICT_OK | None => DICT_ERR end), d'.
  unfold dictDelete. rewrite E. cbn [bind].
  split; [reflexivity|]. split; [exact Hok'|]. split.
  - destruct r as [e|].
    + left. destruct Hr as [Hk Hp]. split; [reflexivity|]. exists e.
      split; [exact Hk|]. split; [exact Hp|]. split; [exact Eu|].
      rewrite (dictSize_entries d) by apply Hok.
      rewrite (dictSize_entries d') by apply Hok'.
      rewrite (Permutation_length Hp). cbn [length]. lia.
    + right. destruct Hr as [Hno Hp]. auto.
  - destruct (dictFind_spec d' k Hok') as (r' & d'' & Ef & _ & _ & _ & _ & _ & Hmiss).
    rewrite (Hmiss Hgone) in Ef. exists d''. exact Ef.
Qed.

(** X9. [dictReplace] makes the key have the value: it returns 1 and adds the
    pair when the key is new, and returns 0 and overwrites the value in
    the entry of the key when the key is there; no other entry changes,
    and a lookup of the key that follows gives the value. *)
Theorem dictReplace_sets_value (d : dict K V) (k : K) (v : V) :
  alloc_ok zcalloc -> dict_ok d -> dictSize d < 2 ^ 62 ->
  exists r d',
    dictReplace d k v = Ret (r, d') /\ dict_ok d' /\
    ((r = 1 /\ (forall e, In e (dict_entries d) -> key e <> k) /\
      dict_entries d' ≡ₚ DictEntry k v :: dict_entries d) \/
     (r = 0 /\ exists e l, key e = k /\ dict_entries d ≡ₚ e :: l /\
                           dict_entries d' ≡ₚ DictEntry k v :: l)) /\
    exists d'', dictFetchValue d' k = Ret (Some v, d'').
Proof.
  intros Ha Hok Hsz. unfold dictReplace.
  destruct (key_decide d k (dict_entries d) ltac:(apply Hok)) as [(e & He & Hk)|Hno].
  - destruct (dictAddRaw_existing d k v e Ha Hok Hsz He Hk)
      as (d1 & E & Hok1 & _ & _ & Hent1).
    rewrite E. cbn [bind].
    destruct (set_entry_val_spec d1 k v e Hok1) as (Hok' & _ & _ & l & Hl & Hl');
      [apply (Permutation_in _ (Permutation_sym Hent1)), He | exact Hk |].
    eexists 0, _. split; [reflexivity|]. split; [exact Hok'|]. split.
    + right. split; [reflexivity|]. exists e, l. split; [exact Hk|].
      split; [rewrite <- Hent1; exact Hl | exact Hl'].
    + apply (fetch_in _ k v Hok').
      apply (Permutation_in _ (Permutation_sym Hl')). left. reflexivity.
  - destruct (dictAdd_spec dict_can_resize zcalloc d k v Ha Hok Hsz Hno)
      as (d' & E & Hok' & _ & _ & Hent).
    unfold dictAdd in E.
    destruct (dictAddRaw dict_can_resize zcalloc d k v) as [[[created existing] d1]| |];
      cbn [bind] in E |- *; try discriminate.
    destruct created; [|discriminate]. injection E as ->.
    exists 1, d'. split; [reflexivity|]. split; [exact Hok'|]. split.
    + left. auto.
    + apply (fetch_in d' k v Hok').
      apply (Permutation_in _ (Permutation_sym Hent)). left. reflexivity.
Qed.

(** **** Shrinking and finishing a rehash *)





(** **** Iteration *)

(** The entries an iterator has yet to return once it is done with the
    chain it is in: the buckets from [j] on of its table, and all of
    [ht[1]] when it is still in [ht[0]]. *)
Definition rest_from (d : dict K V) (t j : Z) : list (dictEntry K V) :=
  if t =? 0
  then concat (drop (Z.to_nat j) (buckets (ht0 d))) ++ concat (buckets (ht1 d))
  else concat (drop (Z.to_nat j) (buckets (ht1 d))).

Definition remaining (iter : dictIterator K V) (d : dict K V) : list (dictEntry K V) :=
  match entry iter with
  | [] => []
  | _ :: _ => nextEntry iter
  end ++ rest_from d (iter_table iter) (index iter + 1).

(** The bucket arrays are as long as the tables say, and a dict that is
    not rehashing has nothing in [ht[1]]. *)
Definition shaped (d : dict K V) : Prop :=
  Z.of_nat (length (buckets (ht0 d))) = size (ht0 d) /\
  Z.of_nat (length (buckets (ht1 d))) = size (ht1 d) /\
  size (ht0 d) < 2 ^ 63 /\ size (ht1 d) < 2 ^ 63 /\
  (dictIsRehashing d = false -> buckets (ht1 d) = []).

Lemma wf_shaped (d : dict K V) :
  wf_dict d -> size (ht0 d) < 2 ^ 63 -> size (ht1 d) < 2 ^ 63 -> shaped d.
Proof.
  intros (_ & _ & Hs) H0 H1. unfold shaped.
  destruct (dictIsRehashing d).
  - destruct Hs as ((k0 & _ & E0 & _ & L0 & _) & (k1 & _ & E1 & _ & L1 & _) & _).
    repeat split; try lia; try discriminate.
  - destruct Hs as [Hp0 Er]. rewrite Er in *. cbn [buckets size _dictReset length].
    destruct Hp0 as [(k0 & _ & E0 & _ & L0 & _)|E0]; [|rewrite E0; cbn];
      repeat split; try lia; reflexivity.
Qed.

Lemma drop_bucket (t : dictht K V) j :
  0 <= j ->
  concat (drop (Z.to_nat j) (buckets t)) =
  bucket_at t j ++ concat (drop (Z.to_nat (j + 1)) (buckets t)).
Proof.
  intros Hj. unfold bucket_at. destruct (Z.ltb_spec j 0); [lia|].
  replace (Z.to_nat (j + 1)) with (S (Z.to_nat j)) by lia.
  destruct (buckets t !! Z.to_nat j) as [c|] eqn:E.
  - rewrite (drop_S _ _ _ E). reflexivity.
  - apply lookup_ge_None in E. rewrite !drop_ge by lia. reflexivity.
Qed.

Lemma rest_from_step (d : dict K V) t j :
  0 <= j -> rest_from d t j = bucket_at (iter_ht d t) j ++ rest_from d t (j + 1).
Proof.
  intros Hj. unfold rest_from, iter_ht. destruct (t =? 0).
  - rewrite (drop_bucket (ht0 d) j Hj), <- app_assoc. reflexivity.
  - apply drop_bucket, Hj.
Qed.

(** [dictNext] from an iterator that is not inside a chain. *)
Lemma dictNext_between (fuel : nat) :
  forall (iter : dictIterator K V) (d : dict K V),
    entry iter = [] -> -1 <= index iter ->
    iter_table iter = 0 \/ iter_table iter = 1 ->
    shaped d -> buckets_ahead iter d < Z.of_nat fuel ->
    exists x iter',
      dictNext_loop fuel iter d =
        Ret (x, iter',
             if fresh iter && safe iter then set_iterators d (iterators d + 1) else d) /\
      fresh iter' = false /\ safe iter' = safe iter /\
      fingerprint iter' =
        (if fresh iter && negb (safe iter) then dictFingerprint d else fingerprint iter) /\
      match x with
      | None => rest_from d (iter_table iter) (index iter + 1) = []
      | Some e =>
          entry iter' = e :: nextEntry iter' /\
          (iter_table iter' = 0 \/ iter_table iter' = 1) /\ 0 <= index iter' /\
          rest_from d (iter_table iter) (index iter + 1) =
            e :: nextEntry iter' ++ rest_from d (iter_table iter') (index iter' + 1)
      end.
Proof.
  induction fuel as [|fuel IH]; intros iter d He Hi Ht Hsh Hf.
  { unfold buckets_ahead in Hf. destruct Hsh as (L0 & L1 & _).
    destruct (iter_table iter =? 0); lia. }
  pose proof Hsh as (L0 & L1 & H0 & H1 & Hidle).
  destruct iter as [i t s en ne fp].
  cbn [entry index iter_table safe fingerprint] in He, Hi, Ht |- *. subst en.
  cbn [dictNext_loop entry index iter_table safe nextEntry fingerprint].
  set (fr := (i =? -1) && (t =? 0)).
  change (fresh (DictIterator i t s [] ne fp)) with fr.
  set (d1 := if fr && s then set_iterators d (iterators d + 1) else d).
  assert (Hd1 : ht0 d1 = ht0 d /\ ht1 d1 = ht1 d /\ rehashidx d1 = rehashidx d).
  { unfold d1. destruct (fr && s); repeat split. }
  destruct Hd1 as (E0 & E1 & Er).
  assert (Hsh1 : shaped d1).
  { unfold shaped, dictIsRehashing. rewrite E0, E1, Er. exact Hsh. }
  assert (Hrest : forall t' j', rest_from d1 t' j' = rest_from d t' j').
  { intros t' j'. unfold rest_from. rewrite E0, E1. reflexivity. }
  assert (Hbook :
    (if fr
     then if s then (DictIterator i t s [] ne fp, set_iterators d (iterators d + 1))
          else (DictIterator i t s [] ne (dictFingerprint d), d)
     else (DictIterator i t s [] ne fp, d)) =
    (DictIterator i t s [] ne (if fr && negb s then dictFingerprint d else fp), d1)).
  { unfold d1. destruct fr, s; cbn [andb negb]; reflexivity. }
  rewrite Hbook. cbn [index iter_table safe entry nextEntry fingerprint].
  clear Hbook.
  set (fp1 := if fr && negb s then dictFingerprint d else fp).
  assert (Hstep : forall iter2,
    entry iter2 = [] -> 0 <= index iter2 ->
    iter_table iter2 = 0 \/ iter_table iter2 = 1 ->
    buckets_ahead iter2 d1 < buckets_ahead (DictIterator i t s [] ne fp) d ->
    safe iter2 = s -> fingerprint iter2 = fp1 ->
    rest_from d t (i + 1) = rest_from d (iter_table iter2) (index iter2 + 1) ->
    exists x iter',
      dictNext_loop fuel iter2 d1 = Ret (x, iter', d1) /\
      fresh iter' = false /\ safe iter' = s /\ fingerprint iter' = fp1 /\
      match x with
      | None => rest_from d t (i + 1) = []
      | Some e =>
          entry iter' = e :: nextEntry iter' /\
          (iter_table iter' = 0 \/ iter_table iter' = 1) /\ 0 <= index iter' /\
          rest_from d t (i + 1) =
            e :: nextEntry iter' ++ rest_from d (iter_table iter') (index iter' + 1)
      end).
  { intros iter2 He2 Hi2 Ht2 Hlt Hs2 Hfp2 Hr2.
    destruct (IH iter2 d1 He2 ltac:(lia) Ht2 Hsh1 ltac:(lia))
      as (x & iter' & E & Hfr & Hsafe & Hfp & Hx).
    assert (Hnf : fresh iter2 = false).
    { unfold fresh. destruct (Z.eqb_spec (index iter2) (-1)); [lia | reflexivity]. }
    rewrite Hnf in E, Hfp. cbn [andb] in E, Hfp.
    exists x, iter'. split; [exact E|]. split; [exact Hfr|].
    split; [congruence|]. split; [congruence|].
    rewrite Hr2. destruct x as [e|].
    - rewrite !Hrest in Hx. exact Hx.
    - rewrite Hrest in Hx. exact Hx. }
  assert (Hsz : signed64 (size (iter_ht d t)) = size (iter_ht d t)).
  { apply signed64_small. unfold iter_ht. destruct (t =? 0); lia. }
  rewrite Hsz.
  assert (Hlen : Z.of_nat (length (buckets (iter_ht d t))) = size (iter_ht d t)).
  { unfold iter_ht. destruct (t =? 0); assumption. }
  destruct (Z.leb_spec (size (iter_ht d t)) (i + 1)) as [Hend|Hin].
  - assert (Hover : concat (drop (Z.to_nat (i + 1)) (buckets (iter_ht d t))) = []).
    { rewrite drop_ge by lia. reflexivity. }
    destruct (dictIsRehashing d1 && (t =? 0)) eqn:Hsw.
    + apply andb_prop in Hsw as [_ Ht0]. apply Z.eqb_eq in Ht0. subst t.
      change (iter_ht d 0) with (ht0 d) in *.
      assert (Hr0 : rest_from d 0 (i + 1) =
                    bucket_at (ht1 d) 0 ++ rest_from d 1 (0 + 1)).
      { unfold rest_from at 1. change (0 =? 0) with true. cbv iota. rewrite Hover.
        cbn [app]. rewrite <- (drop_0 (buckets (ht1 d))) at 1.
        change 0%nat with (Z.to_nat 0). rewrite (drop_bucket (ht1 d) 0) by lia.
        reflexivity. }
      cbn [entry index iter_table safe fingerprint]. rewrite E1.
      destruct (bucket_at (ht1 d) 0) as [|e next] eqn:Eb.
      * apply Hstep; cbn [entry index iter_table safe fingerprint]; auto; try lia.
        unfold buckets_ahead. cbn [iter_table index]. rewrite E1.
        change (0 + 1 =? 0) with false. change (0 =? 0) with true. cbv iota. lia.
      * eexists _, _. split; [reflexivity|]. unfold fresh.
        cbn [index iter_table safe fingerprint entry nextEntry].
        split; [reflexivity|]. split; [reflexivity|]. split; [reflexivity|].
        split; [reflexivity|]. split; [right; reflexivity|]. split; [lia|].
        exact Hr0.
    + eexists None, _. split; [reflexivity|]. unfold fresh.
      cbn [index iter_table safe fingerprint].
      destruct (Z.eqb_spec (i + 1) (-1)); [lia|].
      split; [reflexivity|]. split; [reflexivity|]. split; [reflexivity|].
      unfold rest_from. unfold iter_ht in Hover.
      destruct (Z.eqb_spec t 0) as [->|Hne].
      * rewrite Hover. cbn [app]. rewrite andb_true_r in Hsw.
        rewrite Hidle; [reflexivity|]. unfold dictIsRehashing in *. rewrite <- Er. exact Hsw.
      * exact Hover.
  - cbn [entry index iter_table safe fingerprint].
    assert (Hr0 : rest_from d t (i + 1) =
                  bucket_at (iter_ht d t) (i + 1) ++ rest_from d t (i + 1 + 1)).
    { apply rest_from_step. lia. }
    destruct (bucket_at (iter_ht d t) (i + 1)) as [|e next] eqn:Eb.
    + apply Hstep; cbn [entry index iter_table safe fingerprint]; auto; try lia.
      unfold buckets_ahead, iter_ht in *. cbn [iter_table index]. rewrite E0, E1.
      destruct (t =? 0); lia.
    + eexists _, _. split; [reflexivity|]. unfold fresh.
      cbn [index iter_table safe fingerprint entry nextEntry].
      destruct (Z.eqb_spec (i + 1) (-1)); [lia|].
      split; [reflexivity|]. split; [reflexivity|]. split; [reflexivity|].
      split; [reflexivity|]. split; [exact Ht|]. split; [lia|]. exact Hr0.
Qed.

Definition ready (iter : dictIterator K V) : Prop :=
  -1 <= index iter /\ (iter_table iter = 0 \/ iter_table iter = 1) /\
  (entry iter <> [] -> 0 <= index iter).

(** One call of [dictNext] returns the first of the remaining entries and
    leaves the others, or NULL when none remains. *)
Lemma dictNext_remaining (fuel : nat) (iter : dictIterator K V) (d : dict K V) :
  ready iter -> shaped d -> buckets_ahead iter d + 1 < Z.of_nat fuel ->
  exists x iter',
    dictNext fuel iter d =
      Ret (x, iter',
           if fresh iter && safe iter then set_iterators d (iterators d + 1) else d) /\
    fresh iter' = false /\ safe iter' = safe iter /\
    fingerprint iter' =
      (if fresh iter && negb (safe iter) then dictFingerprint d else fingerprint iter) /\
    match x with
    | None => remaining iter d = []
    | Some e => ready iter' /\ remaining iter d = e :: remaining iter' d
    end.
Proof.
  intros (Hi & Ht & Hin) Hsh Hf. unfold dictNext.
  destruct (entry iter) as [|e0 l0] eqn:He.
  - destruct (dictNext_between fuel iter d He Hi Ht Hsh ltac:(lia))
      as (x & iter' & E & Hfr & Hs & Hfp & Hx).
    exists x, iter'. split; [exact E|]. split; [exact Hfr|]. split; [exact Hs|].
    split; [exact Hfp|]. unfold remaining. rewrite He. cbn [app].
    destruct x as [e|]; [|exact Hx]. destruct Hx as (He' & Ht' & Hi' & Hr).
    split; [unfold ready; repeat split; auto; lia|].
    rewrite He'. exact Hr.
  - assert (Hi0 : 0 <= index iter) by (apply Hin; discriminate).
    assert (Hnf : fresh iter = false).
    { unfold fresh. destruct (Z.eqb_spec (index iter) (-1)); [lia | reflexivity]. }
    rewrite Hnf. cbn [andb].
    destruct fuel as [|fuel]; [unfold buckets_ahead in Hf; destruct Hsh as (L0 & L1 & _);
                               destruct (iter_table iter =? 0); lia|].
    cbn [dictNext_loop]. rewrite He. cbn [entry index iter_table safe nextEntry fingerprint].
    destruct (nextEntry iter) as [|e next] eqn:Hn.
    + set (iter2 := DictIterator (index iter) (iter_table iter) (safe iter) [] []
                      (fingerprint iter)).
      destruct (dictNext_between fuel iter2 d eq_refl Hi Ht Hsh)
        as (x & iter' & E & Hfr & Hs & Hfp & Hx).
      { change (buckets_ahead iter2 d) with (buckets_ahead iter d). lia. }
      change (fresh iter2) with (fresh iter) in E, Hfp. rewrite Hnf in E, Hfp.
      cbn [andb] in E, Hfp.
      exists x, iter'. split; [exact E|]. split; [exact Hfr|]. split; [exact Hs|].
      split; [exact Hfp|]. unfold remaining. rewrite He, Hn. cbn [app].
      cbn [iter2 index iter_table] in Hx.
      destruct x as [e|]; [|exact Hx]. destruct Hx as (He' & Ht' & Hi' & Hr).
      split; [unfold ready; repeat split; auto; lia|].
      rewrite He'. exact Hr.
    + eexists (Some e), _. split; [reflexivity|]. unfold fresh, ready, remaining.
      cbn [entry index iter_table safe nextEntry fingerprint]. rewrite He, Hn.
      fold (fresh iter). rewrite Hnf.
      repeat split; auto.
Qed.

Lemma remaining_iterators (iter : dictIterator K V) (d : dict K V) n :
  remaining iter (set_iterators d n) = remaining iter d.
Proof. reflexivity. Qed.

Lemma dict_iterate_spec (l : list (dictEntry K V)) :
  forall (fuel : nat) (iter : dictIterator K V) (d : dict K V) acc,
    ready iter -> shaped d -> remaining iter d = l ->
    size (ht0 d) + size (ht1 d) + 3 + Z.of_nat (length l) < Z.of_nat fuel ->
    exists iter',
      dict_iterate fuel iter d acc =
        Ret (acc ++ l, iter',
             if fresh iter && safe iter then set_iterators d (iterators d + 1) else d) /\
      fresh iter' = false /\ safe iter' = safe iter /\
      fingerprint iter' =
        (if fresh iter && negb (safe iter) then dictFingerprint d else fingerprint iter).
Proof.
  induction l as [|a l IH]; intros fuel iter d acc Hr Hsh Hl Hf;
    (destruct fuel as [|fuel]; [destruct Hsh as (L0 & L1 & _); cbn [length] in Hf; lia|]);
    cbn [dict_iterate];
    (destruct (dictNext_remaining (S fuel) iter d Hr Hsh)
       as (x & iter' & E & Hfr & Hs & Hfp & Hx);
     [destruct Hr as (Hi & _); destruct Hsh as (L0 & L1 & _); unfold buckets_ahead;
      destruct (iter_table iter =? 0); cbn [length] in Hf; lia|]);
    rewrite E; cbn [bind]; rewrite Hl in Hx.
  - destruct x as [e|]; [destruct Hx as [_ Hx]; discriminate|].
    exists iter'. rewrite app_nil_r. auto.
  - destruct x as [e|]; [|discriminate]. destruct Hx as (Hr' & [= <- Hl']).
    set (d1 := if fresh iter && safe iter then set_iterators d (iterators d + 1) else d)
      in *.
    assert (Hsh1 : shaped d1) by (unfold d1; destruct (fresh iter && safe iter); exact Hsh).
    assert (Hl1 : remaining iter' d1 = l).
    { unfold d1. destruct (fresh iter && safe iter); symmetry; exact Hl'. }
    destruct (IH fuel iter' d1 (acc ++ [a]) Hr' Hsh1 Hl1) as (it & E2 & Hfr2 & Hs2 & Hfp2).
    { replace (ht0 d1) with (ht0 d) by (unfold d1; destruct (fresh iter && safe iter);
                                         reflexivity).
      replace (ht1 d1) with (ht1 d) by (unfold d1; destruct (fresh iter && safe iter);
                                         reflexivity).
      cbn [length] in Hf. lia. }
    rewrite Hfr in E2, Hfp2. cbn [andb] in E2, Hfp2.
    exists it. rewrite <- app_assoc in E2. split; [exact E2|].
    split; [exact Hfr2|]. split; congruence.
Qed.

Lemma dict_iterate_fresh (d : dict K V) (iter : dictIterator K V) (fuel : nat) :
  wf_dict d -> size (ht0 d) < 2 ^ 63 -> size (ht1 d) < 2 ^ 63 ->
  size (ht0 d) + size (ht1 d) + 3 + dictSize d < Z.of_nat fuel ->
  index iter = -1 -> iter_table iter = 0 -> entry iter = [] ->
  exists iter',
    dict_iterate fuel iter d [] =
      Ret (dict_entries d, iter',
           if safe iter then set_iterators d (iterators d + 1) else d) /\
    fresh iter' = false /\ safe iter' = safe iter /\
    (safe iter = false -> fingerprint iter' = dictFingerprint d).
Proof.
  intros Hwf H0 H1 Hf Hi Ht He.
  pose proof (wf_shaped d Hwf H0 H1) as Hsh.
  assert (Hr : ready iter).
  { unfold ready. rewrite Hi, Ht, He. repeat split; auto; try lia.
    intros H; contradiction H; reflexivity. }
  assert (Hl : remaining iter d = dict_entries d).
  { unfold remaining, rest_from. rewrite He, Hi, Ht. reflexivity. }
  assert (Hfresh : fresh iter = true) by (unfold fresh; rewrite Hi, Ht; reflexivity).
  destruct (dict_iterate_spec (dict_entries d) fuel iter d [] Hr Hsh Hl)
    as (iter' & E & Hfr & Hs & Hfp).
  { rewrite <- (dictSize_entries d Hwf). exact Hf. }
  exists iter'. rewrite Hfresh in E, Hfp.
  split; [exact E|]. split; [exact Hfr|]. split; [exact Hs|].
  intros Hu. rewrite Hfp, Hu. reflexivity.
Qed.

Lemma set_iterators_back (d : dict K V) :
  set_iterators (set_iterators d (iterators d + 1))
    (iterators (set_iterators d (iterators d + 1)) - 1) = d.
Proof.
  destruct d as [ty t0 t1 ri its]. unfold set_iterators.
  cbn [iterators type ht0 ht1 rehashidx].
  replace (its + 1 - 1) with its by lia. reflexivity.
Qed.

(** X12. A full pass [while((de = dictNext(iter)) != NULL)] over a
    well-formed dict, with a plain or a safe iterator, returns every entry
    of both tables exactly once: those of [ht[0]] bucket by bucket, then
    those of [ht[1]].  It ends, touches nothing but the counter of safe
    iterators, and [dictReleaseIterator] then passes its fingerprint
    [assert] and gives the dict back as it was. *)
Theorem dictNext_visits_every_entry (d : dict K V) (safe_iter : bool) (fuel : nat) :
  wf_dict d -> size (ht0 d) < 2 ^ 63 -> size (ht1 d) < 2 ^ 63 ->
  size (ht0 d) + size (ht1 d) + 3 + dictSize d < Z.of_nat fuel ->
  exists iter' d',
    dict_iterate fuel (if safe_iter then dictGetSafeIterator d else dictGetIterator d) d []
      = Ret (dict_entries d, iter', d') /\
    d' = (if safe_iter then set_iterators d (iterators d + 1) else d) /\
    dictReleaseIterator iter' d' = Ret d.
Proof.
  intros Hwf H0 H1 Hf. destruct safe_iter.
  - destruct (dict_iterate_fresh d (dictGetSafeIterator d) fuel Hwf H0 H1 Hf
                eq_refl eq_refl eq_refl) as (iter' & E & Hfr & Hs & Hfp).
    exists iter', (set_iterators d (iterators d + 1)).
    split; [exact E|]. split; [reflexivity|].
    unfold dictReleaseIterator. fold (fresh iter'). rewrite Hfr, Hs.
    change (safe (dictGetSafeIterator d)) with true. cbn [negb].
    rewrite set_iterators_back. reflexivity.
  - destruct (dict_iterate_fresh d (dictGetIterator d) fuel Hwf H0 H1 Hf
                eq_refl eq_refl eq_refl) as (iter' & E & Hfr & Hs & Hfp).
    exists iter', d.
    split; [exact E|]. split; [reflexivity|].
    unfold dictReleaseIterator. fold (fresh iter'). rewrite Hfr, Hs.
    change (safe (dictGetIterator d)) with false. cbn [negb].
    rewrite (Hfp eq_refl), Z.eqb_refl. reflexivity.
Qed.

(** [dictExpand] and [dictResize] keep a dict well-formed, with the
    entries it has, whether they install a table or fail. *)
Lemma dictExpand_keeps (d : dict K V) sz :
  alloc_ok zcalloc -> dict_ok d -> 0 <= sz ->
  dict_ok (snd (dictExpand zcalloc d sz)) /\
  type (snd (dictExpand zcalloc d sz)) = type d /\
  dict_entries (snd (dictExpand zcalloc d sz)) = dict_entries d.
Proof.
  intros Ha Hok Hsz. pose proof Hok as (Hwf & P0 & P1 & Hnd & Hc). unfold dictExpand.
  destruct (dictIsRehashing d) eqn:Hre; cbn [orb]; [auto|].
  destruct (sz <? used (ht0 d)); [auto|].
  destruct (_dictNextPower_spec sz Hsz) as (j & Hj & Ej & _). rewrite Ej.
  destruct (Z.eqb_spec (2 ^ j) (size (ht0 d))) as [_|Hne]; [auto|].
  pose proof Hwf as (Hc0 & Hc1 & Hs). rewrite Hre in Hs. destruct Hs as [Hp0 E1].
  destruct (fresh_table_ok (V:=V) (type d) j (zcalloc (wrap64 (2 ^ j * 8))) ltac:(lia) (Ha _))
    as (Hpn & Hcn & Hpl).
  destruct (Z.eqb_spec (table (ht0 d)) 0) as [Hnull|Htab]; cbn [snd].
  - destruct Hp0 as [(k & _ & _ & _ & _ & Ht)|E0]; [contradiction|].
    cbn [type ht0 ht1 set_ht0].
    assert (He : dict_entries (set_ht0 d (Dictht (zcalloc (wrap64 (2 ^ j * 8)))
                   (replicate (Z.to_nat (2 ^ j)) []) (2 ^ j) (2 ^ j - 1) 0)) = dict_entries d).
    { unfold dict_entries. cbn [ht0 ht1 set_ht0 buckets]. rewrite concat_replicate_nil, E0.
      reflexivity. }
    split; [|split; [reflexivity | exact He]].
    split; [|split; [exact Hpl|split; [exact P1|split; [|exact Hc]]]].
    + unfold wf_dict. cbn [ht0 ht1 set_ht0]. split; [exact Hcn|]. split; [exact Hc1|].
      change (dictIsRehashing (set_ht0 d _)) with (dictIsRehashing d). rewrite Hre.
      split; [left; exact Hpn | exact E1].
    + rewrite He. exact Hnd.
  - assert (Hp : pow2_table (ht0 d)).
    { destruct Hp0 as [Hp|E0]; [exact Hp|]. rewrite E0 in Htab. contradiction. }
    cbn [type ht0 ht1 set_ht1 set_rehashidx].
    assert (He : dict_entries (set_rehashidx (set_ht1 d (Dictht (zcalloc (wrap64 (2 ^ j * 8)))
                   (replicate (Z.to_nat (2 ^ j)) []) (2 ^ j) (2 ^ j - 1) 0)) 0) =
                 dict_entries d).
    { unfold dict_entries. cbn [ht0 ht1 set_ht1 set_rehashidx buckets].
      rewrite concat_replicate_nil, E1. reflexivity. }
    split; [|split; [reflexivity | exact He]].
    split; [|split; [exact P0|split; [exact Hpl|split; [|exact Hc]]]].
    + apply wf_rehashing_intro; cbn [ht0 ht1 rehashidx set_ht1 set_rehashidx]; auto.
      * destruct Hp as (k & Hk & Hs & _). assert (0 < 2 ^ k) by (apply Z.pow_pos_nonneg; lia).
        lia.
      * intros i Hi. lia.
    + rewrite He. exact Hnd.
Qed.

Lemma dictResize_keeps (d : dict K V) :
  alloc_ok zcalloc -> dict_ok d ->
  dict_ok (snd (dictResize d)) /\
  type (snd (dictResize d)) = type d /\
  dict_entries (snd (dictResize d)) = dict_entries d.
Proof.
  intros Ha Hok. unfold dictResize.
  destruct (negb dict_can_resize || dictIsRehashing d); [auto|].
  apply dictExpand_keeps; [exact Ha | exact Hok|].
  unfold wrap64. apply Z.mod_pos_bound. lia.
Qed.

(** **** The load of the table *)

(** The entries a table of one bucket may hold before an insertion makes
    it grow: 1 when resizing is enabled, and [dict_force_resize_ratio + 1]
    when it is not. *)
Definition load_bound : Z := if dict_can_resize then 1 else dict_force_resize_ratio + 1.

Lemma _dictExpandIfNeeded_load (d : dict K V) d' :
  alloc_ok zcalloc -> dict_ok d -> used (ht0 d) < 2 ^ 62 ->
  _dictExpandIfNeeded dict_can_resize zcalloc d = (DICT_OK, d') ->
  dictIsRehashing d' = false ->
  used (ht0 d') < load_bound * size (ht0 d').
Proof.
  intros Ha (Hwf & _) Hu. unfold _dictExpandIfNeeded.
  destruct (dictIsRehashing d) eqn:Hre; [intros [= <-]; congruence|].
  pose proof Hwf as (Hc0 & Hc1 & Hs). rewrite Hre in Hs. destruct Hs as [Hp0 E1].
  assert (Hu0 : 0 <= used (ht0 d)) by (unfold counted in Hc0; lia).
  assert (Hb : 1 <= load_bound).
  { unfold load_bound, dict_force_resize_ratio. destruct dict_can_resize; lia. }
  destruct (Z.eqb_spec (size (ht0 d)) 0) as [Hz|Hnz].
  - destruct Hp0 as [(k & Hk & Hs & _)|E0].
    { exfalso. assert (0 < 2 ^ k) by (apply Z.pow_pos_nonneg; lia). lia. }
    unfold dictExpand. rewrite Hre, E0. cbn [used _dictReset orb size table].
    change (DICT_HT_INITIAL_SIZE <? 0) with false.
    change (_dictNextPower DICT_HT_INITIAL_SIZE) with (2 ^ 2).
    change (2 ^ 2 =? 0) with false. change (0 =? 0) with true. cbv iota.
    intros [= <-] _. cbn [ht0 set_ht0 used size]. lia.
  - assert (Hp : pow2_table (ht0 d)).
    { destruct Hp0 as [Hp|E0]; [exact Hp|]. rewrite E0 in Hnz. contradiction. }
    destruct Hp as (k & Hk & Hs & Hm & Hl & Ht).
    assert (Hpos : 0 < 2 ^ k) by (apply Z.pow_pos_nonneg; lia).
    destruct ((size (ht0 d) <=? used (ht0 d)) &&
              (dict_can_resize || (dict_force_resize_ratio <? used (ht0 d) / size (ht0 d))))
      eqn:Hgrow.
    + apply andb_true_iff in Hgrow as [Hge _]. apply Z.leb_le in Hge.
      assert (Hw : wrap64 (used (ht0 d) * 2) = used (ht0 d) * 2).
      { apply wrap64_id. unfold word64. lia. }
      rewrite Hw. unfold dictExpand. rewrite Hre. cbn [orb].
      destruct (Z.ltb_spec (used (ht0 d) * 2) (used (ht0 d))) as [Hbad|_]; [lia|].
      destruct (_dictNextPower_spec (used (ht0 d) * 2) ltac:(lia)) as (j & Hj & Ej & Hmin).
      destruct Hmin as [Hle _]; [unfold LONG_MAX; lia|].
      rewrite Ej.
      destruct (Z.eqb_spec (2 ^ j) (size (ht0 d))) as [Heq|_]; [lia|].
      destruct (Z.eqb_spec (table (ht0 d)) 0) as [Hnull|_]; [contradiction|].
      intros [= <-]. discriminate.
    + intros [= <-] _. apply andb_false_iff in Hgrow as [Hlt|Hno].
      * apply Z.leb_gt in Hlt. nia.
      * apply orb_false_iff in Hno as [Hcan Hratio]. unfold load_bound. rewrite Hcan.
        apply Z.ltb_ge in Hratio. unfold dict_force_resize_ratio in *.
        destruct (Z.lt_ge_cases (used (ht0 d)) ((5 + 1) * size (ht0 d))) as [H|H];
          [exact H|].
        pose proof (Z.div_le_lower_bound (used (ht0 d)) (size (ht0 d)) 6
                      ltac:(lia) ltac:(lia)). lia.
Qed.

(** X18. The load of the table is bounded. Whatever the dict was, after
    a [dictAdd] a dict that is not rehashing has at most one entry for
    each bucket of [ht[0]] when resizing is enabled, and at most
    [dict_force_resize_ratio + 1] entries for each bucket when it is
    disabled: a table that is full makes the insertion start a rehash to
    a larger one. *)
Theorem dictAdd_bounds_load (d : dict K V) (k : K) (v : V) :
  alloc_ok zcalloc -> dict_ok d -> dictSize d < 2 ^ 62 ->
  exists st d',
    dictAdd dict_can_resize zcalloc d k v = Ret (st, d') /\
    (dictIsRehashing d' = false ->
     used (ht0 d') <= load_bound * size (ht0 d')).
Proof.
  intros Ha Hok Hsz. unfold dictAdd, dictAddRaw.
  destruct (step_if_rehashing d Hok) as (d1 & E1 & Hok1 & _ & _ & Hperm1).
  rewrite E1. cbn [bind].
  assert (Hu1 : used (ht0 d1) < 2 ^ 62).
  { pose proof (dictSize_entries d1 ltac:(apply Hok1)) as S1.
    pose proof (dictSize_entries d ltac:(apply Hok)) as S0.
    rewrite (Permutation_length Hperm1) in S1. unfold dictSize in S1, S0, Hsz.
    destruct Hok1 as ((_ & Hc1 & _) & _). unfold counted in Hc1. lia. }
  destruct (_dictExpandIfNeeded_ok dict_can_resize zcalloc d1 Ha Hok1 Hu1)
    as (d2 & E2 & _).
  pose proof (_dictExpandIfNeeded_load d1 d2 Ha Hok1 Hu1 E2) as Hload.
  unfold _dictKeyIndex. rewrite E2. change (DICT_OK =? DICT_ERR) with false. cbv iota.
  set (h := dictHashKey d1 k).
  destruct (chain_find d2 k (bucket_at (ht0 d2) (Z.land h (sizemask (ht0 d2))))) as [he|].
  { change (-1 =? -1) with true. cbv iota. cbn [bind]. eexists _, _.
    split; [reflexivity|]. intros Hre. specialize (Hload Hre). lia. }
  destruct (dictIsRehashing d2) eqn:Hre2; cbn [negb].
  - destruct (chain_find d2 k (bucket_at (ht1 d2) (Z.land h (sizemask (ht1 d2))))) as [he|].
    { change (-1 =? -1) with true. cbv iota. cbn [bind]. eexists _, _.
      split; [reflexivity|]. intros Hre. congruence. }
    destruct (Z.land h (sizemask (ht1 d2)) =? -1); rewrite ?Hre2; cbn [bind];
      eexists _, _; (split; [reflexivity|]); intros Hre; [congruence|].
    exfalso. revert Hre.
    change (dictIsRehashing (set_ht1 d2 ?t)) with (dictIsRehashing d2).
    rewrite Hre2. discriminate.
  - specialize (Hload eq_refl).
    destruct (Z.land h (sizemask (ht0 d2)) =? -1); rewrite ?Hre2; cbn [bind];
      eexists _, _; (split; [reflexivity|]); intros Hre.
    + lia.
    + cbn [ht0 set_ht0 used size set_used store_bucket set_buckets]. lia.
Qed.

(** X19. Every call of [dictRehash] with [n >= 1] is safe and makes
    progress: the dict stays well-formed with the same entries, each in
    the bucket of its key in the table it is in, and the result is 0
    exactly when no rehash is left to do; when it is 1 the rehash index
    has moved forward in a table of the same size, so that repeated calls
    come to an end. *)
Theorem dictRehash_keeps_entries (d : dict K V) (n : nat) :
  dict_ok d -> (1 <= n)%nat ->
  exists r d',
    dictRehash d n = Ret (r, d') /\ dict_ok d' /\
    type d' = type d /\ iterators d' = iterators d /\
    dict_entries d' ≡ₚ dict_entries d /\
    ((r = 0 /\ dictIsRehashing d' = false) \/
     (r = 1 /\ dictIsRehashing d = true /\ dictIsRehashing d' = true /\
      size (ht0 d') = size (ht0 d) /\ rehashidx d < rehashidx d' <= size (ht0 d'))).
Proof.
  intros Hok Hn. pose proof Hok as (Hwf & P0 & P1 & Hnd & Hc). unfold dictRehash.
  destruct (dictIsRehashing d) eqn:Hre; cbn [negb].
  - destruct (rehash_loop_spec n (n * 10) d Hwf Hre ltac:(lia))
      as (r & d' & E & Hwf' & Hty & Hit & Hperm & Hpl & Hcase).
    destruct (Hpl P0 P1) as [Q0 Q1].
    exists r, d'. split; [exact E|]. split.
    { unfold dict_ok. rewrite Hty. split; [exact Hwf'|]. split; [exact Q0|].
      split; [exact Q1|]. split; [|exact Hc].
      eapply NoDup_Permutation_proper; [|exact Hnd]. apply Permutation_map. exact Hperm. }
    split; [exact Hty|]. split; [exact Hit|]. split; [exact Hperm|].
    destruct Hcase as [?|(? & Hre' & Hs & _ & Hp)]; [left; assumption|].
    right. destruct (wf_rehashing_elim d' Hwf' Hre') as (_ & _ & _ & _ & Hidx & _).
    repeat split; auto; lia.
  - exists 0, d. split; [reflexivity|]. split; [exact Hok|]. repeat split; auto.
Qed.

End Api.

(** *** The API on the concrete dicts *)

(** The bucket discipline, checked bucket by bucket from index [i]. *)
Fixpoint placed_from {K V : Type} (ty : dictType K) (mask i : Z)
    (bs : list (list (dictEntry K V))) : bool :=
  match bs with
  | [] => true
  | c :: bs =>
      forallb (fun e => Z.land (hashFunction ty (key e)) mask =? i) c &&
      placed_from ty mask (i + 1) bs
  end.

Lemma placed_from_ok {K V : Type} (ty : dictType K) mask
    (bs : list (list (dictEntry K V))) :
  forall i, placed_from ty mask i bs = true ->
  forall (n : nat) c e, bs !! n = Some c -> In e c ->
    Z.land (hashFunction ty (key e)) mask = i + Z.of_nat n.
Proof.
  induction bs as [|b bs IH]; intros i H n c e Hn He; [discriminate|].
  cbn [placed_from] in H. apply andb_prop in H as [Hb Hbs].
  destruct n as [|n]; cbn in Hn.
  - injection Hn as ->. rewrite forallb_forall in Hb. apply Hb in He.
    apply Z.eqb_eq in He. lia.
  - rewrite (IH (i + 1) Hbs n c e Hn He). lia.
Qed.

Lemma placed_in_checked {K V : Type} (ty : dictType K) (t : dictht K V) :
  placed_from ty (sizemask t) 0 (buckets t) = true -> placed_in ty t.
Proof.
  intros H i e. unfold bucket_at. destruct (Z.ltb_spec i 0); [intros []|].
  destruct (buckets t !! Z.to_nat i) as [c|] eqn:E; [|intros []].
  intros He. rewrite (placed_from_ok ty _ _ 0 H _ c e E He). lia.
Qed.

Lemma int_type_compare_eq : compare_eq int_type.
Proof. intros a b. apply Z.eqb_eq. Qed.

Lemma fixed_alloc_nonzero : alloc_ok fixed_alloc.
Proof. intros n. unfold fixed_alloc. lia. Qed.


Lemma small_dict_ok : dict_ok small_dict.
Proof.
  split; [exact small_dict_wf|].
  split; [apply placed_in_checked; reflexivity|].
  split; [apply placed_in_checked; reflexivity|].
  split; [|exact int_type_compare_eq].
  apply (bool_decide_unpack _). vm_compute. reflexivity.
Qed.

Lemma rehashing_dict_ok : dict_ok rehashing_dict.
Proof.
  split; [exact rehashing_dict_wf|].
  split; [apply placed_in_checked; reflexivity|].
  split; [apply placed_in_checked; reflexivity|].
  split; [|exact int_type_compare_eq].
  apply (bool_decide_unpack _). vm_compute. reflexivity.
Qed.

Lemma dictFind_finds_key_witness :
  exists r d',
    dictFind rehashing_dict 6 = Ret (r, d') /\
    dictFetchValue rehashing_dict 6 =
      Ret (match r with Some e => Some (val e) | None => None end, d') /\
    dict_ok d' /\ dict_entries d' ≡ₚ dict_entries rehashing_dict /\
    match r with
    | Some e => In e (dict_entries rehashing_dict) /\ key e = 6
    | None => forall e, In e (dict_entries rehashing_dict) -> key e <> 6
    end.
Proof. apply (dictFind_finds_key rehashing_dict 6). exact rehashing_dict_ok. Defined.

Lemma dictAdd_adds_or_refuses_witness :
  exists st d',
    dictAdd true fixed_alloc small_dict 9 90 = Ret (st, d') /\ dict_ok d' /\
    ((st = DICT_OK /\ (forall e, In e (dict_entries small_dict) -> key e <> 9) /\
      dict_entries d' ≡ₚ DictEntry 9 90 :: dict_entries small_dict /\
      exists d'', dictFetchValue d' 9 = Ret (Some 90, d'')) \/
     (st = DICT_ERR /\ dict_entries d' ≡ₚ dict_entries small_dict /\
      exists e d'', In e (dict_entries small_dict) /\ key e = 9 /\
                    dictFetchValue d' 9 = Ret (Some (val e), d''))).
Proof.
  apply (dictAdd_adds_or_refuses true fixed_alloc small_dict 9 90).
  - exact fixed_alloc_nonzero.
  - exact small_dict_ok.
  - vm_compute. reflexivity.
Defined.

Lemma dictDelete_removes_key_witness :
  exists st d',
    dictDelete small_dict 5 = Ret (st, d') /\ dict_ok d' /\
    ((st = DICT_OK /\
      exists e, key e = 5 /\ dict_entries small_dict ≡ₚ e :: dict_entries d' /\
                dictUnlink small_dict 5 = Ret (Some e, d') /\
                dictSize d' = dictSize small_dict - 1) \/
     (st = DICT_ERR /\ (forall e, In e (dict_entries small_dict) -> key e <> 5) /\
      dict_entries d' ≡ₚ dict_entries small_dict /\
      dictUnlink small_dict 5 = Ret (None, d'))) /\
    exists d'', dictFind d' 5 = Ret (None, d'').
Proof. apply (dictDelete_removes_key small_dict 5). exact small_dict_ok. Defined.

Lemma dictReplace_sets_value_witness :
  exists r d',
    dictReplace true fixed_alloc small_dict 1 11 = Ret (r, d') /\ dict_ok d' /\
    ((r = 1 /\ (forall e, In e (dict_entries small_dict) -> key e <> 1) /\
      dict_entries d' ≡ₚ DictEntry 1 11 :: dict_entries small_dict) \/
     (r = 0 /\ exists e l, key e = 1 /\ dict_entries small_dict ≡ₚ e :: l /\
                           dict_entries d' ≡ₚ DictEntry 1 11 :: l)) /\
    exists d'', dictFetchValue d' 1 = Ret (Some 11, d'').
Proof.
  apply (dictReplace_sets_value true fixed_alloc small_dict 1 11).
  - exact fixed_alloc_nonzero.
  - exact small_dict_ok.
  - vm_compute. reflexivity.
Defined.



Lemma dictNext_visits_every_entry_witness :
  exists iter' d',
    dict_iterate 20 (dictGetSafeIterator rehashing_dict) rehashing_dict []
      = Ret (dict_entries rehashing_dict, iter', d') /\
    d' = set_iterators rehashing_dict (iterators rehashing_dict + 1) /\
    dictReleaseIterator iter' d' = Ret rehashing_dict.
Proof.
  apply (dictNext_visits_every_entry rehashing_dict true 20).
  - exact rehashing_dict_wf.
  - vm_compute. reflexivity.
  - vm_compute. reflexivity.
  - vm_compute. reflexivity.
Defined.

Lemma dictAdd_bounds_load_witness :
  exists st d',
    dictAdd true fixed_alloc small_dict 9 90 = Ret (st, d') /\
    (dictIsRehashing d' = false -> used (ht0 d') <= load_bound true * size (ht0 d')).
Proof.
  apply (dictAdd_bounds_load true fixed_alloc small_dict 9 90).
  - exact fixed_alloc_nonzero.
  - exact small_dict_ok.
  - vm_compute. reflexivity.
Defined.

Lemma dictRehash_keeps_entries_witness :
  exists r d',
    dictRehash rehashing_dict 1 = Ret (r, d') /\ dict_ok d' /\
    type d' = type rehashing_dict /\ iterators d' = iterators rehashing_dict /\
    dict_entries d' ≡ₚ dict_entries rehashing_dict /\
    ((r = 0 /\ dictIsRehashing d' = false) \/
     (r = 1 /\ dictIsRehashing rehashing_dict = true /\ dictIsRehashing d' = true /\
      size (ht0 d') = size (ht0 rehashing_dict) /\
      rehashidx rehashing_dict < rehashidx d' <= size (ht0 d'))).
Proof.
  apply (dictRehash_keeps_entries rehashing_dict 1).
  - exact rehashing_dict_ok.
  - lia.
Defined.

End Dict.

(** ** intset.c: the sorted set of integers *)

Module IntSet.

Definition INTSET_ENC_INT16 : Z := 2.
Definition INTSET_ENC_INT32 : Z := 4.
Definition INTSET_ENC_INT64 : Z := 8.

Definition INT16_MIN : Z := -32768.
Definition INT16_MAX : Z := 32767.
Definition INT32_MIN : Z := -2147483648.
Definition INT32_MAX : Z := 2147483647.

(** The value of a [bits]-wide two's complement pattern. *)
Definition signed (bits : Z) (u : Z) : Z :=
  if u <? 2 ^ (bits - 1) then u else u - 2 ^ bits.

(** [int] from [unsigned int]. *)
Definition to_int (u : Z) : Z := signed 32 (wrap32 u).

(** The bytes [off .. off+n) of a buffer. *)
Definition slice (off n : nat) (buf : list byte) : list byte := take n (drop off buf).

(** Reading and writing a little-endian integer of [width] bytes at a byte
    offset, as the casts to [int16_t*], [int32_t*] and [int64_t*] do on the
    hosts where [memrev..ifbe] is the identity. *)
Definition load (width : nat) (buf : list byte) (off : nat) : Z :=
  signed (8 * Z.of_nat width) (le_combine (slice off width buf)).

Definition store (width : nat) (buf : list byte) (off : nat) (v : Z) : list byte :=
  list_inserts off (le_split width v) buf.

(** [encoding] and [length] are [uint32_t]; [contents] is the byte buffer
    that follows the header. *)
Record intset : Type := Intset {
  encoding : Z;
  length : Z;
  contents : list byte
}.

Definition _intsetValueEncoding (v : Z) : Z :=
  if (v <? INT32_MIN) || (INT32_MAX <? v) then INTSET_ENC_INT64
  else if (v <? INT16_MIN) || (INT16_MAX <? v) then INTSET_ENC_INT32
  else INTSET_ENC_INT16.

Definition _intsetGetEncoded (iset : intset) (pos : Z) (enc : Z) : Z :=
  if enc =? INTSET_ENC_INT64 then load 8 (contents iset) (Z.to_nat (pos * 8))
  else if enc =? INTSET_ENC_INT32 then load 4 (contents iset) (Z.to_nat (pos * 4))
  else load 2 (contents iset) (Z.to_nat (pos * 2)).

Definition _intsetGet (iset : intset) (pos : Z) : Z :=
  _intsetGetEncoded iset pos (encoding iset).

Definition set_contents (iset : intset) (buf : list byte) : intset :=
  Intset (encoding iset) (length iset) buf.

Definition _intsetSet (iset : intset) (pos : Z) (value : Z) : intset :=
  if encoding iset =? INTSET_ENC_INT64 then
    set_contents iset (store 8 (contents iset) (Z.to_nat (pos * 8)) value)
  else if encoding iset =? INTSET_ENC_INT32 then
    set_contents iset (store 4 (contents iset) (Z.to_nat (pos * 4)) value)
  else
    set_contents iset (store 2 (contents iset) (Z.to_nat (pos * 2)) value).

Definition intsetNew : intset := Intset INTSET_ENC_INT16 0 [].

Section IntSet.

(** What [zrealloc] leaves in the bytes it adds: the source never reads them
    before writing them, so every statement below holds for any filler. *)
Variable junk : byte.

(** [uint32_t size = len*encoding; is = zrealloc(is,sizeof(intset)+size);] *)
Definition intsetResize (iset : intset) (len : Z) : intset :=
  let size := wrap32 (len * encoding iset) in
  set_contents iset (resize (Z.to_nat size) junk (contents iset)).

(** The [while(max >= min)] of [intsetSearch]: [min], [max], [mid], [cur]
    when the loop is left. *)
Fixpoint search_loop (fuel : nat) (iset : intset) (value min max mid cur : Z)
    : Z * Z * Z * Z :=
  match fuel with
  | O => (min, max, mid, cur)
  | S fuel' =>
      if min <=? max then
        let mid := to_int (Z.shiftr (wrap32 (wrap32 min + wrap32 max)) 1) in
        let cur := _intsetGet iset mid in
        if cur <? value then search_loop fuel' iset value (mid + 1) max mid cur
        else if value <? cur then search_loop fuel' iset value min (mid - 1) mid cur
        else (min, max, mid, cur)
      else (min, max, mid, cur)
  end.

(** [intsetSearch]: whether the value was found, and [*pos]. The interval
    [min .. max] shrinks at every turn, so [length] turns are enough. *)
Definition intsetSearch (iset : intset) (value : Z) : Z * Z :=
  let min := 0 in
  let max := to_int (length iset) - 1 in
  let mid := -1 in
  let cur := -1 in
  if length iset =? 0 then (0, 0)
  else if _intsetGet iset max <? value then (0, length iset)
  else if value <? _intsetGet iset 0 then (0, 0)
  else
    let '(min, max, mid, cur) :=
      search_loop (Z.to_nat (length iset)) iset value min max mid cur in
    if value =? cur then (1, mid) else (0, min).

(** [while(length--) _intsetSet(is,length+prepend,_intsetGetEncoded(is,length,curenc));] *)
Fixpoint upgrade_loop (len : nat) (iset : intset) (curenc prepend : Z) : intset :=
  match len with
  | O => iset
  | S len' =>
      let iset := _intsetSet iset (Z.of_nat len' + prepend)
                  (_intsetGetEncoded iset (Z.of_nat len') curenc) in
      upgrade_loop len' iset curenc prepend
  end.

Definition set_length (iset : intset) (len : Z) : intset :=
  Intset (encoding iset) len (contents iset).

Definition intsetUpgradeAndAdd (iset : intset) (value : Z) : intset :=
  let curenc := encoding iset in
  let newenc := _intsetValueEncoding value in
  let len := to_int (length iset) in
  let prepend := if value <? 0 then 1 else 0 in
  let iset := Intset newenc (length iset) (contents iset) in
  let iset := intsetResize iset (wrap32 (length iset + 1)) in
  let iset := upgrade_loop (Z.to_nat len) iset curenc prepend in
  let iset := if prepend =? 1 then _intsetSet iset 0 value
            else _intsetSet iset (length iset) value in
  set_length iset (wrap32 (length iset + 1)).

(** [memmove(dst,src,bytes)] inside the buffer. *)
Definition intsetMoveTail (iset : intset) (from to : Z) : intset :=
  let bytes := wrap32 (length iset - from) in
  let width := if encoding iset =? INTSET_ENC_INT64 then 8
               else if encoding iset =? INTSET_ENC_INT32 then 4 else 2 in
  let src := Z.to_nat (from * width) in
  let dst := Z.to_nat (to * width) in
  let bytes := wrap32 (bytes * width) in
  set_contents iset (list_inserts dst (slice src (Z.to_nat bytes) (contents iset)) (contents iset)).

(** [intsetAdd]: the set and [*success]. *)
Definition intsetAdd (iset : intset) (value : Z) : intset * Z :=
  let valenc := _intsetValueEncoding value in
  if encoding iset <? valenc then (intsetUpgradeAndAdd iset value, 1)
  else
    let '(found, pos) := intsetSearch iset value in
    if found =? 1 then (iset, 0)
    else
      let iset := intsetResize iset (wrap32 (length iset + 1)) in
      let iset := if pos <? length iset then intsetMoveTail iset pos (pos + 1) else iset in
      let iset := _intsetSet iset pos value in
      (set_length iset (wrap32 (length iset + 1)), 1).

(** [intsetRemove]: the set and [*success]. *)
Definition intsetRemove (iset : intset) (value : Z) : intset * Z :=
  let valenc := _intsetValueEncoding value in
  if (valenc <=? encoding iset) && (fst (intsetSearch iset value) =? 1) then
    let pos := snd (intsetSearch iset value) in
    let len := length iset in
    let iset := if pos <? wrap32 (len - 1) then intsetMoveTail iset (pos + 1) pos else iset in
    let iset := intsetResize iset (wrap32 (len - 1)) in
    (set_length iset (wrap32 (len - 1)), 1)
  else (iset, 0).

End IntSet.

Definition intsetFind (iset : intset) (value : Z) : bool :=
  let valenc := _intsetValueEncoding value in
  (valenc <=? encoding iset) && (fst (intsetSearch iset value) =? 1).

(** [intsetRandom], given what [rand()] returns; a remainder by zero has no
    result. *)
Definition intsetRandom (iset : intset) (rand : Z) : option Z :=
  if length iset =? 0 then None
  else Some (_intsetGet iset (wrap32 rand mod length iset)).


Definition intsetLen (iset : intset) : Z := length iset.

(** The elements in storage order. *)
Definition elems (iset : intset) : list Z :=
  map (fun i => _intsetGet iset (Z.of_nat i)) (seq 0 (Z.to_nat (length iset))).

Definition build (junk : byte) (vs : list Z) : intset :=
  fold_left (fun iset v => fst (intsetAdd junk iset v)) vs intsetNew.

Example upgrade_positive :
  let iset := build Byte.xff [32; 65535] in
  encoding (build Byte.xff [32]) = INTSET_ENC_INT16 /\
  encoding iset = INTSET_ENC_INT32 /\ elems iset = [32; 65535] /\
  intsetFind iset 32 = true /\ intsetFind iset 65535 = true /\ intsetLen iset = 2.
Proof. vm_compute. repeat split. Qed.

Example upgrade_negative :
  let iset := build Byte.xff [32; -65535] in
  encoding iset = INTSET_ENC_INT32 /\ elems iset = [-65535; 32] /\
  intsetFind iset 32 = true /\ intsetFind iset (-65535) = true.
Proof. vm_compute. repeat split. Qed.

Example add_remove_mix :
  let iset := build Byte.xff [5; 6; 4; 4; -70000; 9000000000; 5; 7] in
  elems iset = [-70000; 4; 5; 6; 7; 9000000000] /\
  elems (fst (intsetRemove Byte.xff iset 6)) = [-70000; 4; 5; 7; 9000000000] /\
  snd (intsetRemove Byte.xff iset 8) = 0 /\
  encoding (fst (intsetRemove Byte.xff iset 9000000000)) = INTSET_ENC_INT64.
Proof. vm_compute. repeat split. Qed.

(** *** Bytes: slices, stores and moves *)

Lemma slice_lookup off n (l : list byte) i :
  slice off n l !! i = if (i <? n)%nat then l !! (off + i)%nat else None.
Proof.
  unfold slice. destruct (Nat.ltb_spec i n).
  - rewrite lookup_take_lt by lia. apply lookup_drop.
  - apply lookup_take_ge. lia.
Qed.

Lemma slice_length off n (l : list byte) :
  (off + n <= List.length l)%nat -> List.length (slice off n l) = n.
Proof. intros H. unfold slice. rewrite length_take, length_drop. lia. Qed.

Lemma lookup_inserts (l k : list byte) o j :
  list_inserts o k l !! j =
  if ((o <=? j) && (j <? o + List.length k) && (j <? List.length l))%nat
  then k !! (j - o)%nat else l !! j.
Proof.
  destruct (Nat.leb_spec o j); cbn [andb].
  - destruct (Nat.ltb_spec j (o + List.length k)); cbn [andb].
    + destruct (Nat.ltb_spec j (List.length l)).
      * apply list_lookup_inserts; lia.
      * rewrite !lookup_ge_None_2; [reflexivity | lia | rewrite length_inserts; lia].
    + apply list_lookup_inserts_ge. lia.
  - apply list_lookup_inserts_lt. lia.
Qed.

Lemma lookup_resize_full (l : list byte) n x i :
  resize n x l !! i =
  if (i <? n)%nat then (if (i <? List.length l)%nat then l !! i else Some x) else None.
Proof.
  destruct (Nat.ltb_spec i n).
  - destruct (Nat.ltb_spec i (List.length l)).
    + apply lookup_resize; lia.
    + apply lookup_resize_new; lia.
  - apply lookup_resize_old. lia.
Qed.

Ltac bytes_eq :=
  apply list_eq; intros ?i;
  repeat (rewrite ?slice_lookup, ?lookup_inserts, ?lookup_resize_full,
            ?length_inserts, ?length_resize);
  repeat match goal with
         | |- context [Nat.ltb ?a ?b] => destruct (Nat.ltb_spec a b)
         | |- context [Nat.leb ?a ?b] => destruct (Nat.leb_spec a b)
         end;
  cbn [andb]; try reflexivity; try lia;
  try (f_equal; lia);
  try (rewrite !lookup_ge_None_2 by lia; reflexivity).

Lemma slice_store_same off (k l : list byte) :
  (off + List.length k <= List.length l)%nat ->
  slice off (List.length k) (list_inserts off k l) = k.
Proof.
  intros H. apply list_eq. intros i. rewrite slice_lookup, lookup_inserts.
  destruct (Nat.ltb_spec i (List.length k)).
  - destruct (Nat.leb_spec off (off + i)); [|lia].
    destruct (Nat.ltb_spec (off + i) (off + List.length k)); [|lia].
    destruct (Nat.ltb_spec (off + i) (List.length l)); [|lia].
    cbn [andb]. f_equal. lia.
  - symmetry. apply lookup_ge_None_2. lia.
Qed.

Lemma slice_store_disjoint off (k l : list byte) off' n :
  (off' + n <= off \/ off + List.length k <= off')%nat ->
  slice off' n (list_inserts off k l) = slice off' n l.
Proof. intros H. bytes_eq. Qed.

Lemma slice_resize off n m x (l : list byte) :
  (off + n <= List.length l)%nat -> (off + n <= m)%nat ->
  slice off n (resize m x l) = slice off n l.
Proof. intros H1 H2. bytes_eq. Qed.

Lemma slice_move (l : list byte) src dst cnt a n :
  (dst <= a)%nat -> (a + n <= dst + cnt)%nat ->
  (dst + cnt <= List.length l)%nat -> (src + cnt <= List.length l)%nat ->
  slice a n (list_inserts dst (slice src cnt l) l) = slice (src + (a - dst)) n l.
Proof.
  intros H1 H2 H3 H4. apply list_eq. intros i.
  rewrite !slice_lookup, lookup_inserts, slice_length by lia.
  destruct (Nat.ltb_spec i n); [|reflexivity].
  destruct (Nat.leb_spec dst (a + i)); [|lia].
  destruct (Nat.ltb_spec (a + i) (dst + cnt)); [|lia].
  destruct (Nat.ltb_spec (a + i) (List.length l)); [|lia].
  cbn [andb]. rewrite slice_lookup.
  destruct (Nat.ltb_spec (a + i - dst) cnt); [|lia]. f_equal. lia.
Qed.

(** *** Integers in the buffer *)

Lemma signed_unsigned bits v :
  0 < bits -> - 2 ^ (bits - 1) <= v < 2 ^ (bits - 1) -> signed bits (v mod 2 ^ bits) = v.
Proof.
  intros Hb Hv. unfold signed.
  assert (Hp : 2 ^ bits = 2 * 2 ^ (bits - 1)).
  { rewrite <- Z.pow_succ_r by lia. f_equal. lia. }
  destruct (Z.lt_ge_cases v 0).
  - replace (v mod 2 ^ bits) with (v + 2 ^ bits).
    + destruct (Z.ltb_spec (v + 2 ^ bits) (2 ^ (bits - 1))); lia.
    + symmetry. rewrite <- (Z.mod_small (v + 2 ^ bits) (2 ^ bits)) by lia.
      rewrite <- (Z.mod_add v 1 (2 ^ bits)) by lia. f_equal. lia.
  - rewrite Z.mod_small by lia.
    destruct (Z.ltb_spec v (2 ^ (bits - 1))); lia.
Qed.

Lemma signed_range bits u :
  0 < bits -> 0 <= u < 2 ^ bits -> - 2 ^ (bits - 1) <= signed bits u < 2 ^ (bits - 1).
Proof.
  intros Hb Hu. unfold signed.
  assert (Hp : 2 ^ bits = 2 * 2 ^ (bits - 1)).
  { rewrite <- Z.pow_succ_r by lia. f_equal. lia. }
  destruct (Z.ltb_spec u (2 ^ (bits - 1))); lia.
Qed.

Lemma load_range w buf off :
  (0 < w)%nat -> (off + w <= List.length buf)%nat ->
  - 2 ^ (8 * Z.of_nat w - 1) <= load w buf off < 2 ^ (8 * Z.of_nat w - 1).
Proof.
  intros Hw Hl. unfold load. apply signed_range; [lia|].
  pose proof (le_combine_bound (slice off w buf)) as Hb.
  rewrite slice_length in Hb by lia. exact Hb.
Qed.

Lemma load_store_same w buf off v :
  (0 < w)%nat -> (off + w <= List.length buf)%nat ->
  - 2 ^ (8 * Z.of_nat w - 1) <= v < 2 ^ (8 * Z.of_nat w - 1) ->
  load w (store w buf off v) off = v.
Proof.
  intros Hw Hl Hv. unfold load, store.
  rewrite <- (length_le_split w v) at 2.
  rewrite slice_store_same by (rewrite length_le_split; lia).
  rewrite le_combine_split. replace (Z.of_nat w * 8) with (8 * Z.of_nat w) by lia.
  apply signed_unsigned; [lia | exact Hv].
Qed.

Lemma load_store_disjoint w w' buf off off' v :
  (off' + w' <= off \/ off + w <= off')%nat ->
  load w' (store w buf off v) off' = load w' buf off'.
Proof.
  intros H. unfold load, store. rewrite slice_store_disjoint; [reflexivity|].
  rewrite length_le_split. exact H.
Qed.

Lemma store_length w buf off v : List.length (store w buf off v) = List.length buf.
Proof. unfold store. apply length_inserts. Qed.

(** *** Elements: the buffer as an array of [w]-byte integers *)

Definition elem (w : nat) (buf : list byte) (i : nat) : Z := load w buf (i * w).
Definition put (w : nat) (buf : list byte) (i : nat) (v : Z) : list byte :=
  store w buf (i * w) v.
Definition fits (w : nat) (v : Z) : Prop :=
  - 2 ^ (8 * Z.of_nat w - 1) <= v < 2 ^ (8 * Z.of_nat w - 1).
Definition width_ok (w : nat) : Prop := w = 2%nat \/ w = 4%nat \/ w = 8%nat.

Lemma elem_fits w buf i :
  width_ok w -> ((i + 1) * w <= List.length buf)%nat -> fits w (elem w buf i).
Proof. intros Hw Hl. apply load_range; destruct Hw as [-> | [-> | ->]]; lia. Qed.

Lemma elem_put_same w buf i v :
  width_ok w -> ((i + 1) * w <= List.length buf)%nat -> fits w v ->
  elem w (put w buf i v) i = v.
Proof.
  intros Hw Hl Hv. apply load_store_same; [| |exact Hv]; destruct Hw as [-> | [-> | ->]]; lia.
Qed.

Lemma elem_put_other w buf i j v :
  width_ok w -> i <> j -> elem w (put w buf i v) j = elem w buf j.
Proof.
  intros Hw Hij. apply load_store_disjoint. destruct Hw as [-> | [-> | ->]]; lia.
Qed.

Lemma put_length w buf i v : List.length (put w buf i v) = List.length buf.
Proof. apply store_length. Qed.

Lemma elem_ext w buf buf' i j :
  slice (i * w) w buf = slice (j * w) w buf' -> elem w buf i = elem w buf' j.
Proof. intros E. unfold elem, load. rewrite E. reflexivity. Qed.

Section Elements.

Variable junk : byte.

(** Making room at [pos] and writing [v] there, as [intsetAdd] does. *)
Lemma insert_elems w buf (len pos : nat) v :
  width_ok w -> List.length buf = (len * w)%nat -> (pos <= len)%nat -> fits w v ->
  let buf1 := resize ((len + 1) * w) junk buf in
  let buf2 := if (pos <? len)%nat
              then list_inserts ((pos + 1) * w) (slice (pos * w) ((len - pos) * w) buf1) buf1
              else buf1 in
  let buf3 := put w buf2 pos v in
  List.length buf3 = ((len + 1) * w)%nat /\
  forall i, (i < len + 1)%nat ->
    elem w buf3 i =
    if (i <? pos)%nat then elem w buf i
    else if (i =? pos)%nat then v else elem w buf (i - 1).
Proof.
  intros Hw Hl Hp Hv buf1 buf2 buf3.
  assert (Hl1 : List.length buf1 = ((len + 1) * w)%nat) by apply length_resize.
  assert (Hl2 : List.length buf2 = ((len + 1) * w)%nat).
  { unfold buf2. destruct (pos <? len)%nat; [rewrite length_inserts|]; exact Hl1. }
  split; [unfold buf3; rewrite put_length; exact Hl2|].
  intros i Hi. unfold buf3.
  destruct (Nat.eqb_spec i pos) as [->|Hne].
  { rewrite Nat.ltb_irrefl. apply elem_put_same; auto.
    rewrite Hl2. destruct Hw as [-> | [-> | ->]]; lia. }
  rewrite elem_put_other by auto.
  destruct (Nat.ltb_spec i pos) as [Hlt|Hge].
  - apply elem_ext. unfold buf2. destruct (Nat.ltb_spec pos len).
    + rewrite slice_store_disjoint by (left; destruct Hw as [-> | [-> | ->]]; lia).
      apply slice_resize; rewrite ?Hl; destruct Hw as [-> | [-> | ->]]; lia.
    + apply slice_resize; rewrite ?Hl; destruct Hw as [-> | [-> | ->]]; lia.
  - apply elem_ext. unfold buf2. destruct (Nat.ltb_spec pos len); [|lia].
    rewrite slice_move; rewrite ?Hl1; try (destruct Hw as [-> | [-> | ->]]; lia).
    replace (pos * w + (i * w - (pos + 1) * w))%nat with ((i - 1) * w)%nat
      by (destruct Hw as [-> | [-> | ->]]; lia).
    apply slice_resize; rewrite ?Hl; destruct Hw as [-> | [-> | ->]]; lia.
Qed.

(** Closing the gap at [pos], as [intsetRemove] does. *)
Lemma remove_elems w buf (len pos : nat) :
  width_ok w -> List.length buf = (len * w)%nat -> (pos < len)%nat ->
  let buf1 := if (pos <? len - 1)%nat
              then list_inserts (pos * w) (slice ((pos + 1) * w) ((len - (pos + 1)) * w) buf) buf
              else buf in
  let buf2 := resize ((len - 1) * w) junk buf1 in
  List.length buf2 = ((len - 1) * w)%nat /\
  forall i, (i < len - 1)%nat ->
    elem w buf2 i = if (i <? pos)%nat then elem w buf i else elem w buf (i + 1).
Proof.
  intros Hw Hl Hp buf1 buf2.
  assert (Hl1 : List.length buf1 = (len * w)%nat).
  { unfold buf1. destruct (pos <? len - 1)%nat; [rewrite length_inserts|]; exact Hl. }
  split; [apply length_resize|].
  intros i Hi.
  assert (E : slice (i * w) w buf2 = slice (i * w) w buf1).
  { unfold buf2. apply slice_resize; rewrite ?Hl1; destruct Hw as [-> | [-> | ->]]; lia. }
  unfold buf1 in E.
  destruct (Nat.ltb_spec i pos); apply elem_ext; rewrite E;
    (destruct (Nat.ltb_spec pos (len - 1)); [|reflexivity || lia]).
  - apply slice_store_disjoint. left. destruct Hw as [-> | [-> | ->]]; lia.
  - rewrite slice_move; rewrite ?Hl; try (destruct Hw as [-> | [-> | ->]]; lia).
    f_equal. destruct Hw as [-> | [-> | ->]]; lia.
Qed.

End Elements.

(** The widening loop of [intsetUpgradeAndAdd] on the buffer: element
    [n-1], read at the old width [cw], is written at the new width [nw] at
    index [n-1+p], then element [n-2], and so on down to element 0. *)
Fixpoint upgrade_buf (cw nw p n : nat) (buf : list byte) : list byte :=
  match n with
  | O => buf
  | S n' => upgrade_buf cw nw p n' (put nw buf (n' + p) (elem cw buf n'))
  end.

Lemma fits_mono cw nw v : width_ok cw -> width_ok nw -> (cw <= nw)%nat -> fits cw v -> fits nw v.
Proof.
  unfold fits. intros [-> | [-> | ->]] [-> | [-> | ->]] Hle Hv; try lia;
    cbn in Hv |- *; lia.
Qed.

(** Back to front, the loop never overwrites an element it has yet to read. *)
Lemma upgrade_elems cw nw p len (old : nat -> Z) :
  width_ok cw -> width_ok nw -> (cw < nw)%nat -> (p <= 1)%nat ->
  (forall j, (j < len)%nat -> fits cw (old j)) ->
  forall n buf,
    (n <= len)%nat -> List.length buf = ((len + 1) * nw)%nat ->
    (forall j, (j < n)%nat -> elem cw buf j = old j) ->
    (forall j, (n <= j < len)%nat -> elem nw buf (j + p) = old j) ->
    List.length (upgrade_buf cw nw p n buf) = ((len + 1) * nw)%nat /\
    forall j, (j < len)%nat -> elem nw (upgrade_buf cw nw p n buf) (j + p) = old j.
Proof.
  intros Hcw Hnw Hlt Hp Hfit. induction n as [|n IH]; intros buf Hn Hl Hlow Hhigh.
  - cbn [upgrade_buf]. split; [exact Hl|]. intros j Hj. apply Hhigh. lia.
  - cbn [upgrade_buf]. apply IH.
    + lia.
    + rewrite put_length. exact Hl.
    + intros j Hj. rewrite <- (Hlow j) by lia.
      apply load_store_disjoint. left.
      destruct Hcw as [-> | [-> | ->]], Hnw as [-> | [-> | ->]]; lia.
    + intros j Hj. destruct (Nat.eq_dec j n) as [->|Hne].
      * rewrite elem_put_same; [apply Hlow; lia | exact Hnw | |].
        -- rewrite Hl. destruct Hnw as [-> | [-> | ->]]; lia.
        -- rewrite Hlow by lia.
           apply (fits_mono cw nw); [exact Hcw | exact Hnw | lia | apply Hfit; lia].
      * rewrite elem_put_other by (auto; lia). apply Hhigh. lia.
Qed.

(** *** From the buffer to the set *)

Definition width_of (enc : Z) : nat :=
  if enc =? INTSET_ENC_INT64 then 8 else if enc =? INTSET_ENC_INT32 then 4 else 2.

Definition valid_enc (enc : Z) : Prop :=
  enc = INTSET_ENC_INT16 \/ enc = INTSET_ENC_INT32 \/ enc = INTSET_ENC_INT64.

Lemma width_of_valid enc :
  valid_enc enc -> width_ok (width_of enc) /\ Z.of_nat (width_of enc) = enc.
Proof.
  unfold valid_enc, width_ok. intros [-> | [-> | ->]]; cbn; split; auto.
Qed.

Lemma getEncoded_elem iset pos enc :
  0 <= pos -> _intsetGetEncoded iset pos enc = elem (width_of enc) (contents iset) (Z.to_nat pos).
Proof.
  intros Hp. unfold _intsetGetEncoded, width_of, elem.
  destruct (enc =? INTSET_ENC_INT64); [f_equal; lia|].
  destruct (enc =? INTSET_ENC_INT32); f_equal; lia.
Qed.

Lemma get_elem iset pos :
  0 <= pos -> _intsetGet iset pos = elem (width_of (encoding iset)) (contents iset) (Z.to_nat pos).
Proof. apply getEncoded_elem. Qed.

Lemma set_put iset pos v :
  0 <= pos ->
  _intsetSet iset pos v =
  set_contents iset (put (width_of (encoding iset)) (contents iset) (Z.to_nat pos) v).
Proof.
  intros Hp. unfold _intsetSet, width_of, put.
  destruct (encoding iset =? INTSET_ENC_INT64); [do 2 f_equal; lia|].
  destruct (encoding iset =? INTSET_ENC_INT32); do 2 f_equal; lia.
Qed.

Lemma wrap32_small x : 0 <= x < 2 ^ 32 -> wrap32 x = x.
Proof. intros H. unfold wrap32. apply Z.mod_small. exact H. Qed.

Lemma to_int_small x : 0 <= x < 2 ^ 31 -> to_int x = x.
Proof.
  intros H. unfold to_int, signed. rewrite wrap32_small by lia.
  change (2 ^ (32 - 1)) with (2 ^ 31). destruct (Z.ltb_spec x (2 ^ 31)); lia.
Qed.

(** An [int64_t] argument. *)
Definition int64 (v : Z) : Prop := - 2 ^ 63 <= v < 2 ^ 63.

Lemma valenc_valid v : valid_enc (_intsetValueEncoding v).
Proof.
  unfold _intsetValueEncoding, valid_enc.
  destruct (_ || _); [auto|]. destruct (_ || _); auto.
Qed.

Lemma valenc_fits v enc :
  int64 v -> valid_enc enc -> _intsetValueEncoding v <= enc -> fits (width_of enc) v.
Proof.
  unfold int64, _intsetValueEncoding, fits, INT32_MIN, INT32_MAX, INT16_MIN, INT16_MAX.
  intros Hv Henc Hle.
  destruct (Z.ltb_spec v (-2147483648)), (Z.ltb_spec 2147483647 v),
           (Z.ltb_spec v (-32768)), (Z.ltb_spec 32767 v);
    cbn [orb] in Hle; destruct Henc as [-> | [-> | ->]];
    unfold INTSET_ENC_INT16, INTSET_ENC_INT32, INTSET_ENC_INT64 in *; cbn; lia.
Qed.

Lemma valenc_outside v enc :
  valid_enc enc -> enc < _intsetValueEncoding v ->
  forall x, fits (width_of enc) x -> (v < 0 -> v < x) /\ (0 <= v -> x < v).
Proof.
  unfold _intsetValueEncoding, fits, INT32_MIN, INT32_MAX, INT16_MIN, INT16_MAX.
  intros Henc Hlt x Hx.
  destruct (Z.ltb_spec v (-2147483648)), (Z.ltb_spec 2147483647 v),
           (Z.ltb_spec v (-32768)), (Z.ltb_spec 32767 v);
    cbn [orb] in Hlt; destruct Henc as [-> | [-> | ->]];
    unfold INTSET_ENC_INT16, INTSET_ENC_INT32, INTSET_ENC_INT64 in *;
    cbn in Hx; lia.
Qed.

(** *** The invariant of section 3.1 *)

Definition sorted_get (iset : intset) : Prop :=
  forall i j, 0 <= i -> i < j -> j < length iset -> _intsetGet iset i < _intsetGet iset j.

(** The encoding is one of the three, the buffer holds [length] elements of
    that width, in strictly ascending order; the bound on [length] keeps the
    32-bit size computations of the source from wrapping. *)
Definition inv (iset : intset) : Prop :=
  valid_enc (encoding iset) /\ 0 <= length iset < 2 ^ 28 /\
  List.length (contents iset) = (Z.to_nat (length iset) * width_of (encoding iset))%nat /\
  sorted_get iset.

Lemma sorted_le iset i j :
  sorted_get iset -> 0 <= i -> i <= j -> j < length iset ->
  _intsetGet iset i <= _intsetGet iset j.
Proof.
  intros Hs Hi Hij Hj. destruct (Z.eq_dec i j) as [->|Hne]; [lia|].
  pose proof (Hs i j Hi ltac:(lia) Hj). lia.
Qed.

Lemma mid_value min max :
  0 <= min -> min <= max -> max < 2 ^ 28 ->
  to_int (Z.shiftr (wrap32 (wrap32 min + wrap32 max)) 1) = (min + max) / 2.
Proof.
  intros H0 H1 H2.
  rewrite (wrap32_small min), (wrap32_small max), wrap32_small by lia.
  rewrite Z.shiftr_div_pow2 by lia.
  change (2 ^ 1) with 2. apply to_int_small.
  split; [apply Z.div_pos; lia|]. apply Z.div_lt_upper_bound; lia.
Qed.

Definition search_result (iset : intset) (v : Z) (found pos : Z) : Prop :=
  (found = 1 /\ 0 <= pos < length iset /\ _intsetGet iset pos = v) \/
  (found = 0 /\ 0 <= pos <= length iset /\
   (forall i, 0 <= i < pos -> _intsetGet iset i < v) /\
   (forall i, pos <= i < length iset -> v < _intsetGet iset i)).

Lemma search_loop_spec iset v :
  sorted_get iset -> length iset < 2 ^ 28 ->
  forall (fuel : nat) min max mid cur,
    0 <= min -> max < length iset -> min <= max + 1 ->
    max - min + 1 <= Z.of_nat fuel ->
    (forall i, 0 <= i < min -> _intsetGet iset i < v) ->
    (forall i, max < i < length iset -> v < _intsetGet iset i) ->
    (max < min -> cur <> v) ->
    let '(min', max', mid', cur') := search_loop fuel iset v min max mid cur in
    search_result iset v (if v =? cur' then 1 else 0) (if v =? cur' then mid' else min').
Proof.
  intros Hs Hlen.
  assert (Hdone : forall min max mid cur,
    0 <= min -> max < length iset -> min <= max + 1 -> max < min ->
    (forall i, 0 <= i < min -> _intsetGet iset i < v) ->
    (forall i, max < i < length iset -> v < _intsetGet iset i) ->
    cur <> v ->
    search_result iset v (if v =? cur then 1 else 0) (if v =? cur then mid else min)).
  { intros min max mid cur H0 H1 H2 H3 Hlo Hhi Hc.
    destruct (Z.eqb_spec v cur); [congruence|]. right.
    split; [reflexivity|]. split; [lia|]. split; [exact Hlo|].
    intros i Hi. apply Hhi. lia. }
  induction fuel as [|fuel IH]; intros min max mid cur H0 H1 H2 Hf Hlo Hhi Hc.
  - cbn [search_loop]. apply (Hdone min max); auto; try lia; apply Hc; lia.
  - cbn [search_loop]. destruct (Z.leb_spec min max) as [Hle|Hgt].
    + rewrite mid_value by lia.
      set (m := (min + max) / 2).
      assert (Hm : min <= m <= max).
      { unfold m. split; [apply Z.div_le_lower_bound | apply Z.div_le_upper_bound]; lia. }
      destruct (Z.ltb_spec (_intsetGet iset m) v) as [Hlt|Hge].
      * apply IH; try lia.
        -- intros i Hi. pose proof (sorted_le iset i m Hs ltac:(lia) ltac:(lia) ltac:(lia)). lia.
        -- exact Hhi.
      * destruct (Z.ltb_spec v (_intsetGet iset m)) as [Hlt'|Hge'].
        -- apply IH; try lia.
           ++ exact Hlo.
           ++ intros i Hi.
              pose proof (sorted_le iset m i Hs ltac:(lia) ltac:(lia) ltac:(lia)). lia.
        -- assert (E : v = _intsetGet iset m) by lia.
           rewrite <- E, Z.eqb_refl. left. split; [reflexivity|]. split; [lia|].
           symmetry. exact E.
    + apply (Hdone min max); auto; try lia; apply Hc; lia.
Qed.

Lemma search_spec iset v :
  inv iset ->
  search_result iset v (fst (intsetSearch iset v)) (snd (intsetSearch iset v)).
Proof.
  intros (Henc & Hlen & Hbuf & Hs). unfold intsetSearch.
  destruct (Z.eqb_spec (length iset) 0) as [Hz|Hnz].
  { right. cbn [fst snd]. repeat split; try lia; intros; lia. }
  rewrite to_int_small by lia.
  destruct (Z.ltb_spec (_intsetGet iset (length iset - 1)) v) as [Hlast|Hlast].
  { right. cbn [fst snd]. split; [reflexivity|]. split; [lia|]. split; [|intros; lia].
    intros i Hi.
    pose proof (sorted_le iset i (length iset - 1) Hs ltac:(lia) ltac:(lia) ltac:(lia)). lia. }
  destruct (Z.ltb_spec v (_intsetGet iset 0)) as [Hfirst|Hfirst].
  { right. cbn [fst snd]. split; [reflexivity|]. split; [lia|]. split; [intros; lia|].
    intros i Hi. pose proof (sorted_le iset 0 i Hs ltac:(lia) ltac:(lia) ltac:(lia)). lia. }
  pose proof (search_loop_spec iset v Hs ltac:(lia) (Z.to_nat (length iset))
                0 (length iset - 1) (-1) (-1)) as H.
  destruct (search_loop _ iset v 0 (length iset - 1) (-1) (-1)) as [[[min' max'] mid'] cur'].
  specialize (H ltac:(lia) ltac:(lia) ltac:(lia) ltac:(lia)).
  destruct (v =? cur'); cbn [fst snd]; apply H; intros; lia.
Qed.

(** *** The three ways the buffer changes *)

Ltac enc_cases H :=
  destruct H as [H | [H | H]]; rewrite ?H in *;
  unfold INTSET_ENC_INT16, INTSET_ENC_INT32, INTSET_ENC_INT64 in *;
  cbv [width_of Z.eqb Pos.eqb INTSET_ENC_INT16 INTSET_ENC_INT32 INTSET_ENC_INT64] in *.

Section Operations.

Variable junk : byte.

Lemma add_plain_contents iset pos v :
  valid_enc (encoding iset) -> 0 <= length iset -> length iset + 1 < 2 ^ 28 ->
  0 <= pos <= length iset ->
  let w := width_of (encoding iset) in
  let len := Z.to_nat (length iset) in
  let buf1 := resize ((len + 1) * w) junk (contents iset) in
  let r := intsetResize junk iset (wrap32 (length iset + 1)) in
  _intsetSet (if pos <? length r then intsetMoveTail r pos (pos + 1) else r) pos v =
  Intset (encoding iset) (length iset)
    (put w (if (Z.to_nat pos <? len)%nat
            then list_inserts ((Z.to_nat pos + 1) * w)
                   (slice (Z.to_nat pos * w) ((len - Z.to_nat pos) * w) buf1) buf1
            else buf1) (Z.to_nat pos) v).
Proof.
  intros Henc Hlen Hbound Hpos w len buf1 r.
  rewrite set_put by lia. unfold r, intsetResize, intsetMoveTail, set_contents.
  cbn [encoding length contents].
  rewrite (wrap32_small (length iset + 1)) by lia.
  destruct (Z.ltb_spec pos (length iset)), (Nat.ltb_spec (Z.to_nat pos) len);
    try lia; cbn [encoding length contents]; unfold buf1, w, len;
    rewrite ?(wrap32_small (length iset - pos)) by lia;
    enc_cases Henc; rewrite ?wrap32_small by lia;
    repeat (f_equal; try lia).
Qed.

Lemma remove_contents iset pos :
  valid_enc (encoding iset) -> 0 <= pos < length iset -> length iset < 2 ^ 28 ->
  let w := width_of (encoding iset) in
  let len := Z.to_nat (length iset) in
  intsetResize junk
    (if pos <? wrap32 (length iset - 1) then intsetMoveTail iset (pos + 1) pos else iset)
    (wrap32 (length iset - 1)) =
  Intset (encoding iset) (length iset)
    (resize ((len - 1) * w) junk
       (if (Z.to_nat pos <? len - 1)%nat
        then list_inserts (Z.to_nat pos * w)
               (slice ((Z.to_nat pos + 1) * w) ((len - (Z.to_nat pos + 1)) * w)
                  (contents iset)) (contents iset)
        else contents iset)).
Proof.
  intros Henc Hpos Hbound w len.
  unfold intsetResize, intsetMoveTail, set_contents.
  rewrite (wrap32_small (length iset - 1)) by lia.
  destruct (Z.ltb_spec pos (length iset - 1)), (Nat.ltb_spec (Z.to_nat pos) (len - 1));
    try lia; cbn [encoding length contents]; unfold w, len;
    rewrite ?(wrap32_small (length iset - (pos + 1))) by lia;
    enc_cases Henc; rewrite ?wrap32_small by lia;
    repeat (f_equal; try lia).
Qed.

Lemma upgrade_loop_buf (n : nat) :
  forall iset curenc (p : nat),
    upgrade_loop n iset curenc (Z.of_nat p) =
    set_contents iset
      (upgrade_buf (width_of curenc) (width_of (encoding iset)) p n (contents iset)).
Proof.
  induction n as [|n IH]; intros iset curenc p.
  - cbn. destruct iset; reflexivity.
  - cbn [upgrade_loop upgrade_buf]. rewrite set_put, getEncoded_elem by lia.
    rewrite IH. unfold set_contents. cbn [encoding length contents].
    do 3 f_equal; [f_equal; lia | rewrite Nat2Z.id; reflexivity].
Qed.

Lemma upgrade_spec iset v :
  inv iset -> int64 v -> length iset + 1 < 2 ^ 28 ->
  encoding iset < _intsetValueEncoding v ->
  let iset' := intsetUpgradeAndAdd junk iset v in
  encoding iset' = _intsetValueEncoding v /\
  length iset' = length iset + 1 /\
  List.length (contents iset') =
    (Z.to_nat (length iset + 1) * width_of (_intsetValueEncoding v))%nat /\
  forall i, 0 <= i < length iset + 1 ->
    _intsetGet iset' i =
    if v <? 0 then (if i =? 0 then v else _intsetGet iset (i - 1))
    else (if i =? length iset then v else _intsetGet iset i).
Proof.
  intros (Henc & Hlen & Hbuf & Hs) Hv Hbound Hlt.
  set (cw := width_of (encoding iset)).
  set (nw := width_of (_intsetValueEncoding v)).
  set (len := Z.to_nat (length iset)).
  set (p := if v <? 0 then 1%nat else 0%nat).
  pose proof (valenc_valid v) as Hnenc.
  destruct (width_of_valid _ Henc) as [Hcw Ecw].
  destruct (width_of_valid _ Hnenc) as [Hnw Enw].
  fold cw in Hcw, Ecw, Hbuf. fold nw in Hnw, Enw.
  assert (Hwlt : (cw < nw)%nat) by lia.
  set (buf2 := resize ((len + 1) * nw) junk (contents iset)).
  set (buf3 := upgrade_buf cw nw p len buf2).
  assert (Hcontents : intsetUpgradeAndAdd junk iset v =
            Intset (_intsetValueEncoding v) (length iset + 1)
              (put nw buf3 (if v <? 0 then 0%nat else len) v)).
  { unfold intsetUpgradeAndAdd. rewrite to_int_small by lia.
    unfold intsetResize, set_contents. cbn [encoding length contents].
    rewrite (wrap32_small (length iset + 1)) by lia.
    replace (if v <? 0 then 1 else 0) with (Z.of_nat p)
      by (unfold p; destruct (v <? 0); reflexivity).
    rewrite upgrade_loop_buf. unfold set_contents. cbn [encoding length contents].
    fold cw nw len.
    replace (Z.to_nat (wrap32 ((length iset + 1) * _intsetValueEncoding v)))
      with ((len + 1) * nw)%nat
      by (rewrite wrap32_small; [lia | enc_cases Hnenc; lia]).
    fold buf2. fold buf3.
    unfold p. destruct (v <? 0).
    - change (Z.of_nat 1 =? 1) with true. cbv iota. rewrite set_put by lia.
      unfold set_contents, set_length. cbn [encoding length contents]. fold nw.
      rewrite ?(wrap32_small (length iset + 1)) by lia. reflexivity.
    - change (Z.of_nat 0 =? 1) with false. cbv iota. cbn [length].
      rewrite set_put by lia.
      unfold set_contents, set_length. cbn [encoding length contents]. fold nw len.
      rewrite ?(wrap32_small (length iset + 1)) by lia. reflexivity. }
  assert (Hl2 : List.length buf2 = ((len + 1) * nw)%nat) by apply length_resize.
  destruct (upgrade_elems cw nw p len (fun j => elem cw (contents iset) j)
              Hcw Hnw Hwlt ltac:(unfold p; destruct (v <? 0); lia)) with (n := len) (buf := buf2)
    as [Hl3 Hel]; auto.
  { intros j Hj. apply elem_fits; [exact Hcw|]. rewrite Hbuf. fold len.
    destruct Hcw as [-> | [-> | ->]]; lia. }
  { intros j Hj. apply elem_ext. unfold buf2. apply slice_resize; rewrite ?Hbuf; fold len;
      destruct Hcw as [-> | [-> | ->]], Hnw as [-> | [-> | ->]]; lia. }
  { intros j Hj. lia. }
  fold buf3 in Hl3, Hel.
  assert (Hfit : fits nw v) by (apply valenc_fits; auto; lia).
  rewrite Hcontents. cbn [encoding length contents].
  split; [reflexivity|]. split; [reflexivity|]. split.
  { rewrite put_length, Hl3. fold nw. unfold len. lia. }
  intros i Hi. rewrite get_elem by lia. cbn [encoding contents]. fold nw.
  unfold p in Hel. destruct (Z.ltb_spec v 0).
  - destruct (Z.eqb_spec i 0) as [->|Hne].
    + apply elem_put_same; auto. rewrite Hl3. destruct Hnw as [-> | [-> | ->]]; lia.
    + rewrite elem_put_other by (auto; lia).
      replace (Z.to_nat i) with (Z.to_nat (i - 1) + 1)%nat by lia.
      rewrite Hel by lia. rewrite get_elem by lia. reflexivity.
  - destruct (Z.eqb_spec i (length iset)) as [->|Hne].
    + fold len. apply elem_put_same; auto. rewrite Hl3. destruct Hnw as [-> | [-> | ->]]; lia.
    + rewrite elem_put_other by (auto; lia).
      replace (Z.to_nat i) with (Z.to_nat i + 0)%nat by lia.
      rewrite Hel by lia. rewrite get_elem by lia. reflexivity.
Qed.

Lemma add_plain_spec iset pos v :
  inv iset -> length iset + 1 < 2 ^ 28 -> fits (width_of (encoding iset)) v ->
  0 <= pos <= length iset ->
  let r := intsetResize junk iset (wrap32 (length iset + 1)) in
  let iset1 := _intsetSet (if pos <? length r then intsetMoveTail r pos (pos + 1) else r) pos v in
  let iset' := set_length iset1 (wrap32 (length iset1 + 1)) in
  encoding iset' = encoding iset /\ length iset' = length iset + 1 /\
  List.length (contents iset') =
    (Z.to_nat (length iset + 1) * width_of (encoding iset))%nat /\
  forall i, 0 <= i < length iset + 1 ->
    _intsetGet iset' i =
    if i <? pos then _intsetGet iset i
    else if i =? pos then v else _intsetGet iset (i - 1).
Proof.
  intros (Henc & Hlen & Hbuf & Hs) Hbound Hfit Hpos r iset1 iset'.
  destruct (width_of_valid _ Henc) as [Hw Ew].
  unfold iset', iset1, r. rewrite add_plain_contents by (auto; lia).
  unfold set_length. cbn [encoding length contents].
  rewrite wrap32_small by lia.
  destruct (insert_elems junk (width_of (encoding iset)) (contents iset)
              (Z.to_nat (length iset)) (Z.to_nat pos) v Hw Hbuf ltac:(lia) Hfit)
    as [Hl Hel].
  split; [reflexivity|]. split; [reflexivity|]. split.
  { rewrite Hl. f_equal. lia. }
  intros i Hi. rewrite get_elem by lia. cbn [encoding contents].
  rewrite Hel by lia.
  destruct (Nat.ltb_spec (Z.to_nat i) (Z.to_nat pos)), (Z.ltb_spec i pos); try lia.
  - rewrite get_elem by lia. reflexivity.
  - destruct (Nat.eqb_spec (Z.to_nat i) (Z.to_nat pos)), (Z.eqb_spec i pos);
      try lia; try reflexivity.
    rewrite get_elem by lia. do 2 f_equal. lia.
Qed.

Lemma get_fits iset i :
  inv iset -> 0 <= i < length iset -> fits (width_of (encoding iset)) (_intsetGet iset i).
Proof.
  intros (Henc & Hlen & Hbuf & Hs) Hi. destruct (width_of_valid _ Henc) as [Hw Ew].
  rewrite get_elem by lia. apply elem_fits; [exact Hw|]. rewrite Hbuf.
  destruct Hw as [-> | [-> | ->]]; lia.
Qed.

Ltac split_ifs :=
  repeat match goal with
         | |- context [Z.ltb ?a ?b] => destruct (Z.ltb_spec a b)
         | |- context [Z.eqb ?a ?b] => destruct (Z.eqb_spec a b)
         end.

(** What [intsetAdd] leaves: a set that satisfies the invariant, wide enough
    for the value, one element longer at most, and holding the value. *)
Lemma intsetAdd_spec iset v :
  inv iset -> int64 v -> length iset + 1 < 2 ^ 28 ->
  let iset' := fst (intsetAdd junk iset v) in
  inv iset' /\ _intsetValueEncoding v <= encoding iset' /\
  encoding iset <= encoding iset' /\
  length iset <= length iset' <= length iset + 1 /\
  exists i, 0 <= i < length iset' /\ _intsetGet iset' i = v.
Proof.
  intros Hinv Hv Hbound. pose proof Hinv as (Henc & Hlen & Hbuf & Hs).
  unfold intsetAdd.
  destruct (Z.ltb_spec (encoding iset) (_intsetValueEncoding v)) as [Hup|Hfit].
  - cbn [fst].
    destruct (upgrade_spec iset v Hinv Hv Hbound Hup) as (E1 & E2 & E3 & Hget).
    split; [|split; [lia|split; [lia|split; [lia|]]]].
    + split; [rewrite E1; apply valenc_valid|]. split; [lia|].
      split; [rewrite E1, E2; exact E3|].
      intros i j Hi Hij Hj. rewrite E2 in Hj. rewrite !Hget by lia.
      assert (Hout : forall x, 0 <= x < length iset ->
                (v < 0 -> v < _intsetGet iset x) /\ (0 <= v -> _intsetGet iset x < v)).
      { intros x Hx. apply (valenc_outside v (encoding iset)); auto.
        apply get_fits; auto. }
      split_ifs; try lia; try (apply Hs; lia); apply Hout; lia.
    + destruct (Z.ltb_spec v 0).
      * exists 0. split; [lia|]. rewrite Hget by lia.
        destruct (Z.ltb_spec v 0); [|lia]. reflexivity.
      * exists (length iset). split; [lia|]. rewrite Hget by lia.
        destruct (Z.ltb_spec v 0); [lia|]. rewrite Z.eqb_refl. reflexivity.
  - pose proof (search_spec iset v Hinv) as Hsearch.
    destruct (intsetSearch iset v) as [found pos]. cbn [fst snd] in Hsearch.
    destruct Hsearch as [(-> & Hpos & Hfound)|(-> & Hpos & Hlo & Hhi)].
    + change (1 =? 1) with true. cbv iota. cbn [fst].
      split; [exact Hinv|]. split; [lia|]. split; [lia|]. split; [lia|].
      exists pos. auto.
    + change (0 =? 1) with false. cbv iota. cbn [fst].
      assert (Hfits : fits (width_of (encoding iset)) v) by (apply valenc_fits; auto).
      destruct (add_plain_spec iset pos v Hinv Hbound Hfits Hpos) as (E1 & E2 & E3 & Hget).
      split; [|split; [lia|split; [lia|split; [lia|]]]].
      * split; [rewrite E1; exact Henc|]. split; [lia|].
        split; [rewrite E1, E2; exact E3|].
        intros i j Hi Hij Hj. rewrite E2 in Hj. rewrite !Hget by lia.
        split_ifs; try lia; first [apply Hs; lia | apply Hlo; lia | apply Hhi; lia].
      * exists pos. split; [lia|]. rewrite Hget by lia.
        destruct (Z.ltb_spec pos pos); [lia|]. rewrite Z.eqb_refl. reflexivity.
Qed.

(** What [intsetRemove] leaves: the invariant holds and the value is gone. *)
Lemma intsetRemove_spec iset v :
  inv iset ->
  let iset' := fst (intsetRemove junk iset v) in
  inv iset' /\ encoding iset' = encoding iset /\ length iset' <= length iset /\
  forall i, 0 <= i < length iset' -> _intsetGet iset' i <> v.
Proof.
  intros Hinv. pose proof Hinv as (Henc & Hlen & Hbuf & Hs).
  destruct (width_of_valid _ Henc) as [Hw Ew].
  pose proof (search_spec iset v Hinv) as Hsearch.
  unfold intsetRemove.
  destruct (Z.leb_spec (_intsetValueEncoding v) (encoding iset)) as [Hfit|Hwide]; cbn [andb].
  - destruct Hsearch as [(E & Hpos & Hfound)|(E & Hpos & Hlo & Hhi)]; rewrite E.
    + change (1 =? 1) with true. cbv iota. cbn [fst].
      set (pos := snd (intsetSearch iset v)) in *.
      rewrite remove_contents by (auto; lia).
      unfold set_length. cbn [encoding length contents].
      rewrite wrap32_small by lia.
      destruct (remove_elems junk (width_of (encoding iset)) (contents iset)
                  (Z.to_nat (length iset)) (Z.to_nat pos) Hw Hbuf ltac:(lia))
        as [Hl Hel].
      assert (Hget : forall i, 0 <= i < length iset - 1 ->
        _intsetGet (Intset (encoding iset) (length iset - 1)
          (resize ((Z.to_nat (length iset) - 1) * width_of (encoding iset)) junk
            (if (Z.to_nat pos <? Z.to_nat (length iset) - 1)%nat
             then list_inserts (Z.to_nat pos * width_of (encoding iset))
                    (slice ((Z.to_nat pos + 1) * width_of (encoding iset))
                       ((Z.to_nat (length iset) - (Z.to_nat pos + 1)) *
                        width_of (encoding iset)) (contents iset)) (contents iset)
             else contents iset))) i =
        if i <? pos then _intsetGet iset i else _intsetGet iset (i + 1)).
      { intros i Hi. rewrite get_elem by lia. cbn [encoding contents].
        rewrite Hel by lia.
        destruct (Nat.ltb_spec (Z.to_nat i) (Z.to_nat pos)), (Z.ltb_spec i pos); try lia;
          rewrite get_elem by lia; do 2 f_equal; lia. }
      split; [|split; [reflexivity|split; [lia|]]].
      * split; [exact Henc|]. split; [cbn [length]; lia|]. split.
        { cbn [encoding length contents]. rewrite Hl. f_equal. lia. }
        intros i j Hi Hij Hj. cbn [length] in Hj. rewrite !Hget by lia.
        split_ifs; try lia; apply Hs; lia.
      * intros i Hi. rewrite Hget by lia.
        destruct (Z.ltb_spec i pos).
        -- pose proof (Hs i pos ltac:(lia) ltac:(lia) ltac:(lia)). lia.
        -- pose proof (Hs pos (i + 1) ltac:(lia) ltac:(lia) ltac:(lia)). lia.
    + change (0 =? 1) with false. cbv iota. cbn [fst].
      split; [exact Hinv|]. split; [reflexivity|]. split; [lia|].
      intros i Hi. destruct (Z.lt_ge_cases i (snd (intsetSearch iset v))).
      * pose proof (Hlo i ltac:(lia)). lia.
      * pose proof (Hhi i ltac:(lia)). lia.
  - destruct (Z.leb_spec (_intsetValueEncoding v) (encoding iset)); [lia|]. cbn [andb fst].
    split; [exact Hinv|]. split; [reflexivity|]. split; [lia|].
    intros i Hi.
    pose proof (valenc_outside v (encoding iset) Henc ltac:(lia) _ (get_fits iset i Hinv Hi)).
    lia.
Qed.

End Operations.

(** *** The properties of section 8.1 *)

Inductive op : Type :=
  | Add (v : Z)
  | Remove (v : Z).

Definition op_value (o : op) : Z :=
  match o with
  | Add v => v
  | Remove v => v
  end.

Definition apply_op (junk : byte) (iset : intset) (o : op) : intset :=
  match o with
  | Add v => fst (intsetAdd junk iset v)
  | Remove v => fst (intsetRemove junk iset v)
  end.

(** The set reached from [intsetNew] by a sequence of operations. *)
Definition run (junk : byte) (ops : list op) : intset :=
  fold_left (apply_op junk) ops intsetNew.

Lemma inv_new : inv intsetNew.
Proof.
  split; [left; reflexivity|]. split; [cbn; lia|]. split; [reflexivity|].
  intros i j Hi Hij Hj. cbn in Hj. lia.
Qed.

Lemma inv_run junk (ops : list op) :
  forall iset n,
    inv iset -> length iset <= n -> n + Z.of_nat (List.length ops) < 2 ^ 28 ->
    Forall (fun o => int64 (op_value o)) ops ->
    inv (fold_left (apply_op junk) ops iset).
Proof.
  induction ops as [|o ops IH]; intros iset n Hinv Hn Hb Hall; [exact Hinv|].
  cbn [fold_left]. cbn [List.length] in Hb.
  inversion Hall as [|? ? Ho Hrest]; subst.
  destruct o as [v|v]; cbn [apply_op op_value] in *.
  - destruct (intsetAdd_spec junk iset v Hinv Ho ltac:(lia)) as (Hinv' & _ & _ & Hlen & _).
    apply (IH _ (n + 1)); auto; lia.
  - destruct (intsetRemove_spec junk iset v Hinv) as (Hinv' & _ & Hlen & _).
    apply (IH _ n); auto; lia.
Qed.



Lemma find_of_member iset v :
  inv iset -> _intsetValueEncoding v <= encoding iset ->
  (exists i, 0 <= i < length iset /\ _intsetGet iset i = v) ->
  intsetFind iset v = true.
Proof.
  intros Hinv Hfit (i & Hi & E). unfold intsetFind.
  destruct (Z.leb_spec (_intsetValueEncoding v) (encoding iset)); [|lia]. cbn [andb].
  destruct (search_spec iset v Hinv) as [(-> & _)|(_ & Hpos & Hlo & Hhi)]; [reflexivity|].
  exfalso. destruct (Z.lt_ge_cases i (snd (intsetSearch iset v))).
  - pose proof (Hlo i ltac:(lia)). lia.
  - pose proof (Hhi i ltac:(lia)). lia.
Qed.

Lemma find_of_absent iset v :
  inv iset -> (forall i, 0 <= i < length iset -> _intsetGet iset i <> v) ->
  intsetFind iset v = false.
Proof.
  intros Hinv Habs. unfold intsetFind.
  destruct (search_spec iset v Hinv) as [(_ & Hpos & E)|(-> & _)].
  - exfalso. apply (Habs _ Hpos E).
  - apply andb_false_r.
Qed.





Example random_of_three : intsetRandom (build Byte.x00 [5; 6; 4]) 7 = Some 5.
Proof. reflexivity. Qed.

Example random_of_empty : intsetRandom intsetNew 7 = None.
Proof. reflexivity. Qed.

(** *** The set of values *)

(** [intsetBlobLen]: [sizeof(intset)] is the two [uint32_t] of the header. *)
Definition intsetBlobLen (iset : intset) : Z :=
  8 + wrap32 (length iset * encoding iset).

Lemma elems_in iset w :
  0 <= length iset ->
  In w (elems iset) <-> exists i, 0 <= i < length iset /\ _intsetGet iset i = w.
Proof.
  intros Hl. unfold elems. rewrite in_map_iff. split.
  - intros (n & E & Hn). apply in_seq in Hn. exists (Z.of_nat n). split; [lia | exact E].
  - intros (i & Hi & E). exists (Z.to_nat i). split.
    + rewrite Z2Nat.id by lia. exact E.
    + apply in_seq. lia.
Qed.

Lemma member_fits iset w :
  inv iset -> In w (elems iset) -> _intsetValueEncoding w <= encoding iset.
Proof.
  intros Hinv Hin. pose proof Hinv as (Henc & Hlen & _).
  apply elems_in in Hin as (i & Hi & E); [|lia].
  pose proof (get_fits iset i Hinv Hi) as Hf. rewrite E in Hf.
  destruct (Z.le_gt_cases (_intsetValueEncoding w) (encoding iset)) as [H|H]; [exact H|].
  pose proof (valenc_outside w (encoding iset) Henc ltac:(lia) w Hf). lia.
Qed.

(** [intsetFind] against the values stored. *)
Lemma find_iff_member (iset : intset) (w : Z) :
  inv iset -> (intsetFind iset w = true <-> In w (elems iset)).
Proof.
  intros Hinv. pose proof Hinv as (_ & Hlen & _). split.
  - intros Hf. destruct (in_dec Z.eq_dec w (elems iset)) as [H|H]; [exact H|].
    rewrite find_of_absent in Hf; [discriminate | exact Hinv|].
    intros i Hi E. apply H. apply elems_in; [lia|]. exists i. auto.
  - intros Hin. apply find_of_member; [exact Hinv | apply member_fits; assumption|].
    apply elems_in; [lia | exact Hin].
Qed.

Ltac case_ifs :=
  repeat match goal with
         | |- context [Z.ltb ?a ?b] => destruct (Z.ltb_spec a b)
         | |- context [Z.eqb ?a ?b] => destruct (Z.eqb_spec a b)
         end.

Section SetOfValues.

Variable junk : byte.

(** What a removal that finds its value leaves at every position. *)
Lemma remove_get iset v :
  inv iset -> _intsetValueEncoding v <= encoding iset ->
  fst (intsetSearch iset v) = 1 ->
  intsetRemove junk iset v =
    (fst (intsetRemove junk iset v), 1) /\
  encoding (fst (intsetRemove junk iset v)) = encoding iset /\
  length (fst (intsetRemove junk iset v)) = length iset - 1 /\
  0 <= snd (intsetSearch iset v) < length iset /\
  _intsetGet iset (snd (intsetSearch iset v)) = v /\
  forall i, 0 <= i < length iset - 1 ->
    _intsetGet (fst (intsetRemove junk iset v)) i =
    if i <? snd (intsetSearch iset v) then _intsetGet iset i else _intsetGet iset (i + 1).
Proof.
  intros Hinv Hfit Hfound. pose proof Hinv as (Henc & Hlen & Hbuf & Hs).
  destruct (width_of_valid _ Henc) as [Hw Ew].
  pose proof (search_spec iset v Hinv) as Hsearch.
  destruct Hsearch as [(_ & Hpos & Hv)|(E & _)]; [|congruence].
  unfold intsetRemove.
  destruct (Z.leb_spec (_intsetValueEncoding v) (encoding iset)); [|lia]. cbn [andb].
  rewrite Hfound. change (1 =? 1) with true. cbv iota. cbn [fst].
  set (pos := snd (intsetSearch iset v)) in *.
  rewrite remove_contents by (auto; lia).
  unfold set_length. cbn [encoding length contents].
  rewrite wrap32_small by lia.
  destruct (remove_elems junk (width_of (encoding iset)) (contents iset)
              (Z.to_nat (length iset)) (Z.to_nat pos) Hw Hbuf ltac:(lia))
    as [Hl Hel].
  split; [reflexivity|]. split; [reflexivity|]. split; [reflexivity|].
  split; [exact Hpos|]. split; [exact Hv|].
  intros i Hi. rewrite get_elem by lia. cbn [encoding contents].
  rewrite Hel by lia.
  destruct (Nat.ltb_spec (Z.to_nat i) (Z.to_nat pos)), (Z.ltb_spec i pos); try lia;
    rewrite get_elem by lia; do 2 f_equal; lia.
Qed.

(** [intsetAdd] against the values stored. *)
Lemma add_values (iset : intset) (v : Z) :
  inv iset -> int64 v -> length iset + 1 < 2 ^ 28 ->
  inv (fst (intsetAdd junk iset v)) /\
  (forall w, In w (elems (fst (intsetAdd junk iset v))) <-> w = v \/ In w (elems iset)) /\
  snd (intsetAdd junk iset v) = (if intsetFind iset v then 0 else 1) /\
  length (fst (intsetAdd junk iset v)) = length iset + snd (intsetAdd junk iset v) /\
  encoding (fst (intsetAdd junk iset v)) =
    Z.max (encoding iset) (_intsetValueEncoding v) /\
  (intsetFind iset v = true -> fst (intsetAdd junk iset v) = iset).
Proof.
  intros Hinv Hv Hbound. pose proof Hinv as (Henc & Hlen & Hbuf & Hs).
  destruct (intsetAdd_spec junk iset v Hinv Hv Hbound) as (Hinv' & _).
  split; [exact Hinv'|]. pose proof Hinv' as (_ & Hlen' & _).
  revert Hinv' Hlen'. unfold intsetAdd, intsetFind.
  destruct (Z.ltb_spec (encoding iset) (_intsetValueEncoding v)) as [Hup|Hfit].
  - cbn [fst snd]. intros Hinv' Hlen'.
    destruct (Z.leb_spec (_intsetValueEncoding v) (encoding iset)); [lia|]. cbn [andb].
    destruct (upgrade_spec junk iset v Hinv Hv Hbound Hup) as (E1 & E2 & E3 & Hget).
    split; [|split; [reflexivity|split; [lia|split; [lia|discriminate]]]].
    intros w. rewrite (elems_in _ w) by lia. rewrite (elems_in iset w) by lia. rewrite E2.
    split.
    + intros (i & Hi & E). rewrite Hget in E by lia. revert E. case_ifs; intros E;
        try (left; congruence); right.
      * exists (i - 1). split; [lia | exact E].
      * exists i. split; [lia | exact E].
    + intros [->|(i & Hi & E)].
      * destruct (Z.ltb_spec v 0).
        -- exists 0. split; [lia|]. rewrite Hget by lia.
           destruct (Z.ltb_spec v 0); [|lia]. reflexivity.
        -- exists (length iset). split; [lia|]. rewrite Hget by lia.
           destruct (Z.ltb_spec v 0); [lia|]. rewrite Z.eqb_refl. reflexivity.
      * destruct (Z.ltb_spec v 0).
        -- exists (i + 1). split; [lia|]. rewrite Hget by lia.
           destruct (Z.ltb_spec v 0); [|lia].
           destruct (Z.eqb_spec (i + 1) 0); [lia|].
           replace (i + 1 - 1) with i by lia. exact E.
        -- exists i. split; [lia|]. rewrite Hget by lia.
           destruct (Z.ltb_spec v 0); [lia|].
           destruct (Z.eqb_spec i (length iset)); [lia|]. exact E.
  - destruct (Z.leb_spec (_intsetValueEncoding v) (encoding iset)); [|lia]. cbn [andb].
    pose proof (search_spec iset v Hinv) as Hsearch.
    destruct (intsetSearch iset v) as [found pos]. cbn [fst snd] in Hsearch |- *.
    destruct Hsearch as [(-> & Hpos & Hfound)|(-> & Hpos & Hlo & Hhi)].
    + change (1 =? 1) with true. cbv iota. cbn [fst snd]. intros _ _.
      split; [|split; [reflexivity|split; [lia|split; [lia|reflexivity]]]].
      intros w. split; [auto|]. intros [->|Hw]; [|exact Hw].
      apply elems_in; [lia|]. exists pos. auto.
    + change (0 =? 1) with false. cbv iota. cbn [fst snd]. intros Hinv' Hlen'.
      assert (Hfits : fits (width_of (encoding iset)) v) by (apply valenc_fits; auto).
      destruct (add_plain_spec junk iset pos v Hinv Hbound Hfits Hpos) as (E1 & E2 & E3 & Hget).
      cbv zeta in E1, E2, E3, Hget.
      split; [|split; [reflexivity|split; [exact E2|split; [rewrite E1; lia|discriminate]]]].
      intros w. rewrite (elems_in _ w) by lia. rewrite (elems_in iset w) by lia. rewrite E2.
      split.
      * intros (i & Hi & E). rewrite Hget in E by lia. revert E. case_ifs; intros E;
          try (left; congruence); right.
        -- exists i. split; [lia | exact E].
        -- exists (i - 1). split; [lia | exact E].
      * intros [->|(i & Hi & E)].
        -- exists pos. split; [lia|]. rewrite Hget by lia.
           destruct (Z.ltb_spec pos pos); [lia|]. rewrite Z.eqb_refl. reflexivity.
        -- destruct (Z.lt_ge_cases i pos).
           ++ exists i. split; [lia|]. rewrite Hget by lia.
              destruct (Z.ltb_spec i pos); [|lia]. exact E.
           ++ exists (i + 1). split; [lia|]. rewrite Hget by lia.
              destruct (Z.ltb_spec (i + 1) pos); [lia|].
              destruct (Z.eqb_spec (i + 1) pos); [lia|].
              replace (i + 1 - 1) with i by lia. exact E.
Qed.

(** [intsetRemove] against the values stored. *)
Lemma remove_values (iset : intset) (v : Z) :
  inv iset ->
  inv (fst (intsetRemove junk iset v)) /\
  (forall w, In w (elems (fst (intsetRemove junk iset v))) <->
             w <> v /\ In w (elems iset)) /\
  snd (intsetRemove junk iset v) = (if intsetFind iset v then 1 else 0) /\
  length (fst (intsetRemove junk iset v)) = length iset - snd (intsetRemove junk iset v) /\
  encoding (fst (intsetRemove junk iset v)) = encoding iset /\
  (intsetFind iset v = false -> fst (intsetRemove junk iset v) = iset).
Proof.
  intros Hinv. pose proof Hinv as (Henc & Hlen & Hbuf & Hs).
  destruct (intsetRemove_spec junk iset v Hinv) as (Hinv' & Henc' & _ & Hgone).
  split; [exact Hinv'|]. pose proof Hinv' as (_ & Hlen' & _).
  destruct (intsetFind iset v) eqn:Hfind.
  - unfold intsetFind in Hfind. apply andb_true_iff in Hfind as [Hfit Hfound].
    apply Z.leb_le in Hfit. apply Z.eqb_eq in Hfound.
    destruct (remove_get iset v Hinv Hfit Hfound) as (Er & _ & El & Hpos & Hv & Hget).
    split; [|split; [rewrite Er; reflexivity|split; [rewrite Er; cbn [fst snd]; lia|
             split; [exact Henc'|discriminate]]]].
    intros w. rewrite (elems_in _ w) by lia. rewrite (elems_in iset w) by lia. rewrite El.
    set (pos := snd (intsetSearch iset v)) in *.
    split.
    + intros (i & Hi & E). split.
      * intros ->. apply (Hgone i); [lia | exact E].
      * rewrite Hget in E by lia. destruct (Z.ltb_spec i pos).
        -- exists i. split; [lia | exact E].
        -- exists (i + 1). split; [lia | exact E].
    + intros (Hne & i & Hi & E).
      destruct (Z.lt_trichotomy i pos) as [Hlt|[Heq|Hgt]].
      * exists i. split; [lia|]. rewrite Hget by lia.
        destruct (Z.ltb_spec i pos); [exact E | lia].
      * exfalso. subst i. congruence.
      * exists (i - 1). split; [lia|]. rewrite Hget by lia.
        destruct (Z.ltb_spec (i - 1) pos); [lia|].
        replace (i - 1 + 1) with i by lia. exact E.
  - assert (Er : intsetRemove junk iset v = (iset, 0)).
    { unfold intsetRemove. unfold intsetFind in Hfind. rewrite Hfind. reflexivity. }
    rewrite Er. cbn [fst snd].
    split; [|split; [reflexivity|split; [lia|split; [reflexivity|reflexivity]]]].
    intros w. split; [|tauto]. intros Hin. split; [|exact Hin].
    intros ->. apply (find_iff_member iset v Hinv) in Hin. congruence.
Qed.

End SetOfValues.

(** X1. [intsetFind] decides membership: on a set that satisfies the
    invariant it is true exactly for the values stored, whatever their
    width. *)
Theorem intsetFind_decides_membership (iset : intset) (w : Z) :
  inv iset -> (intsetFind iset w = true <-> In w (elems iset)).
Proof. exact (find_iff_member iset w). Qed.


(** X3. [intsetRemove] removes the value from the set of values and
    nothing else. [*success] is 1 exactly when the value was there, and the
    length then drops by one; otherwise the set is returned as it was. The
    encoding never narrows, even when the only wide value goes. *)
Theorem intsetRemove_set (junk : byte) (iset : intset) (v : Z) :
  inv iset ->
  inv (fst (intsetRemove junk iset v)) /\
  (forall w, In w (elems (fst (intsetRemove junk iset v))) <->
             w <> v /\ In w (elems iset)) /\
  snd (intsetRemove junk iset v) = (if intsetFind iset v then 1 else 0) /\
  length (fst (intsetRemove junk iset v)) = length iset - snd (intsetRemove junk iset v) /\
  encoding (fst (intsetRemove junk iset v)) = encoding iset /\
  (intsetFind iset v = false -> fst (intsetRemove junk iset v) = iset).
Proof. exact (remove_values junk iset v). Qed.

(** The values an abstract set holds after a sequence of operations. *)
Definition apply_values (vs : list Z) (o : op) : list Z :=
  match o with
  | Add v => v :: vs
  | Remove v => List.filter (fun w => negb (w =? v)) vs
  end.

(** X4. The intset is a set of integers: after any sequence of
    [intsetAdd] and [intsetRemove] from [intsetNew] it stores exactly the
    values added and not removed since, and [intsetFind] finds exactly
    those. *)
Theorem intset_refines_set (junk : byte) (ops : list op) (w : Z) :
  Forall (fun o => int64 (op_value o)) ops ->
  Z.of_nat (List.length ops) < 2 ^ 28 ->
  (In w (elems (run junk ops)) <-> In w (fold_left apply_values ops [])) /\
  (intsetFind (run junk ops) w = true <-> In w (fold_left apply_values ops [])).
Proof.
  intros Hall Hb.
  assert (Hgen : forall ops iset vs n,
            inv iset -> length iset <= n -> n + Z.of_nat (List.length ops) < 2 ^ 28 ->
            Forall (fun o => int64 (op_value o)) ops ->
            (forall x, In x (elems iset) <-> In x vs) ->
            inv (fold_left (apply_op junk) ops iset) /\
            forall x, In x (elems (fold_left (apply_op junk) ops iset)) <->
                      In x (fold_left apply_values ops vs)).
  { clear. induction ops as [|o ops IH]; intros iset vs n Hinv Hn Hb Hall Hsame;
      [split; assumption|].
    cbn [fold_left]. cbn [List.length] in Hb.
    inversion Hall as [|? ? Ho Hrest]; subst.
    destruct o as [v|v]; cbn [apply_op apply_values op_value] in *.
    - destruct (add_values junk iset v Hinv Ho ltac:(lia))
        as (Hinv' & Hmem & Hsucc & Hl & _).
      apply (IH _ _ (n + 1) Hinv'); [|lia|exact Hrest|].
      + rewrite Hl, Hsucc. destruct (intsetFind iset v); lia.
      + intros x. rewrite Hmem. cbn [In]. rewrite Hsame. intuition congruence.
    - destruct (remove_values junk iset v Hinv) as (Hinv' & Hmem & Hsucc & Hl & _).
      apply (IH _ _ n Hinv'); [|lia|exact Hrest|].
      + rewrite Hl, Hsucc. destruct (intsetFind iset v); lia.
      + intros x. rewrite Hmem, filter_In, Hsame, negb_true_iff, Z.eqb_neq. tauto. }
  destruct (Hgen ops intsetNew [] 0 inv_new) as [Hinv Hmem];
    [cbn; lia | lia | exact Hall | intros x; cbn; tauto |].
  split; [apply Hmem|].
  rewrite (find_iff_member _ w Hinv). apply Hmem.
Qed.

(** X5. [intsetBlobLen] is the size of what is allocated: the 8 bytes of
    the header and the bytes of the buffer, one encoding width per
    element. *)
Theorem intsetBlobLen_is_allocation (iset : intset) :
  inv iset ->
  intsetBlobLen iset = 8 + Z.of_nat (List.length (contents iset)) /\
  intsetBlobLen iset = 8 + intsetLen iset * encoding iset.
Proof.
  intros (Henc & Hlen & Hbuf & _). destruct (width_of_valid _ Henc) as [_ Ew].
  unfold intsetBlobLen, intsetLen.
  assert (He : 2 <= encoding iset <= 8).
  { destruct Henc as [-> | [-> | ->]];
      unfold INTSET_ENC_INT16, INTSET_ENC_INT32, INTSET_ENC_INT64; lia. }
  rewrite wrap32_small by nia. split; [|reflexivity].
  rewrite Hbuf, Nat2Z.inj_mul, Ew, Z2Nat.id by lia. reflexivity.
Qed.

Lemma inv_build_564 : inv (build Byte.x00 [5; 6; 4]).
Proof.
  apply (inv_run Byte.x00 [Add 5; Add 6; Add 4] intsetNew 0 inv_new); cbn; try lia.
  repeat constructor; cbn; lia.
Qed.

Lemma intsetFind_decides_membership_witness :
  intsetFind (build Byte.x00 [5; 6; 4]) 6 = true <-> In 6 (elems (build Byte.x00 [5; 6; 4])).
Proof.
  apply (intsetFind_decides_membership (build Byte.x00 [5; 6; 4]) 6). exact inv_build_564.
Defined.


Lemma intsetRemove_set_witness :
  snd (intsetRemove Byte.x00 (build Byte.x00 [5; 6; 4]) 5) = 1 /\
  length (fst (intsetRemove Byte.x00 (build Byte.x00 [5; 6; 4]) 5)) = 2 /\
  (In 5 (elems (fst (intsetRemove Byte.x00 (build Byte.x00 [5; 6; 4]) 5))) <->
   5 <> 5 /\ In 5 (elems (build Byte.x00 [5; 6; 4]))).
Proof.
  destruct (intsetRemove_set Byte.x00 (build Byte.x00 [5; 6; 4]) 5)
    as (_ & Hmem & Hs & Hl & _).
  - exact inv_build_564.
  - split; [exact Hs|]. split; [|apply Hmem]. rewrite Hl, Hs. reflexivity.
Defined.

Lemma intset_refines_set_witness :
  (In 6 (elems (run Byte.x00 [Add 5; Add 6; Remove 5; Add 70000])) <->
   In 6 [70000; 6]) /\
  (intsetFind (run Byte.x00 [Add 5; Add 6; Remove 5; Add 70000]) 6 = true <->
   In 6 [70000; 6]).
Proof.
  apply (intset_refines_set Byte.x00 [Add 5; Add 6; Remove 5; Add 70000] 6).
  - repeat constructor; cbn; lia.
  - cbn; lia.
Defined.

Lemma intsetBlobLen_is_allocation_witness :
  intsetBlobLen (build Byte.x00 [5; 6; 4]) =
    8 + Z.of_nat (List.length (contents (build Byte.x00 [5; 6; 4]))) /\
  intsetBlobLen (build Byte.x00 [5; 6; 4]) =
    8 + intsetLen (build Byte.x00 [5; 6; 4]) * encoding (build Byte.x00 [5; 6; 4]).
Proof. apply (intsetBlobLen_is_allocation (build Byte.x00 [5; 6; 4])), inv_build_564. Defined.

(** X16. [intsetSearch] is a binary search that is right: on a set that
    satisfies the invariant it returns 1 and the position of the value
    when the value is stored, and otherwise 0 and the position where the
    value belongs, with every smaller element before it and every greater
    one from it on. *)
Theorem intsetSearch_finds_position (iset : intset) (v : Z) :
  inv iset ->
  (fst (intsetSearch iset v) = 1 /\
   0 <= snd (intsetSearch iset v) < length iset /\
   _intsetGet iset (snd (intsetSearch iset v)) = v) \/
  (fst (intsetSearch iset v) = 0 /\
   0 <= snd (intsetSearch iset v) <= length iset /\
   (forall i, 0 <= i < snd (intsetSearch iset v) -> _intsetGet iset i < v) /\
   (forall i, snd (intsetSearch iset v) <= i < length iset -> v < _intsetGet iset i)).
Proof. exact (search_spec iset v). Qed.

(** X17. Writing and reading an element. [_intsetSet] at a position
    inside the buffer changes no other element, and [_intsetGet] reads the
    value back exactly when the encoding of the set is at least the one
    [_intsetValueEncoding] gives for the value: that encoding is enough,
    and no narrower one is. *)
Theorem intsetSet_get_round_trip (iset : intset) (pos v : Z) :
  valid_enc (encoding iset) -> int64 v -> 0 <= pos ->
  (pos + 1) * encoding iset <= Z.of_nat (List.length (contents iset)) ->
  (_intsetValueEncoding v <= encoding iset <->
   _intsetGet (_intsetSet iset pos v) pos = v) /\
  (forall pos', 0 <= pos' -> pos' <> pos ->
     _intsetGet (_intsetSet iset pos v) pos' = _intsetGet iset pos') /\
  List.length (contents (_intsetSet iset pos v)) = List.length (contents iset).
Proof.
  intros Henc Hv Hpos Hroom. destruct (width_of_valid _ Henc) as [Hw Ew].
  rewrite set_put by exact Hpos.
  assert (Hl : ((Z.to_nat pos + 1) * width_of (encoding iset) <=
                List.length (contents iset))%nat) by nia.
  split; [|split].
  - rewrite get_elem by exact Hpos. cbn [encoding contents set_contents]. split.
    + intros Hfit. apply elem_put_same; [exact Hw | exact Hl|].
      apply valenc_fits; assumption.
    + intros E.
      destruct (Z.le_gt_cases (_intsetValueEncoding v) (encoding iset)) as [H|H]; [exact H|].
      exfalso.
      pose proof (elem_fits (width_of (encoding iset))
                    (put (width_of (encoding iset)) (contents iset) (Z.to_nat pos) v)
                    (Z.to_nat pos) Hw ltac:(rewrite put_length; exact Hl)) as Hf.
      rewrite E in Hf.
      pose proof (valenc_outside v (encoding iset) Henc ltac:(lia) v Hf). lia.
  - intros pos' Hp' Hne. rewrite !get_elem by exact Hp'.
    cbn [encoding contents set_contents]. apply elem_put_other; [exact Hw | lia].
  - cbn [contents set_contents]. apply put_length.
Qed.

Lemma intsetSearch_finds_position_witness :
  (fst (intsetSearch (build Byte.x00 [5; 6; 4]) 7) = 1 /\
   0 <= snd (intsetSearch (build Byte.x00 [5; 6; 4]) 7) < length (build Byte.x00 [5; 6; 4]) /\
   _intsetGet (build Byte.x00 [5; 6; 4]) (snd (intsetSearch (build Byte.x00 [5; 6; 4]) 7)) = 7) \/
  (fst (intsetSearch (build Byte.x00 [5; 6; 4]) 7) = 0 /\
   0 <= snd (intsetSearch (build Byte.x00 [5; 6; 4]) 7) <= length (build Byte.x00 [5; 6; 4]) /\
   (forall i, 0 <= i < snd (intsetSearch (build Byte.x00 [5; 6; 4]) 7) ->
      _intsetGet (build Byte.x00 [5; 6; 4]) i < 7) /\
   (forall i, snd (intsetSearch (build Byte.x00 [5; 6; 4]) 7) <= i <
              length (build Byte.x00 [5; 6; 4]) ->
      7 < _intsetGet (build Byte.x00 [5; 6; 4]) i)).
Proof.
  apply (intsetSearch_finds_position (build Byte.x00 [5; 6; 4]) 7). exact inv_build_564.
Defined.

Lemma intsetSet_get_round_trip_witness :
  (_intsetValueEncoding 300 <= encoding (build Byte.x00 [5; 6; 4]) <->
   _intsetGet (_intsetSet (build Byte.x00 [5; 6; 4]) 1 300) 1 = 300) /\
  (forall pos', 0 <= pos' -> pos' <> 1 ->
     _intsetGet (_intsetSet (build Byte.x00 [5; 6; 4]) 1 300) pos' =
     _intsetGet (build Byte.x00 [5; 6; 4]) pos') /\
  List.length (contents (_intsetSet (build Byte.x00 [5; 6; 4]) 1 300)) =
    List.length (contents (build Byte.x00 [5; 6; 4])).
Proof.
  apply (intsetSet_get_round_trip (build Byte.x00 [5; 6; 4]) 1 300).
  - left. reflexivity.
  - unfold int64. lia.
  - lia.
  - vm_compute. discriminate.
Defined.

End IntSet.

(** ** t_hash.c: the hash object *)

Module Hash.

Import Dict.

(** Modelled from the spec: sds.h is not among the sources; an sds is a
    byte string that knows its length. *)
Definition sds : Type := string.
Bind Scope string_scope with sds.

Definition sdslen (s : sds) : Z := Z.of_nat (String.length s).

(** Modelled from the spec: ziplist.c is not among the sources; this is
    the packed list of sections 3.3 and 4.3, a black box to the core. An
    entry is a byte string or an inline integer, which is what [ziplistGet]
    hands back ([*sstr] and [*slen], or [*sval]). *)
Inductive zlentry : Type :=
  | ZStr (s : sds)
  | ZInt (v : Z).

Definition ziplist : Type := list zlentry.

(** Modelled from the spec: server.h is not among the sources; this is the
    representation tag of section 3.3 with its payload. A hash object is
    ziplist-encoded or dict-encoded; the string objects of a command line
    are sds-encoded (raw or embedded) or integer-encoded, and are the
    [else] of the functions on hashes below. *)
Inductive robj : Type :=
  | ZiplistObj (zl : ziplist)
  | HtObj (d : dict sds sds)
  | SdsObj (s : sds)
  | IntObj (v : Z).

Inductive encoding : Type :=
  | OBJ_ENCODING_RAW
  | OBJ_ENCODING_INT
  | OBJ_ENCODING_HT
  | OBJ_ENCODING_ZIPLIST.

Definition encoding_of (o : robj) : encoding :=
  match o with
  | ZiplistObj _ => OBJ_ENCODING_ZIPLIST
  | HtObj _ => OBJ_ENCODING_HT
  | SdsObj _ => OBJ_ENCODING_RAW
  | IntObj _ => OBJ_ENCODING_INT
  end.

(** The [what] of the iterator functions, and the two results of the
    functions that return C_OK or C_ERR. *)
Inductive hash_what : Type :=
  | OBJ_HASH_KEY
  | OBJ_HASH_VALUE.

Inductive status : Type :=
  | C_OK
  | C_ERR.

Section Hash.

Variable dict_can_resize : bool.
Variable zcalloc : Z -> Z.

(** [server.hash_max_ziplist_entries] and [server.hash_max_ziplist_value] *)
Variable hash_max_ziplist_entries : Z.
Variable hash_max_ziplist_value : Z.

(** Modelled from the spec: [hashDictType] is defined in server.c, which
    is not among the sources. Its hash callback is the seeded hash of
    section 4.2, any function here; its comparison callback is equality of
    byte strings. *)
Variable dictSdsHash : sds -> Z.

Definition hashDictType : dictType sds := DictType dictSdsHash String.eqb.

(** Modelled from the spec: the inline integer a packed list stores in
    place of a byte string that spells one (ziplist.c), and the byte string
    of an integer (sds.c); neither file is among the sources. *)
Variable zipTryEncoding : sds -> option Z.
Variable sdsfromlonglong : Z -> sds.

(** Modelled from the spec: the interface of ziplist.c, as section 4.3
    uses it: lookup is linear, an update deletes the value node in place
    and inserts the new one, an append pushes at the tail. A pointer into
    the list is the index of an entry, NULL is [None]. *)
Definition zl_encode (s : sds) : zlentry :=
  match zipTryEncoding s with
  | Some v => ZInt v
  | None => ZStr s
  end.

Definition zl_compare (e : zlentry) (s : sds) : bool :=
  match e with
  | ZStr s' => String.eqb s' s
  | ZInt v => match zipTryEncoding s with
              | Some v' => v =? v'
              | None => false
              end
  end.

Definition ZIPLIST_HEAD : nat := 0.

Definition ziplistLen (zl : ziplist) : Z := Z.of_nat (List.length zl).

Definition ziplistIndex (zl : ziplist) (index : nat) : option nat :=
  if (index <? List.length zl)%nat then Some index else None.

Definition ziplistNext (zl : ziplist) (p : nat) : option nat :=
  if (S p <? List.length zl)%nat then Some (S p) else None.

Definition ziplistGet (zl : ziplist) (p : nat) : option zlentry := zl !! p.

Fixpoint find_loop (es : list zlentry) (p : nat) (s : sds) (skip skipcnt : nat)
    : option nat :=
  match es with
  | [] => None
  | e :: es' =>
      match skipcnt with
      | O => if zl_compare e s then Some p else find_loop es' (S p) s skip skip
      | S c => find_loop es' (S p) s skip c
      end
  end.

Definition ziplistFind (zl : ziplist) (p : nat) (s : sds) (skip : nat) : option nat :=
  find_loop (drop p zl) p s skip 0.

(** After [ziplistDelete(zl,&p)] the pointer is at the entry that followed. *)
Definition ziplistDelete (zl : ziplist) (p : nat) : ziplist := delete p zl.

Definition ziplistInsert (zl : ziplist) (p : nat) (s : sds) : ziplist :=
  take p zl ++ zl_encode s :: drop p zl.

(** [ziplistPush(zl, s, slen, ZIPLIST_TAIL)] *)
Definition ziplistPush (zl : ziplist) (s : sds) : ziplist := zl ++ [zl_encode s].

(** *** t_hash.c *)

(** [sdsEncodedObject(o) && sdslen(o->ptr) > server.hash_max_ziplist_value] *)
Definition too_long (a : robj) : bool :=
  match a with
  | SdsObj s => hash_max_ziplist_value <? sdslen s
  | _ => false
  end.

(** [hashTypeGetFromZiplist]: 0 with the entry is [Some], -1 is [None]. *)
Definition hashTypeGetFromZiplist (o : robj) (field : sds) : outcome (option zlentry) :=
  match o with
  | ZiplistObj zl =>
      letM vptr :=
        match ziplistIndex zl ZIPLIST_HEAD with
        | Some fptr =>
            match ziplistFind zl fptr field 1 with
            | Some fptr =>
                match ziplistNext zl fptr with
                | Some vptr => Ret (Some vptr)
                | None => Panic
                end
            | None => Ret None
            end
        | None => Ret None
        end in
      match vptr with
      | Some vptr =>
          match ziplistGet zl vptr with
          | Some e => Ret (Some e)
          | None => Panic
          end
      | None => Ret None
      end
  | _ => Panic
  end.

(** [hashTypeGetFromHashTable]: the value (or NULL), and the object, whose
    dict [dictFind] may have rehashed by a step. *)
Definition hashTypeGetFromHashTable (o : robj) (field : sds) : outcome (option sds * robj) :=
  match o with
  | HtObj d =>
      letM '(de, d) := dictFind d field in
      match de with
      | None => Ret (None, HtObj d)
      | Some de => Ret (Some (val de), HtObj d)
      end
  | _ => Panic
  end.

(** [hashTypeGetValue]: C_OK with the value in [*vstr] and [*vlen] or in
    [*vll] is [Some], C_ERR is [None]. *)
Definition hashTypeGetValue (o : robj) (field : sds) : outcome (option zlentry * robj) :=
  match o with
  | ZiplistObj _ =>
      letM r := hashTypeGetFromZiplist o field in Ret (r, o)
  | HtObj _ =>
      letM '(value, o) := hashTypeGetFromHashTable o field in
      match value with
      | Some value => Ret (Some (ZStr value), o)
      | None => Ret (None, o)
      end
  | _ => Panic
  end.

Definition hashTypeLength (o : robj) : outcome Z :=
  match o with
  | ZiplistObj zl => Ret (ziplistLen zl / 2)
  | HtObj d => Ret (dictSize d)
  | _ => Panic
  end.

(** The iterator; [subject] is passed along with it. *)
Inductive hashTypeIterator : Type :=
  | ZiplistIter (fptr vptr : option nat)
  | HtIter (di : dictIterator sds sds) (de : option (dictEntry sds sds)).

Definition hashTypeInitIterator (subject : robj) : outcome hashTypeIterator :=
  match subject with
  | ZiplistObj _ => Ret (ZiplistIter None None)
  | HtObj d => Ret (HtIter (dictGetIterator d) None)
  | _ => Panic
  end.

Definition hashTypeReleaseIterator (hi : hashTypeIterator) (subject : robj) : outcome robj :=
  match hi, subject with
  | HtIter di _, HtObj d => letM d := dictReleaseIterator di d in Ret (HtObj d)
  | HtIter _ _, _ => Panic
  | ZiplistIter _ _, _ => Ret subject
  end.

(** [hashTypeNext]; an iterator on an object that has changed encoding
    under it is outside the model. [fuel] bounds the walk of [dictNext]
    over empty buckets. *)
Definition hashTypeNext (fuel : nat) (hi : hashTypeIterator) (subject : robj)
    : outcome (status * hashTypeIterator * robj) :=
  match hi, subject with
  | ZiplistIter fptr vptr, ZiplistObj zl =>
      letM fptr :=
        match fptr with
        | None =>
            match vptr with
            | None => Ret (ziplistIndex zl 0)
            | Some _ => Panic
            end
        | Some _ =>
            match vptr with
            | Some vptr => Ret (ziplistNext zl vptr)
            | None => Panic
            end
        end in
      match fptr with
      | None => Ret (C_ERR, hi, subject)
      | Some fptr =>
          match ziplistNext zl fptr with
          | Some vptr => Ret (C_OK, ZiplistIter (Some fptr) (Some vptr), subject)
          | None => Panic
          end
      end
  | HtIter di _, HtObj d =>
      letM '(de, di, d) := dictNext fuel di d in
      match de with
      | None => Ret (C_ERR, HtIter di None, HtObj d)
      | Some _ => Ret (C_OK, HtIter di de, HtObj d)
      end
  | _, _ => Panic
  end.

Definition hashTypeCurrentFromZiplist (hi : hashTypeIterator) (subject : robj)
    (what : hash_what) : outcome zlentry :=
  match hi, subject with
  | ZiplistIter fptr vptr, ZiplistObj zl =>
      match (match what with OBJ_HASH_KEY => fptr | OBJ_HASH_VALUE => vptr end) with
      | Some p =>
          match ziplistGet zl p with
          | Some e => Ret e
          | None => Panic
          end
      | None => Panic
      end
  | _, _ => Panic
  end.

Definition hashTypeCurrentFromHashTable (hi : hashTypeIterator) (what : hash_what)
    : outcome sds :=
  match hi with
  | HtIter _ (Some de) =>
      match what with
      | OBJ_HASH_KEY => Ret (key de)
      | OBJ_HASH_VALUE => Ret (val de)
      end
  | _ => Panic
  end.

Definition hashTypeCurrentObject (hi : hashTypeIterator) (subject : robj)
    (what : hash_what) : outcome zlentry :=
  match hi with
  | ZiplistIter _ _ => hashTypeCurrentFromZiplist hi subject what
  | HtIter _ _ => letM ele := hashTypeCurrentFromHashTable hi what in Ret (ZStr ele)
  end.

Definition hashTypeCurrentObjectNewSds (hi : hashTypeIterator) (subject : robj)
    (what : hash_what) : outcome sds :=
  letM e := hashTypeCurrentObject hi subject what in
  match e with
  | ZStr vstr => Ret vstr
  | ZInt vll => Ret (sdsfromlonglong vll)
  end.

(** The [while (hashTypeNext(hi) != C_ERR)] of [hashTypeConvertZiplist]. *)
Fixpoint convert_loop (fuel : nat) (hi : hashTypeIterator) (o : robj)
    (d : dict sds sds) : outcome (hashTypeIterator * dict sds sds) :=
  match fuel with
  | O => NoFuel
  | S fuel' =>
      letM '(r, hi, o) := hashTypeNext fuel hi o in
      match r with
      | C_ERR => Ret (hi, d)
      | C_OK =>
          letM key := hashTypeCurrentObjectNewSds hi o OBJ_HASH_KEY in
          letM value := hashTypeCurrentObjectNewSds hi o OBJ_HASH_VALUE in
          letM '(ret, d) := dictAdd dict_can_resize zcalloc d key value in
          if ret =? DICT_OK then convert_loop fuel' hi o d
          else Panic
      end
  end.

Definition hashTypeConvertZiplist (fuel : nat) (o : robj) (enc : encoding) : outcome robj :=
  match o with
  | ZiplistObj _ =>
      match enc with
      | OBJ_ENCODING_ZIPLIST => Ret o
      | OBJ_ENCODING_HT =>
          letM hi := hashTypeInitIterator o in
          let d := dictCreate hashDictType in
          letM '(hi, d) := convert_loop fuel hi o d in
          letM _ := hashTypeReleaseIterator hi o in
          Ret (HtObj d)
      | _ => Panic
      end
  | _ => Panic
  end.

Definition hashTypeConvert (fuel : nat) (o : robj) (enc : encoding) : outcome robj :=
  match o with
  | ZiplistObj _ => hashTypeConvertZiplist fuel o enc
  | _ => Panic
  end.

(** [hashTypeTryConversion(o, argv, start, end)]: the loop looks at
    [argv[start..end]]. *)
Definition hashTypeTryConversion (fuel : nat) (o : robj) (argv : list robj)
    (start end_ : nat) : outcome robj :=
  match o with
  | ZiplistObj _ =>
      if existsb too_long (take (S end_ - start) (drop start argv))
      then hashTypeConvert fuel o OBJ_ENCODING_HT
      else Ret o
  | _ => Ret o
  end.

(** [hashTypeSet]: [update] and the object. The flags say who frees the
    two strings and change nothing else. *)
Definition hashTypeSet (fuel : nat) (o : robj) (field value : sds) : outcome (Z * robj) :=
  match o with
  | ZiplistObj zl =>
      letM '(update, zl) :=
        match ziplistIndex zl ZIPLIST_HEAD with
        | Some fptr =>
            match ziplistFind zl fptr field 1 with
            | Some fptr =>
                match ziplistNext zl fptr with
                | Some vptr =>
                    let zl := ziplistDelete zl vptr in
                    Ret (1, ziplistInsert zl vptr value)
                | None => Panic
                end
            | None => Ret (0, zl)
            end
        | None => Ret (0, zl)
        end in
      let zl := if update =? 0 then ziplistPush (ziplistPush zl field) value else zl in
      let o := ZiplistObj zl in
      letM len := hashTypeLength o in
      if hash_max_ziplist_entries <? len then
        letM o := hashTypeConvert fuel o OBJ_ENCODING_HT in Ret (update, o)
      else Ret (update, o)
  | HtObj d =>
      letM '(de, d) := dictFind d field in
      match de with
      | Some _ => Ret (1, HtObj (set_entry_val d field value))
      | None =>
          letM '(_, d) := dictAdd dict_can_resize zcalloc d field value in
          Ret (0, HtObj d)
      end
  | _ => Panic
  end.

(** *** The packed list as a list of pairs *)

Definition zl_decode (e : zlentry) : sds :=
  match e with
  | ZStr s => s
  | ZInt v => sdsfromlonglong v
  end.

(** An entry is what the packed list stores for the string it stands for. *)
Definition canonical (e : zlentry) : Prop := zl_encode (zl_decode e) = e.

Fixpoint flat (ps : list (zlentry * zlentry)) : ziplist :=
  match ps with
  | [] => []
  | (f, v) :: r => f :: v :: flat r
  end.

Definition fields (ps : list (zlentry * zlentry)) : list sds :=
  map (fun p => zl_decode (fst p)) ps.

Definition packed_ok (ps : list (zlentry * zlentry)) : Prop :=
  Forall (fun p => canonical (fst p)) ps /\ NoDup (fields ps).

Definition has_field (ps : list (zlentry * zlentry)) (field : sds) : bool :=
  existsb (fun p => zl_compare (fst p) field) ps.

(** What a set does to the pairs: the value of the field is replaced
    where the field is, or the pair is added at the tail. *)
Fixpoint pairs_set (ps : list (zlentry * zlentry)) (field value : sds)
    : list (zlentry * zlentry) :=
  match ps with
  | [] => [(zl_encode field, zl_encode value)]
  | (f, v) :: r =>
      if zl_compare f field then (f, zl_encode value) :: r
      else (f, v) :: pairs_set r field value
  end.

Fixpoint find_pair (ps : list (zlentry * zlentry)) (field : sds) : option nat :=
  match ps with
  | [] => None
  | (f, v) :: r =>
      if zl_compare f field then Some 0%nat else option_map S (find_pair r field)
  end.

Definition to_entry (p : zlentry * zlentry) : dictEntry sds sds :=
  DictEntry (zl_decode (fst p)) (zl_decode (snd p)).

Hypothesis alloc : alloc_ok zcalloc.
Hypothesis encoding_round_trip :
  forall s v, zipTryEncoding s = Some v -> sdsfromlonglong v = s.

Lemma decode_encode s : zl_decode (zl_encode s) = s.
Proof.
  unfold zl_encode. destruct (zipTryEncoding s) eqn:E; cbn [zl_decode]; [|reflexivity].
  apply encoding_round_trip, E.
Qed.

Lemma encode_canonical s : canonical (zl_encode s).
Proof. unfold canonical. rewrite decode_encode. reflexivity. Qed.

Lemma compare_decode e s : canonical e -> zl_compare e s = true <-> zl_decode e = s.
Proof.
  intros Hc. destruct e as [s'|v]; cbn [zl_compare zl_decode].
  - apply String.eqb_eq.
  - unfold canonical, zl_encode in Hc. cbn [zl_decode] in Hc.
    destruct (zipTryEncoding (sdsfromlonglong v)) as [v'|] eqn:E; [|discriminate].
    injection Hc as ->. split.
    + destruct (zipTryEncoding s) as [v'|] eqn:Es; [|discriminate].
      intros Hv. apply Z.eqb_eq in Hv. subst v'. apply encoding_round_trip, Es.
    + intros <-. rewrite E. apply Z.eqb_refl.
Qed.

Lemma flat_length ps : List.length (flat ps) = (2 * List.length ps)%nat.
Proof. induction ps as [|[f v] r IH]; cbn [flat List.length]; lia. Qed.

Lemma flat_lookup ps (n : nat) f v :
  ps !! n = Some (f, v) ->
  flat ps !! (2 * n)%nat = Some f /\ flat ps !! (2 * n + 1)%nat = Some v.
Proof.
  revert n. induction ps as [|[f' v'] r IH]; intros n E; [discriminate|].
  destruct n as [|n]; cbn [flat].
  - injection E as -> ->. split; reflexivity.
  - replace (2 * S n)%nat with (S (S (2 * n))) by lia.
    replace (S (S (2 * n)) + 1)%nat with (S (S (2 * n + 1))) by lia.
    cbn [lookup list_lookup]. apply IH, E.
Qed.

Lemma flat_app ps qs : flat (ps ++ qs) = flat ps ++ flat qs.
Proof. induction ps as [|[f v] r IH]; cbn [flat app]; [reflexivity|]. rewrite IH. reflexivity. Qed.

Lemma find_loop_flat ps field :
  forall p, find_loop (flat ps) p field 1 0 =
            option_map (fun i => (p + 2 * i)%nat) (find_pair ps field).
Proof.
  induction ps as [|[f v] r IH]; intros p; cbn [flat find_loop find_pair]; [reflexivity|].
  destruct (zl_compare f field).
  - cbn [option_map]. f_equal. lia.
  - rewrite IH. destruct (find_pair r field); cbn [option_map]; [|reflexivity]. f_equal. lia.
Qed.

Lemma find_pair_has ps field :
  find_pair ps field = None <-> has_field ps field = false.
Proof.
  induction ps as [|[f v] r IH]; cbn [find_pair has_field existsb fst]; [tauto|].
  destruct (zl_compare f field); cbn [orb]; [split; discriminate|].
  fold (has_field r field). rewrite <- IH.
  destruct (find_pair r field); cbn [option_map]; split; congruence.
Qed.

Lemma pairs_set_absent ps field value :
  find_pair ps field = None ->
  pairs_set ps field value = ps ++ [(zl_encode field, zl_encode value)].
Proof.
  induction ps as [|[f v] r IH]; cbn [find_pair pairs_set app]; [reflexivity|].
  destruct (zl_compare f field); [discriminate|].
  destruct (find_pair r field) eqn:E; [discriminate|]. intros _. rewrite IH; reflexivity.
Qed.

Lemma pairs_set_present ps field value :
  forall i, find_pair ps field = Some i ->
    (i < List.length ps)%nat /\
    flat (pairs_set ps field value) = <[(2 * i + 1)%nat := zl_encode value]> (flat ps) /\
    List.length (pairs_set ps field value) = List.length ps.
Proof.
  induction ps as [|[f v] r IH]; intros i; cbn [find_pair pairs_set]; [discriminate|].
  destruct (zl_compare f field).
  - intros [= <-]. cbn [List.length flat]. split; [lia|]. split; reflexivity.
  - destruct (find_pair r field) as [j|] eqn:E; [|discriminate].
    intros [= <-]. destruct (IH j eq_refl) as (Hj & Hf & Hl).
    cbn [List.length flat]. split; [lia|]. split; [|lia].
    rewrite Hf. replace (2 * S j + 1)%nat with (S (S (2 * j + 1))) by lia. reflexivity.
Qed.

Lemma delete_insert_at (l : ziplist) (j : nat) x :
  (j < List.length l)%nat ->
  take j (delete j l) ++ x :: drop j (delete j l) = <[j := x]> l.
Proof.
  revert j. induction l as [|y l IH]; intros j Hj; [cbn in Hj; lia|].
  destruct j as [|j]; [reflexivity|]. cbn [List.length] in Hj.
  cbn [delete list_delete take drop app insert list_insert].
  f_equal. apply IH. lia.
Qed.

(** [hashTypeSet] on a ziplist-encoded hash, in terms of the pairs. *)
Lemma hashTypeSet_ziplist fuel ps field value :
  hashTypeSet fuel (ZiplistObj (flat ps)) field value =
    if hash_max_ziplist_entries <? Z.of_nat (List.length (pairs_set ps field value)) then
      letM o := hashTypeConvert fuel (ZiplistObj (flat (pairs_set ps field value)))
                  OBJ_ENCODING_HT in
      Ret (if has_field ps field then 1 else 0, o)
    else
      Ret (if has_field ps field then 1 else 0, ZiplistObj (flat (pairs_set ps field value))).
Proof.
  assert (Hlen : forall qs, ziplistLen (flat qs) / 2 = Z.of_nat (List.length qs)).
  { intros qs. unfold ziplistLen. rewrite flat_length, Nat2Z.inj_mul.
    change (Z.of_nat 2) with 2. rewrite Z.mul_comm. apply Z.div_mul. lia. }
  unfold hashTypeSet, ziplistFind, ZIPLIST_HEAD, ziplistIndex. rewrite flat_length.
  destruct (find_pair ps field) as [i|] eqn:Ef.
  - destruct (pairs_set_present ps field value i Ef) as (Hi & Hflat & Hl).
    assert (Hhas : has_field ps field = true).
    { destruct (has_field ps field) eqn:E; [reflexivity|].
      apply find_pair_has in E. congruence. }
    destruct (Nat.ltb_spec 0 (2 * List.length ps)) as [_|Hbad]; [|lia].
    rewrite drop_0, find_loop_flat, Ef. cbn [option_map].
    unfold ziplistNext. rewrite flat_length.
    destruct (Nat.ltb_spec (S (0 + 2 * i)) (2 * List.length ps)) as [_|Hbad]; [|lia].
    cbn [bind]. change (1 =? 0) with false. cbv iota.
    unfold ziplistInsert, ziplistDelete.
    rewrite delete_insert_at by (rewrite flat_length; lia).
    replace (S (0 + 2 * i)) with (2 * i + 1)%nat by lia. rewrite <- Hflat.
    cbn [hashTypeLength bind]. rewrite Hlen, Hhas. reflexivity.
  - assert (Hhas : has_field ps field = false) by (apply find_pair_has, Ef).
    rewrite (pairs_set_absent ps field value Ef).
    assert (Hflat : flat ps ++ [zl_encode field; zl_encode value] =
                    flat (ps ++ [(zl_encode field, zl_encode value)])).
    { rewrite flat_app. reflexivity. }
    destruct (0 <? 2 * List.length ps)%nat;
      [rewrite drop_0, find_loop_flat, Ef; cbn [option_map]|];
      cbn [bind]; change (0 =? 0) with true; cbv iota;
      unfold ziplistPush; rewrite <- app_assoc; cbn [app]; rewrite Hflat;
      cbn [hashTypeLength bind]; rewrite Hlen, Hhas; reflexivity.
Qed.

Lemma pairs_set_ok ps field value :
  packed_ok ps ->
  packed_ok (pairs_set ps field value) /\
  fields (pairs_set ps field value) =
    (if has_field ps field then fields ps else fields ps ++ [field]).
Proof.
  unfold packed_ok. induction ps as [|[f v] r IH]; intros [Hc Hnd].
  - cbn [pairs_set fields map fst has_field existsb app]. rewrite decode_encode.
    split; [split|reflexivity].
    + constructor; [apply encode_canonical | constructor].
    + apply NoDup_singleton.
  - apply Forall_cons in Hc as [Hf Hc]. cbn [fields map fst] in Hnd.
    apply NoDup_cons in Hnd as [Hx Hnd]. fold (fields r) in Hx, Hnd.
    cbn [pairs_set has_field existsb fst]. fold (has_field r field).
    destruct (zl_compare f field) eqn:E; cbn [orb].
    + split; [split|reflexivity].
      * constructor; [exact Hf | exact Hc].
      * cbn [fields map fst]. apply NoDup_cons. split; assumption.
    + destruct (IH (conj Hc Hnd)) as [[Hc' Hnd'] Hfl].
      assert (Hne : zl_decode f <> field).
      { intros Heq. apply (compare_decode f field Hf) in Heq. congruence. }
      split; [split|].
      * constructor; [exact Hf | exact Hc'].
      * cbn [fields map fst]. fold (fields (pairs_set r field value)).
        apply NoDup_cons. split; [|exact Hnd']. rewrite Hfl.
        destruct (has_field r field); [exact Hx|].
        intros Hin. apply elem_of_app in Hin as [Hin|Hin]; [exact (Hx Hin)|].
        apply list_elem_of_singleton in Hin. congruence.
      * cbn [fields map fst]. fold (fields (pairs_set r field value)). rewrite Hfl.
        destruct (has_field r field); reflexivity.
Qed.

(** *** Conversion to a hash table *)

(** The iterator after [n] pairs. *)
Definition iter_at (n : nat) : hashTypeIterator :=
  match n with
  | O => ZiplistIter None None
  | S m => ZiplistIter (Some (2 * m)%nat) (Some (2 * m + 1)%nat)
  end.

Lemma hashTypeNext_at fuel ps n :
  hashTypeNext fuel (iter_at n) (ZiplistObj (flat ps)) =
    if (n <? List.length ps)%nat then Ret (C_OK, iter_at (S n), ZiplistObj (flat ps))
    else Ret (C_ERR, iter_at n, ZiplistObj (flat ps)).
Proof.
  unfold hashTypeNext, ziplistIndex, ziplistNext. rewrite !flat_length.
  destruct n as [|n]; cbn [iter_at bind].
  - destruct (Nat.ltb_spec 0 (List.length ps)) as [Hlt|Hge].
    + destruct (Nat.ltb_spec 0 (2 * List.length ps)); [|lia]. cbn [bind].
      destruct (Nat.ltb_spec 1 (2 * List.length ps)); [|lia]. reflexivity.
    + destruct (Nat.ltb_spec 0 (2 * List.length ps)); [lia|]. reflexivity.
  - destruct (Nat.ltb_spec (S n) (List.length ps)) as [Hlt|Hge].
    + destruct (Nat.ltb_spec (S (2 * n + 1)) (2 * List.length ps)); [|lia]. cbn [bind].
      destruct (Nat.ltb_spec (S (S (2 * n + 1))) (2 * List.length ps)); [|lia].
      replace (S (2 * n + 1)) with (2 * S n)%nat by lia.
      replace (S (2 * S n)) with (2 * S n + 1)%nat by lia. reflexivity.
    + destruct (Nat.ltb_spec (S (2 * n + 1)) (2 * List.length ps)); [lia|]. reflexivity.
Qed.

Lemma current_at ps n f v :
  ps !! n = Some (f, v) ->
  hashTypeCurrentObjectNewSds (iter_at (S n)) (ZiplistObj (flat ps)) OBJ_HASH_KEY =
    Ret (zl_decode f) /\
  hashTypeCurrentObjectNewSds (iter_at (S n)) (ZiplistObj (flat ps)) OBJ_HASH_VALUE =
    Ret (zl_decode v).
Proof.
  intros E. destruct (flat_lookup ps n f v E) as [Hf Hv].
  unfold hashTypeCurrentObjectNewSds, hashTypeCurrentObject, hashTypeCurrentFromZiplist,
    ziplistGet. cbn [iter_at]. rewrite Hf, Hv. cbn [bind].
  split; [destruct f | destruct v]; reflexivity.
Qed.

Lemma hashDictType_compare : compare_eq hashDictType.
Proof. intros a b. apply String.eqb_eq. Qed.

Lemma convert_loop_spec ps :
  NoDup (fields ps) -> Z.of_nat (List.length ps) < 2 ^ 62 ->
  forall (k n : nat) (d : dict sds sds) (fuel : nat),
    (n + k = List.length ps)%nat -> (k < fuel)%nat ->
    dict_ok d -> type d = hashDictType ->
    dict_entries d ≡ₚ map to_entry (take n ps) ->
    exists d',
      convert_loop fuel (iter_at n) (ZiplistObj (flat ps)) d =
        Ret (iter_at (List.length ps), d') /\
      dict_ok d' /\ type d' = hashDictType /\
      dict_entries d' ≡ₚ map to_entry ps.
Proof.
  intros Hnd Hsz. induction k as [|k IH]; intros n d fuel Hn Hf Hok Hty Hent;
    (destruct fuel as [|fuel]; [lia|]); cbn [convert_loop]; rewrite hashTypeNext_at.
  - destruct (Nat.ltb_spec n (List.length ps)); [lia|]. cbn [bind].
    exists d. replace n with (List.length ps) in * by lia.
    rewrite firstn_all in Hent. auto.
  - destruct (Nat.ltb_spec n (List.length ps)) as [Hlt|]; [|lia]. cbn [bind].
    destruct (lookup_lt_is_Some_2 ps n Hlt) as [[f v] E].
    destruct (current_at ps n f v E) as [Ek Ev]. rewrite Ek, Ev. cbn [bind].
    destruct (dictAdd_spec dict_can_resize zcalloc d (zl_decode f) (zl_decode v) alloc Hok)
      as (d1 & Ea & Hok1 & Hty1 & _ & Hent1).
    { rewrite (dictSize_entries d) by apply Hok.
      rewrite (Permutation_length Hent), length_map, length_take. lia. }
    { intros e He Hk. apply (Permutation_in _ Hent) in He.
      apply in_map_iff in He as ([f' v'] & <- & Hin). cbn [to_entry key fst] in Hk.
      rewrite <- (take_drop_middle ps n (f, v) E) in Hnd.
      unfold fields in Hnd. rewrite map_app in Hnd. cbn [map fst] in Hnd.
      apply NoDup_app in Hnd as (_ & Hdis & _).
      apply (Hdis (zl_decode f)).
      - rewrite <- Hk. apply list_elem_of_In.
        apply (in_map (fun p => zl_decode (fst p)) _ _ Hin).
      - left. }
    rewrite Ea. cbn [bind]. change (DICT_OK =? DICT_OK) with true. cbv iota.
    apply IH; try lia; [exact Hok1 | congruence |].
    rewrite Hent1, (take_S_r ps n (f, v) E), map_app. cbn [map].
    rewrite Hent. apply Permutation_cons_append.
Qed.

Lemma hashTypeConvert_spec ps fuel :
  NoDup (fields ps) -> Z.of_nat (List.length ps) < 2 ^ 62 ->
  (List.length ps < fuel)%nat ->
  exists d,
    hashTypeConvert fuel (ZiplistObj (flat ps)) OBJ_ENCODING_HT = Ret (HtObj d) /\
    dict_ok d /\ type d = hashDictType /\ dict_entries d ≡ₚ map to_entry ps.
Proof.
  intros Hnd Hsz Hf.
  destruct (dictCreate_ok (V:=sds) hashDictType hashDictType_compare) as [Hok0 Hent0].
  destruct (convert_loop_spec ps Hnd Hsz (List.length ps) 0 (dictCreate hashDictType) fuel)
    as (d & E & Hok & Hty & Hent);
    [reflexivity | exact Hf | exact Hok0 | reflexivity | rewrite Hent0; reflexivity |].
  exists d. unfold hashTypeConvert, hashTypeConvertZiplist. cbn [hashTypeInitIterator bind].
  change (ZiplistIter None None) with (iter_at 0). rewrite E. cbn [bind].
  split; [|auto]. destruct (List.length ps); reflexivity.
Qed.

(** A pair the dict holds is what [hashTypeGetValue] returns. *)
Lemma hashTypeGetValue_ht (d : dict sds sds) field value :
  dict_ok d -> In (DictEntry field value) (dict_entries d) ->
  exists d',
    hashTypeGetValue (HtObj d) field = Ret (Some (ZStr value), HtObj d') /\
    dict_ok d' /\ type d' = type d /\ dict_entries d' ≡ₚ dict_entries d.
Proof.
  intros Hok Hin.
  destruct (dictFind_spec d field Hok) as (r & d' & E & Hok' & Hty & _ & Hent & Hhit & _).
  rewrite (Hhit _ Hin eq_refl) in E.
  exists d'. unfold hashTypeGetValue, hashTypeGetFromHashTable. rewrite E. cbn [bind val].
  auto.
Qed.

(** *** The conversion triggers *)

Lemma pairs_set_length ps field value :
  packed_ok ps ->
  Z.of_nat (List.length (pairs_set ps field value)) =
    Z.of_nat (List.length ps) + 1 - (if has_field ps field then 1 else 0).
Proof.
  intros Hok. destruct (pairs_set_ok ps field value Hok) as [_ Hfl].
  apply (f_equal (@List.length sds)) in Hfl. unfold fields in Hfl at 1.
  rewrite length_map in Hfl. rewrite Hfl.
  destruct (has_field ps field); unfold fields;
    rewrite ?length_app, length_map; cbn [List.length]; lia.
Qed.

(** The entry-count trigger of [hashTypeSet]. *)
Lemma set_count_trigger ps field value fuel :
  packed_ok ps -> Z.of_nat (List.length ps) < 2 ^ 61 ->
  (List.length ps + 1 < fuel)%nat ->
  (Z.of_nat (List.length (pairs_set ps field value)) <= hash_max_ziplist_entries ->
   hashTypeSet fuel (ZiplistObj (flat ps)) field value =
     Ret (if has_field ps field then 1 else 0,
          ZiplistObj (flat (pairs_set ps field value)))) /\
  (hash_max_ziplist_entries < Z.of_nat (List.length (pairs_set ps field value)) ->
   exists d,
     hashTypeSet fuel (ZiplistObj (flat ps)) field value =
       Ret (if has_field ps field then 1 else 0, HtObj d) /\
     dict_ok d /\ type d = hashDictType /\
     dict_entries d ≡ₚ map to_entry (pairs_set ps field value)).
Proof.
  intros Hok Hsz Hf. rewrite hashTypeSet_ziplist.
  pose proof (pairs_set_length ps field value Hok) as Hl.
  destruct (pairs_set_ok ps field value Hok) as [[_ Hnd] _].
  split; intros Hcmp.
  - destruct (Z.ltb_spec hash_max_ziplist_entries
                (Z.of_nat (List.length (pairs_set ps field value)))); [lia | reflexivity].
  - destruct (Z.ltb_spec hash_max_ziplist_entries
                (Z.of_nat (List.length (pairs_set ps field value)))); [|lia].
    destruct (hashTypeConvert_spec (pairs_set ps field value) fuel Hnd)
      as (d & E & Hd); [destruct (has_field ps field); lia.. |].
    exists d. rewrite E. cbn [bind]. split; [reflexivity | exact Hd].
Qed.

(** The byte-length trigger of [hashTypeTryConversion]. *)
Lemma try_conversion_trigger ps (argv : list robj) (start end_ : nat) fuel :
  packed_ok ps -> Z.of_nat (List.length ps) < 2 ^ 61 -> (List.length ps < fuel)%nat ->
  existsb too_long (take (S end_ - start) (drop start argv)) = true ->
  exists d,
    hashTypeTryConversion fuel (ZiplistObj (flat ps)) argv start end_ = Ret (HtObj d) /\
    dict_ok d /\ type d = hashDictType /\ dict_entries d ≡ₚ map to_entry ps.
Proof.
  intros [_ Hnd] Hsz Hf Hlong. unfold hashTypeTryConversion. rewrite Hlong.
  apply hashTypeConvert_spec; [exact Hnd | lia | exact Hf].
Qed.

(** [hashTypeSet] on a dict-encoded hash returns, and the hash stays
    dict-encoded. *)
Lemma set_ht_stays (d : dict sds sds) field value fuel :
  dict_ok d -> dictSize d < 2 ^ 62 ->
  exists update d', hashTypeSet fuel (HtObj d) field value = Ret (update, HtObj d').
Proof.
  intros Hok Hsz. unfold hashTypeSet.
  destruct (dictFind_spec d field Hok) as (r & d1 & E & Hok1 & _ & _ & Hent & Hhit & _).
  rewrite E. cbn [bind]. destruct r as [e|].
  - eexists _, _. reflexivity.
  - destruct (dictAdd_spec dict_can_resize zcalloc d1 field value alloc Hok1)
      as (d2 & Ea & _).
    + rewrite (dictSize_entries d1) by apply Hok1.
      rewrite (Permutation_length Hent), <- (dictSize_entries d) by apply Hok. exact Hsz.
    + intros e He Hk. apply (Permutation_in _ Hent) in He.
      specialize (Hhit e He Hk). discriminate.
    + rewrite Ea. cbn [bind]. eexists _, _. reflexivity.
Qed.

Lemma compare_encode s t : zl_compare (zl_encode s) t = String.eqb s t.
Proof.
  destruct (String.eqb_spec s t) as [->|Hne].
  - apply compare_decode; [apply encode_canonical | apply decode_encode].
  - destruct (zl_compare (zl_encode s) t) eqn:E; [|reflexivity].
    apply compare_decode in E; [|apply encode_canonical].
    rewrite decode_encode in E. contradiction.
Qed.

(** The scenario of section 8.4, whatever the hash function and the
    integer encoding of the packed list. *)
Definition pair_of (f v : sds) : zlentry * zlentry := (zl_encode f, zl_encode v).

Lemma to_entry_pair f v : to_entry (pair_of f v) = DictEntry f v.
Proof. unfold to_entry, pair_of. cbn [fst snd]. rewrite !decode_encode. reflexivity. Qed.

Lemma packed_ok_pairs (l : list (sds * sds)) :
  NoDup (map fst l) -> packed_ok (map (fun p => pair_of (fst p) (snd p)) l).
Proof.
  intros Hnd. split.
  - apply Forall_forall. intros x Hx. apply list_elem_of_In, in_map_iff in Hx as (p & <- & _).
    apply encode_canonical.
  - unfold fields. rewrite map_map. erewrite map_ext; [exact Hnd|].
    intros p. cbn [pair_of fst]. apply decode_encode.
Qed.

Lemma scenario_sets fuel :
  hash_max_ziplist_entries = 3 -> (5 < fuel)%nat ->
  hashTypeSet fuel (ZiplistObj []) "a" "1" =
    Ret (0, ZiplistObj (flat [pair_of "a" "1"])) /\
  hashTypeSet fuel (ZiplistObj (flat [pair_of "a" "1"])) "b" "2" =
    Ret (0, ZiplistObj (flat [pair_of "a" "1"; pair_of "b" "2"])) /\
  hashTypeSet fuel (ZiplistObj (flat [pair_of "a" "1"; pair_of "b" "2"])) "c" "3" =
    Ret (0, ZiplistObj (flat [pair_of "a" "1"; pair_of "b" "2"; pair_of "c" "3"])) /\
  exists d,
    hashTypeSet fuel (ZiplistObj (flat [pair_of "a" "1"; pair_of "b" "2"; pair_of "c" "3"]))
      "d" "4" = Ret (0, HtObj d) /\
    forall f v, In (f, v) [("a", "1"); ("b", "2"); ("c", "3"); ("d", "4")]%string ->
      exists d', hashTypeGetValue (HtObj d) f = Ret (Some (ZStr v), HtObj d').
Proof.
  intros Hmax Hf.
  split; [|split; [|split]].
  - change (@nil zlentry) with (flat []). rewrite hashTypeSet_ziplist, Hmax. reflexivity.
  - rewrite hashTypeSet_ziplist, Hmax. unfold pair_of.
    cbn [pairs_set has_field existsb fst]. rewrite !compare_encode. reflexivity.
  - rewrite hashTypeSet_ziplist, Hmax. unfold pair_of.
    cbn [pairs_set has_field existsb fst]. rewrite !compare_encode. reflexivity.
  - destruct (set_count_trigger [pair_of "a" "1"; pair_of "b" "2"; pair_of "c" "3"]
                "d" "4" fuel) as [_ Hconv].
    { apply (packed_ok_pairs [("a", "1"); ("b", "2"); ("c", "3")]%string).
      cbn [map fst].
      repeat (apply NoDup_cons; split;
              [rewrite ?elem_of_cons, elem_of_nil; intuition discriminate|]).
      apply NoDup_nil_2. }
    { cbn [List.length]. lia. }
    { cbn [List.length]. lia. }
    assert (Eps : pairs_set [pair_of "a" "1"; pair_of "b" "2"; pair_of "c" "3"] "d" "4" =
                  [pair_of "a" "1"; pair_of "b" "2"; pair_of "c" "3"; pair_of "d" "4"]).
    { unfold pair_of. cbn [pairs_set]. rewrite !compare_encode. reflexivity. }
    assert (Ehas : has_field [pair_of "a" "1"; pair_of "b" "2"; pair_of "c" "3"] "d" = false).
    { unfold pair_of. cbn [has_field existsb fst]. rewrite !compare_encode. reflexivity. }
    rewrite Eps, Ehas, Hmax in Hconv.
    destruct Hconv as (d & E & Hok & _ & Hent); [cbn [List.length]; lia|].
    exists d. split; [exact E|]. intros f v Hin.
    destruct (hashTypeGetValue_ht d f v Hok) as (d' & Eg & _); [|exists d'; exact Eg].
    apply (Permutation_in _ (Permutation_sym Hent)).
    cbn [map]. rewrite !to_entry_pair.
    cbn [In] in Hin. cbn [In].
    destruct Hin as [H|[H|[H|[H|[]]]]]; injection H as <- <-; auto.
Qed.

Lemma too_long_slice (argv : list robj) (start end_ i : nat) s :
  (start <= i <= end_)%nat -> argv !! i = Some (SdsObj s) ->
  hash_max_ziplist_value < sdslen s ->
  existsb too_long (take (S end_ - start) (drop start argv)) = true.
Proof.
  intros Hi E Hlong. apply existsb_exists. exists (SdsObj s). split.
  - apply list_elem_of_In, list_elem_of_lookup. exists (i - start)%nat.
    rewrite lookup_take_lt, lookup_drop by lia.
    replace (start + (i - start))%nat with i by lia. exact E.
  - cbn [too_long]. apply Z.ltb_lt, Hlong.
Qed.

Lemma pairs_set_member ps field value :
  packed_ok ps ->
  exists f, In (f, zl_encode value) (pairs_set ps field value) /\ zl_decode f = field.
Proof.
  intros [Hc _]. induction ps as [|[f v] r IH]; cbn [pairs_set].
  - exists (zl_encode field). split; [left; reflexivity | apply decode_encode].
  - apply Forall_cons in Hc as [Hf Hc]. cbn [fst] in Hf.
    destruct (zl_compare f field) eqn:E.
    + exists f. split; [left; reflexivity | apply compare_decode; assumption].
    + destruct (IH Hc) as (f' & Hin & Hd). exists f'. split; [right; exact Hin | exact Hd].
Qed.

(** C6, as the code has it. On a ziplist-encoded hash (its entries the
    pairs [ps], with distinct fields) [hashTypeSet] returns, and its only
    trigger is the number of fields: when that number, after the set,
    exceeds [hash_max_ziplist_entries] the hash is converted to a hash
    table, from which every pair, the one just set included, is read back
    by [hashTypeGetValue]; otherwise it stays a ziplist, however long the
    field and the value are. The byte-length trigger is
    [hashTypeTryConversion]: when one of the sds-encoded arguments
    [argv[start..end]] is longer than [hash_max_ziplist_value] it converts
    the hash, and the [hashTypeSet] that follows keeps the hash table. In
    the scenario of section 8.4, with [hash_max_ziplist_entries = 3], the
    sets of a, b and c leave a ziplist, the set of d gives a hash table,
    and the four pairs are read back from it. *)
Theorem hash_conversion_trigger (ps : list (zlentry * zlentry)) (field value : sds)
    (argv : list robj) (start end_ : nat) (fuel : nat) :
  packed_ok ps -> Z.of_nat (List.length ps) < 2 ^ 61 -> (List.length ps + 5 < fuel)%nat ->
  (exists update o,
     hashTypeSet fuel (ZiplistObj (flat ps)) field value = Ret (update, o) /\
     update = (if has_field ps field then 1 else 0) /\
     hashTypeLength (ZiplistObj (flat (pairs_set ps field value))) =
       Ret (Z.of_nat (List.length ps) + 1 - update) /\
     (hash_max_ziplist_entries < Z.of_nat (List.length ps) + 1 - update ->
      exists d, o = HtObj d /\
        (exists d', hashTypeGetValue o field = Ret (Some (ZStr value), HtObj d')) /\
        (forall f v, In (f, v) (pairs_set ps field value) ->
           exists d', hashTypeGetValue o (zl_decode f) =
                        Ret (Some (ZStr (zl_decode v)), HtObj d'))) /\
     (Z.of_nat (List.length ps) + 1 - update <= hash_max_ziplist_entries ->
      o = ZiplistObj (flat (pairs_set ps field value)))) /\
  ((exists i s, (start <= i <= end_)%nat /\ argv !! i = Some (SdsObj s) /\
                hash_max_ziplist_value < sdslen s) ->
   exists d update d',
     hashTypeTryConversion fuel (ZiplistObj (flat ps)) argv start end_ = Ret (HtObj d) /\
     hashTypeSet fuel (HtObj d) field value = Ret (update, HtObj d')) /\
  (hash_max_ziplist_entries = 3 ->
   hashTypeSet fuel (ZiplistObj []) "a" "1" =
     Ret (0, ZiplistObj (flat [pair_of "a" "1"])) /\
   hashTypeSet fuel (ZiplistObj (flat [pair_of "a" "1"])) "b" "2" =
     Ret (0, ZiplistObj (flat [pair_of "a" "1"; pair_of "b" "2"])) /\
   hashTypeSet fuel (ZiplistObj (flat [pair_of "a" "1"; pair_of "b" "2"])) "c" "3" =
     Ret (0, ZiplistObj (flat [pair_of "a" "1"; pair_of "b" "2"; pair_of "c" "3"])) /\
   exists d,
     hashTypeSet fuel (ZiplistObj (flat [pair_of "a" "1"; pair_of "b" "2"; pair_of "c" "3"]))
       "d" "4" = Ret (0, HtObj d) /\
     forall f v, In (f, v) [("a", "1"); ("b", "2"); ("c", "3"); ("d", "4")]%string ->
       exists d', hashTypeGetValue (HtObj d) f = Ret (Some (ZStr v), HtObj d')).
Proof.
  intros Hok Hsz Hf. split; [|split].
  - pose proof (pairs_set_length ps field value Hok) as Hl.
    destruct (set_count_trigger ps field value fuel Hok Hsz ltac:(lia)) as [Hstay Hconv].
    assert (Hlen : hashTypeLength (ZiplistObj (flat (pairs_set ps field value))) =
                   Ret (Z.of_nat (List.length ps) + 1 - (if has_field ps field then 1 else 0))).
    { cbn [hashTypeLength]. unfold ziplistLen. rewrite flat_length, Nat2Z.inj_mul, <- Hl.
      change (Z.of_nat 2) with 2. rewrite Z.mul_comm, Z.div_mul by lia. reflexivity. }
    destruct (Z.lt_ge_cases hash_max_ziplist_entries
                (Z.of_nat (List.length (pairs_set ps field value)))) as [Hgt|Hle].
    + destruct (Hconv Hgt) as (d & E & Hd & _ & Hent).
      exists (if has_field ps field then 1 else 0), (HtObj d).
      split; [exact E|]. split; [reflexivity|]. split; [exact Hlen|]. split; [|intros; lia].
      intros _. exists d. split; [reflexivity|].
      assert (Hget : forall f v, In (f, v) (pairs_set ps field value) ->
                exists d', hashTypeGetValue (HtObj d) (zl_decode f) =
                             Ret (Some (ZStr (zl_decode v)), HtObj d')).
      { intros f v Hin.
        destruct (hashTypeGetValue_ht d (zl_decode f) (zl_decode v) Hd) as (d' & Eg & _);
          [|exists d'; exact Eg].
        apply (Permutation_in _ (Permutation_sym Hent)).
        apply (in_map to_entry _ _ Hin). }
      split; [|exact Hget].
      destruct (pairs_set_member ps field value Hok) as (f & Hin & Hdf).
      destruct (Hget _ _ Hin) as (d' & Eg). rewrite Hdf, decode_encode in Eg.
      exists d'. exact Eg.
    + exists (if has_field ps field then 1 else 0), (ZiplistObj (flat (pairs_set ps field value))).
      split; [apply Hstay; lia|]. split; [reflexivity|]. split; [exact Hlen|].
      split; [intros; lia | reflexivity].
  - intros (i & s & Hi & E & Hlong).
    destruct (try_conversion_trigger ps argv start end_ fuel Hok Hsz ltac:(lia)
                (too_long_slice argv start end_ i s Hi E Hlong)) as (d & Et & Hd & _ & Hent).
    destruct (set_ht_stays d field value fuel Hd) as (update & d' & Es).
    { rewrite (dictSize_entries d) by apply Hd.
      rewrite (Permutation_length Hent), length_map. lia. }
    exists d, update, d'. split; assumption.
  - intros Hmax. apply scenario_sets; [exact Hmax | lia].
Qed.

(** *** Reading, testing and deleting fields *)

(** Modelled from the spec: [htNeedsResize] is defined in server.c, which
    is not among the sources; any test of the dict here. *)
Variable htNeedsResize : dict sds sds -> bool.

(** [hashTypeExists]: 1 or 0, and the object, whose dict the lookup may
    have rehashed by a step. *)
Definition hashTypeExists (o : robj) (field : sds) : outcome (Z * robj) :=
  match o with
  | ZiplistObj _ =>
      letM r := hashTypeGetFromZiplist o field in
      Ret (match r with Some _ => 1 | None => 0 end, o)
  | HtObj _ =>
      letM '(value, o) := hashTypeGetFromHashTable o field in
      Ret (match value with Some _ => 1 | None => 0 end, o)
  | _ => Panic
  end.

(** [hashTypeDelete]: [deleted] and the object. The first [ziplistDelete]
    leaves the pointer at the value, which the second one deletes. [C_OK]
    is 0, as [DICT_OK] is. *)
Definition hashTypeDelete (o : robj) (field : sds) : outcome (Z * robj) :=
  match o with
  | ZiplistObj zl =>
      match ziplistIndex zl ZIPLIST_HEAD with
      | Some fptr =>
          match ziplistFind zl fptr field 1 with
          | Some fptr =>
              let zl := ziplistDelete zl fptr in
              let zl := ziplistDelete zl fptr in
              Ret (1, ZiplistObj zl)
          | None => Ret (0, o)
          end
      | None => Ret (0, o)
      end
  | HtObj d =>
      letM '(r, d) := dictDelete d field in
      if r =? DICT_OK then
        let d := if htNeedsResize d then snd (dictResize dict_can_resize zcalloc d) else d in
        Ret (1, HtObj d)
      else Ret (0, HtObj d)
  | _ => Panic
  end.

(** A hash object in one of its two representations: a packed list of
    pairs with distinct fields, or a well-formed dict of the hash type. *)
Definition hash_ok (o : robj) : Prop :=
  match o with
  | ZiplistObj zl => exists ps, zl = flat ps /\ packed_ok ps
  | HtObj d => dict_ok d /\ type d = hashDictType
  | _ => False
  end.

(** The value the pairs have for a field, and what is left of the pairs
    when the field goes. *)
Fixpoint pairs_get (ps : list (zlentry * zlentry)) (field : sds) : option zlentry :=
  match ps with
  | [] => None
  | (f, v) :: r => if zl_compare f field then Some v else pairs_get r field
  end.

Fixpoint pairs_del (ps : list (zlentry * zlentry)) (field : sds)
    : list (zlentry * zlentry) :=
  match ps with
  | [] => []
  | (f, v) :: r => if zl_compare f field then r else (f, v) :: pairs_del r field
  end.

(** The value a list of entries has for a key. *)
Definition entry_value (l : list (dictEntry sds sds)) (g : sds) (r : option sds) : Prop :=
  match r with
  | Some v => In (DictEntry g v) l
  | None => forall e, In e l -> key e <> g
  end.

Lemma find_pair_get ps field :
  match find_pair ps field with
  | Some i => exists f v, ps !! i = Some (f, v) /\ pairs_get ps field = Some v
  | None => pairs_get ps field = None
  end.
Proof.
  induction ps as [|[f v] r IH]; cbn [find_pair pairs_get]; [reflexivity|].
  destruct (zl_compare f field).
  - exists f, v. split; reflexivity.
  - destruct (find_pair r field) as [i|]; cbn [option_map]; exact IH.
Qed.

Lemma pairs_get_has ps field :
  has_field ps field = match pairs_get ps field with Some _ => true | None => false end.
Proof.
  induction ps as [|[f v] r IH]; cbn [has_field existsb pairs_get fst]; [reflexivity|].
  destruct (zl_compare f field); [reflexivity|]. exact IH.
Qed.

(** [hashTypeGetFromZiplist] in terms of the pairs. *)
Lemma hashTypeGetFromZiplist_pairs ps field :
  hashTypeGetFromZiplist (ZiplistObj (flat ps)) field = Ret (pairs_get ps field).
Proof.
  unfold hashTypeGetFromZiplist, ziplistFind, ZIPLIST_HEAD, ziplistIndex.
  rewrite flat_length. pose proof (find_pair_get ps field) as Hg.
  destruct (Nat.ltb_spec 0 (2 * List.length ps)) as [Hne|He].
  - rewrite drop_0, find_loop_flat.
    destruct (find_pair ps field) as [i|]; cbn [option_map].
    + destruct Hg as (f & v & Hi & Hg). rewrite Hg.
      pose proof (lookup_lt_Some _ _ _ Hi) as Hlt.
      destruct (flat_lookup ps i f v Hi) as [_ Hv].
      unfold ziplistNext. rewrite flat_length.
      destruct (Nat.ltb_spec (S (0 + 2 * i)) (2 * List.length ps)) as [_|Hbad]; [|lia].
      cbn [bind]. unfold ziplistGet.
      replace (S (0 + 2 * i)) with (2 * i + 1)%nat by lia. rewrite Hv. reflexivity.
    + rewrite Hg. reflexivity.
  - destruct ps as [|p r]; [reflexivity | cbn [List.length] in He; lia].
Qed.

Lemma hashTypeGetValue_pairs ps field :
  hashTypeGetValue (ZiplistObj (flat ps)) field =
    Ret (pairs_get ps field, ZiplistObj (flat ps)).
Proof.
  unfold hashTypeGetValue. rewrite hashTypeGetFromZiplist_pairs. reflexivity.
Qed.

Lemma pairs_get_set ps field value g :
  Forall (fun p => canonical (fst p)) ps ->
  pairs_get (pairs_set ps field value) g =
    if String.eqb g field then Some (zl_encode value) else pairs_get ps g.
Proof.
  induction ps as [|[f v] r IH]; intros Hc; cbn [pairs_set pairs_get].
  - rewrite compare_encode, String.eqb_sym. reflexivity.
  - apply Forall_cons in Hc as [Hf Hc]. cbn [fst] in Hf.
    destruct (String.eqb_spec g field) as [E|Hne].
    + rewrite E in *.
      destruct (zl_compare f field) eqn:Ef; cbn [pairs_get]; rewrite Ef; [reflexivity|].
      apply IH, Hc.
    + destruct (zl_compare f field) eqn:Ef; cbn [pairs_get].
      * destruct (zl_compare f g) eqn:Eg; [|reflexivity].
        exfalso. apply Hne. apply (compare_decode f field Hf) in Ef.
        apply (compare_decode f g Hf) in Eg. congruence.
      * destruct (zl_compare f g); [reflexivity | apply IH, Hc].
Qed.

Lemma pairs_get_value ps g :
  Forall (fun p => canonical (fst p)) ps ->
  entry_value (map to_entry ps) g (option_map zl_decode (pairs_get ps g)).
Proof.
  induction ps as [|[f v] r IH]; intros Hc; cbn [pairs_get map].
  - intros e [].
  - apply Forall_cons in Hc as [Hf Hc]. cbn [fst] in Hf.
    destruct (zl_compare f g) eqn:Eg.
    + apply (compare_decode f g Hf) in Eg. cbn [option_map entry_value].
      left. unfold to_entry. cbn [fst snd]. rewrite Eg. reflexivity.
    + specialize (IH Hc). destruct (pairs_get r g) as [w|]; cbn [option_map entry_value] in *.
      * right. exact IH.
      * intros e [<-|He]; [|apply IH, He]. unfold to_entry. cbn [fst key].
        intros Heq. apply (compare_decode f g Hf) in Heq. congruence.
Qed.

Lemma entry_value_unique (l : list (dictEntry sds sds)) g r r' :
  NoDup (map key l) -> entry_value l g r -> entry_value l g r' -> r = r'.
Proof.
  intros Hnd. destruct r as [v|], r' as [v'|]; cbn [entry_value]; intros H H'.
  - pose proof (key_inj l _ _ Hnd H H' eq_refl) as E. congruence.
  - exfalso. apply (H' _ H). reflexivity.
  - exfalso. apply (H _ H'). reflexivity.
  - reflexivity.
Qed.

Lemma entry_value_perm (l l' : list (dictEntry sds sds)) g r :
  l ≡ₚ l' -> entry_value l g r -> entry_value l' g r.
Proof.
  intros Hp. destruct r as [v|]; cbn [entry_value].
  - apply Permutation_in, Hp.
  - intros H e He. apply H. apply (Permutation_in _ (Permutation_sym Hp)), He.
Qed.

Lemma entry_value_total (l : list (dictEntry sds sds)) g :
  exists r, entry_value l g r.
Proof.
  induction l as [|[k v] l [r IH]]; [exists None; intros e []|].
  destruct (String.eqb_spec k g) as [->|Hne].
  - exists (Some v). left. reflexivity.
  - exists r. destruct r as [w|]; cbn [entry_value] in *; [right; exact IH|].
    intros e [<-|He]; [exact Hne | apply IH, He].
Qed.

(** Below a new head: the value of the head's key is the head's, the
    others are those of the tail. *)
Lemma entry_value_cons (l : list (dictEntry sds sds)) k v g r :
  NoDup (map key (DictEntry k v :: l)) ->
  entry_value (DictEntry k v :: l) g r ->
  if String.eqb g k then r = Some v else entry_value l g r.
Proof.
  intros Hnd H. destruct (String.eqb_spec g k) as [->|Hne].
  - apply (entry_value_unique (DictEntry k v :: l) k); [exact Hnd | exact H|].
    left. reflexivity.
  - destruct r as [w|]; cbn [entry_value] in *.
    + destruct H as [[= E _]|H]; [congruence | exact H].
    + intros e He. apply H. right. exact He.
Qed.

Lemma entry_value_tail (l : list (dictEntry sds sds)) e g r :
  key e <> g -> entry_value (e :: l) g r -> entry_value l g r.
Proof.
  intros Hne. destruct r as [w|]; cbn [entry_value].
  - intros [->|H]; [exfalso; apply Hne; reflexivity | exact H].
  - intros H x Hx. apply H. right. exact Hx.
Qed.

(** [hashTypeGetValue] on a dict-encoded hash. *)
Lemma hashTypeGetValue_entries (d : dict sds sds) g :
  dict_ok d ->
  exists r d',
    hashTypeGetValue (HtObj d) g = Ret (option_map ZStr r, HtObj d') /\
    hashTypeExists (HtObj d) g = Ret (match r with Some _ => 1 | None => 0 end, HtObj d') /\
    entry_value (dict_entries d) g r /\
    dict_ok d' /\ type d' = type d /\ dict_entries d' ≡ₚ dict_entries d.
Proof.
  intros Hok.
  destruct (dictFind_spec d g Hok) as (r & d' & E & Hok' & Hty & _ & Hent & Hhit & Hmiss).
  destruct (key_decide d g (dict_entries d) ltac:(apply Hok)) as [(e & He & Hk)|Hno].
  - rewrite (Hhit e He Hk) in E. exists (Some (val e)), d'.
    unfold hashTypeGetValue, hashTypeExists, hashTypeGetFromHashTable. rewrite E.
    cbn [bind option_map]. split; [reflexivity|]. split; [reflexivity|].
    split; [|auto]. cbn [entry_value]. destruct e as [k v]. cbn [key val] in *.
    subst k. exact He.
  - rewrite (Hmiss Hno) in E. exists None, d'.
    unfold hashTypeGetValue, hashTypeExists, hashTypeGetFromHashTable. rewrite E.
    cbn [bind option_map]. split; [reflexivity|]. split; [reflexivity|].
    split; [exact Hno | auto].
Qed.

Lemma hashTypeLength_pairs ps :
  hashTypeLength (ZiplistObj (flat ps)) = Ret (Z.of_nat (List.length ps)).
Proof.
  cbn [hashTypeLength]. unfold ziplistLen. rewrite flat_length, Nat2Z.inj_mul.
  change (Z.of_nat 2) with 2. rewrite Z.mul_comm, Z.div_mul by lia. reflexivity.
Qed.

Lemma hashTypeLength_entries (d : dict sds sds) :
  dict_ok d -> hashTypeLength (HtObj d) = Ret (Z.of_nat (List.length (dict_entries d))).
Proof. intros Hok. cbn [hashTypeLength]. rewrite (dictSize_entries d) by apply Hok. reflexivity. Qed.

(** [hashTypeSet] on a dict-encoded hash: the pair replaces the entry of
    the field or joins the entries. *)
Lemma hashTypeSet_entries (d : dict sds sds) field value fuel :
  dict_ok d -> type d = hashDictType -> dictSize d < 2 ^ 62 ->
  exists update d2 l,
    hashTypeSet fuel (HtObj d) field value = Ret (update, HtObj d2) /\
    dict_ok d2 /\ type d2 = hashDictType /\
    dict_entries d2 ≡ₚ DictEntry field value :: l /\
    ((update = 1 /\ exists e, key e = field /\ dict_entries d ≡ₚ e :: l) \/
     (update = 0 /\ (forall e, In e (dict_entries d) -> key e <> field) /\
      dict_entries d ≡ₚ l)).
Proof.
  intros Hok Hty Hsz. unfold hashTypeSet.
  destruct (dictFind_spec d field Hok) as (r & d1 & E & Hok1 & Hty1 & _ & Hent & Hhit & Hmiss).
  rewrite E. cbn [bind].
  destruct (key_decide d field (dict_entries d) ltac:(apply Hok)) as [(e & He & Hk)|Hno].
  - rewrite (Hhit e He Hk).
    destruct (set_entry_val_spec d1 field value e Hok1) as (Hok2 & Hty2 & _ & l & Hl & Hl');
      [apply (Permutation_in _ (Permutation_sym Hent)), He | exact Hk |].
    eexists 1, _, l. split; [reflexivity|]. split; [exact Hok2|].
    split; [congruence|]. split; [exact Hl'|]. left. split; [reflexivity|].
    exists e. split; [exact Hk|]. rewrite <- Hent. exact Hl.
  - rewrite (Hmiss Hno).
    destruct (dictAdd_spec dict_can_resize zcalloc d1 field value alloc Hok1)
      as (d2 & Ea & Hok2 & Hty2 & _ & Hent2).
    + rewrite (dictSize_entries d1) by apply Hok1.
      rewrite (Permutation_length Hent), <- (dictSize_entries d) by apply Hok. exact Hsz.
    + intros e He. apply Hno. apply (Permutation_in _ Hent), He.
    + rewrite Ea. cbn [bind]. exists 0, d2, (dict_entries d1).
      split; [reflexivity|]. split; [exact Hok2|]. split; [congruence|].
      split; [exact Hent2|]. right. split; [reflexivity|]. split; [exact Hno|].
      symmetry. exact Hent.
Qed.

(** X13. A set, then a get. On a hash object in either representation
    [hashTypeSet] returns; its result is 1 when [hashTypeExists] found the
    field before and 0 when not, and the number of fields grows by one in
    the second case only. Afterwards [hashTypeGetValue] of the field gives
    the value set, and of any other field what it gave before; only the
    form may differ, an integer in the packed list being the string that
    spells it in the hash table. A hash table stays a hash table. *)
Theorem hashTypeSet_then_get (o : robj) (field value : sds) (n : Z) (fuel : nat) :
  hash_ok o -> hashTypeLength o = Ret n -> n < 2 ^ 61 -> n + 5 < Z.of_nat fuel ->
  exists update o',
    hashTypeSet fuel o field value = Ret (update, o') /\ hash_ok o' /\
    (exists o1, hashTypeExists o field = Ret (update, o1)) /\
    hashTypeLength o' = Ret (n + 1 - update) /\
    (encoding_of o = OBJ_ENCODING_HT -> encoding_of o' = OBJ_ENCODING_HT) /\
    forall g, exists r0 o0 r1 o1,
      hashTypeGetValue o g = Ret (r0, o0) /\
      hashTypeGetValue o' g = Ret (r1, o1) /\
      option_map zl_decode r1 =
        if String.eqb g field then Some value else option_map zl_decode r0.
Proof.
  intros Hok Hlen Hn Hfuel. destruct o as [zl|d| |]; try contradiction.
  - destruct Hok as (ps & -> & Hps). rewrite hashTypeLength_pairs in Hlen.
    injection Hlen as <-. pose proof Hps as [Hcan Hnd].
    set (qs := pairs_set ps field value).
    destruct (pairs_set_ok ps field value Hps) as [Hqs _]. fold qs in Hqs.
    pose proof (pairs_set_length ps field value Hps) as Hl. fold qs in Hl.
    assert (Hex : hashTypeExists (ZiplistObj (flat ps)) field =
                  Ret (if has_field ps field then 1 else 0, ZiplistObj (flat ps))).
    { unfold hashTypeExists. rewrite hashTypeGetFromZiplist_pairs, pairs_get_has.
      cbn [bind]. destruct (pairs_get ps field); reflexivity. }
    assert (Hget : forall g, option_map zl_decode (pairs_get qs g) =
                     if String.eqb g field then Some value
                     else option_map zl_decode (pairs_get ps g)).
    { intros g. unfold qs. rewrite (pairs_get_set ps field value g Hcan).
      destruct (String.eqb g field); [|reflexivity]. cbn [option_map].
      rewrite decode_encode. reflexivity. }
    assert (Hb : Z.of_nat (List.length qs) <= Z.of_nat (List.length ps) + 1)
      by (rewrite Hl; destruct (has_field ps field); lia).
    rewrite hashTypeSet_ziplist. fold qs.
    destruct (Z.ltb_spec hash_max_ziplist_entries (Z.of_nat (List.length qs))) as [Hgt|Hle].
    + destruct (hashTypeConvert_spec qs fuel ltac:(apply Hqs) ltac:(lia) ltac:(lia))
        as (d & E & Hd & Hty & Hent).
      rewrite E. cbn [bind]. eexists _, (HtObj d). split; [reflexivity|].
      split; [split; assumption|]. split; [eexists; exact Hex|].
      split; [rewrite (hashTypeLength_entries d Hd), (Permutation_length Hent), length_map, Hl;
              reflexivity|].
      split; [reflexivity|]. intros g.
      destruct (hashTypeGetValue_entries d g Hd) as (r & d' & Eg & _ & Hr & _).
      exists (pairs_get ps g), (ZiplistObj (flat ps)), (option_map ZStr r), (HtObj d').
      split; [apply hashTypeGetValue_pairs|]. split; [exact Eg|].
      rewrite <- Hget.
      assert (Er : r = option_map zl_decode (pairs_get qs g)).
      { apply (entry_value_unique (map to_entry qs) g).
        - eapply NoDup_Permutation_proper; [|apply Hd].
          apply Permutation_map. symmetry. exact Hent.
        - apply (entry_value_perm _ _ _ _ Hent), Hr.
        - apply pairs_get_value, Hqs. }
      rewrite Er. destruct (pairs_get qs g); reflexivity.
    + eexists _, (ZiplistObj (flat qs)). split; [reflexivity|].
      split; [exists qs; split; [reflexivity | exact Hqs]|].
      split; [eexists; exact Hex|].
      split; [rewrite hashTypeLength_pairs, Hl; reflexivity|].
      split; [discriminate|]. intros g.
      exists (pairs_get ps g), (ZiplistObj (flat ps)), (pairs_get qs g), (ZiplistObj (flat qs)).
      split; [apply hashTypeGetValue_pairs|]. split; [apply hashTypeGetValue_pairs|].
      apply Hget.
  - destruct Hok as [Hd Hty]. rewrite (hashTypeLength_entries d Hd) in Hlen.
    injection Hlen as <-.
    destruct (hashTypeSet_entries d field value fuel Hd Hty) as
      (update & d2 & l & E & Hd2 & Hty2 & Hent2 & Hcase).
    { rewrite (dictSize_entries d) by apply Hd. lia. }
    assert (Hnd2 : NoDup (map key (DictEntry field value :: l))).
    { eapply NoDup_Permutation_proper; [|apply Hd2].
      apply Permutation_map. symmetry. exact Hent2. }
    assert (Hndl : NoDup (map key l)).
    { cbn [map] in Hnd2. apply NoDup_cons in Hnd2. apply Hnd2. }
    assert (Hrest : forall g r, g <> field ->
              entry_value (dict_entries d) g r -> entry_value l g r).
    { intros g r Hne Hr. destruct Hcase as [(_ & e & Hk & Hp)|(_ & _ & Hp)].
      - apply (entry_value_tail l e); [congruence|].
        apply (entry_value_perm _ _ _ _ Hp), Hr.
      - apply (entry_value_perm _ _ _ _ Hp), Hr. }
    exists update, (HtObj d2). split; [exact E|]. split; [split; assumption|].
    split; [|split; [|split; [reflexivity|]]].
    + destruct (hashTypeGetValue_entries d field Hd) as (r & d' & _ & Ex & Hr & _).
      exists (HtObj d'). rewrite Ex. do 2 f_equal.
      destruct Hcase as [(-> & e & Hk & Hp)|(-> & Hno & _)].
      * destruct r as [w|]; [reflexivity|]. exfalso. cbn [entry_value] in Hr.
        apply (Hr e); [|exact Hk]. apply (Permutation_in _ (Permutation_sym Hp)).
        left. reflexivity.
      * destruct r as [w|]; [|reflexivity]. exfalso. cbn [entry_value] in Hr.
        apply (Hno _ Hr). reflexivity.
    + rewrite (hashTypeLength_entries d2 Hd2), (Permutation_length Hent2). cbn [List.length].
      destruct Hcase as [(-> & e & _ & Hp)|(-> & _ & Hp)];
        rewrite (Permutation_length Hp); cbn [List.length]; f_equal; lia.
    + intros g.
      destruct (hashTypeGetValue_entries d g Hd) as (r0 & d0 & E0 & _ & Hr0 & _).
      destruct (hashTypeGetValue_entries d2 g Hd2) as (r1 & d1 & E1 & _ & Hr1 & _).
      exists (option_map ZStr r0), (HtObj d0), (option_map ZStr r1), (HtObj d1).
      split; [exact E0|]. split; [exact E1|].
      apply (entry_value_perm _ _ _ _ Hent2) in Hr1.
      pose proof (entry_value_cons l field value g r1 Hnd2 Hr1) as Hc.
      destruct (String.eqb_spec g field) as [Eg|Hne].
      * rewrite Hc. reflexivity.
      * rewrite (entry_value_unique l g r1 r0 Hndl Hc (Hrest g r0 Hne Hr0)). reflexivity.
Qed.

(** **** Deletion *)

Lemma pairs_del_absent ps field : find_pair ps field = None -> pairs_del ps field = ps.
Proof.
  induction ps as [|[f v] r IH]; cbn [find_pair pairs_del]; [reflexivity|].
  destruct (zl_compare f field); [discriminate|].
  destruct (find_pair r field); [discriminate|]. intros _. rewrite IH; reflexivity.
Qed.

Lemma pairs_del_present ps field :
  forall i, find_pair ps field = Some i ->
    (i < List.length ps)%nat /\
    delete (2 * i)%nat (delete (2 * i)%nat (flat ps)) = flat (pairs_del ps field).
Proof.
  induction ps as [|[f v] r IH]; intros i; cbn [find_pair pairs_del]; [discriminate|].
  destruct (zl_compare f field).
  - intros [= <-]. cbn [List.length]. split; [lia | reflexivity].
  - destruct (find_pair r field) as [j|]; [|discriminate].
    intros [= <-]. destruct (IH j eq_refl) as [Hj Hd]. cbn [List.length]. split; [lia|].
    replace (2 * S j)%nat with (S (S (2 * j))) by lia. cbn [flat].
    change (delete (S (S (2 * j))) (delete (S (S (2 * j))) (f :: v :: flat r)))
      with (f :: v :: delete (2 * j)%nat (delete (2 * j)%nat (flat r))).
    rewrite Hd. reflexivity.
Qed.

(** [hashTypeDelete] on a ziplist-encoded hash, in terms of the pairs. *)
Lemma hashTypeDelete_pairs ps field :
  hashTypeDelete (ZiplistObj (flat ps)) field =
    Ret (if has_field ps field then 1 else 0, ZiplistObj (flat (pairs_del ps field))).
Proof.
  unfold hashTypeDelete, ziplistFind, ZIPLIST_HEAD, ziplistIndex. rewrite flat_length.
  destruct (find_pair ps field) as [i|] eqn:Ef.
  - destruct (pairs_del_present ps field i Ef) as [Hi Hd].
    assert (Hhas : has_field ps field = true).
    { destruct (has_field ps field) eqn:E; [reflexivity|].
      apply find_pair_has in E. congruence. }
    destruct (Nat.ltb_spec 0 (2 * List.length ps)) as [_|Hbad]; [|lia].
    rewrite drop_0, find_loop_flat, Ef, Hhas. cbn [option_map]. unfold ziplistDelete.
    replace (0 + 2 * i)%nat with (2 * i)%nat by lia. rewrite Hd. reflexivity.
  - assert (Hhas : has_field ps field = false) by (apply find_pair_has, Ef).
    rewrite (pairs_del_absent ps field Ef), Hhas.
    destruct (0 <? 2 * List.length ps)%nat; [|reflexivity].
    rewrite drop_0, find_loop_flat, Ef. reflexivity.
Qed.

Lemma pairs_del_fields ps field x :
  x ∈ fields (pairs_del ps field) -> x ∈ fields ps.
Proof.
  induction ps as [|[f v] r IH]; cbn [pairs_del]; [auto|].
  destruct (zl_compare f field); cbn [fields map fst]; fold (fields r);
    fold (fields (pairs_del r field)).
  - intros H. apply elem_of_cons. right. exact H.
  - rewrite !elem_of_cons. intros [->|H]; [left; reflexivity | right; apply IH, H].
Qed.

Lemma pairs_del_ok ps field :
  packed_ok ps ->
  packed_ok (pairs_del ps field) /\
  Z.of_nat (List.length (pairs_del ps field)) =
    Z.of_nat (List.length ps) - (if has_field ps field then 1 else 0).
Proof.
  unfold packed_ok. induction ps as [|[f v] r IH]; intros [Hc Hnd].
  - cbn. split; [split|reflexivity]; [constructor | apply NoDup_nil_2].
  - apply Forall_cons in Hc as [Hf Hc]. cbn [fields map fst] in Hnd.
    apply NoDup_cons in Hnd as [Hx Hnd]. fold (fields r) in Hx, Hnd.
    cbn [pairs_del has_field existsb fst]. fold (has_field r field).
    destruct (zl_compare f field); cbn [orb].
    + split; [split; assumption|]. cbn [List.length]. lia.
    + destruct (IH (conj Hc Hnd)) as [[Hc' Hnd'] Hl]. split; [split|].
      * constructor; [exact Hf | exact Hc'].
      * cbn [fields map fst]. fold (fields (pairs_del r field)). apply NoDup_cons.
        split; [|exact Hnd']. intros Hin. apply Hx, (pairs_del_fields r field), Hin.
      * cbn [List.length]. lia.
Qed.

Lemma pairs_get_absent ps g :
  Forall (fun p => canonical (fst p)) ps -> g ∉ fields ps -> pairs_get ps g = None.
Proof.
  induction ps as [|[f v] r IH]; intros Hc Hn; cbn [pairs_get]; [reflexivity|].
  apply Forall_cons in Hc as [Hf Hc]. cbn [fst] in Hf.
  cbn [fields map fst] in Hn. fold (fields r) in Hn. rewrite not_elem_of_cons in Hn.
  destruct Hn as [Hne Hn]. destruct (zl_compare f g) eqn:E; [|apply IH; assumption].
  apply (compare_decode f g Hf) in E. congruence.
Qed.

Lemma pairs_get_del ps field g :
  packed_ok ps ->
  pairs_get (pairs_del ps field) g =
    if String.eqb g field then None else pairs_get ps g.
Proof.
  unfold packed_ok. induction ps as [|[f v] r IH]; intros [Hc Hnd]; cbn [pairs_del pairs_get].
  - destruct (String.eqb g field); reflexivity.
  - apply Forall_cons in Hc as [Hf Hc]. cbn [fst] in Hf. cbn [fields map fst] in Hnd.
    apply NoDup_cons in Hnd as [Hx Hnd]. fold (fields r) in Hx, Hnd.
    specialize (IH (conj Hc Hnd)).
    destruct (zl_compare f field) eqn:Ef; cbn [pairs_get].
    + apply (compare_decode f field Hf) in Ef.
      destruct (String.eqb_spec g field) as [E|Hne].
      * apply pairs_get_absent; [exact Hc|]. rewrite E, <- Ef. exact Hx.
      * destruct (zl_compare f g) eqn:Eg; [|reflexivity].
        apply (compare_decode f g Hf) in Eg. congruence.
    + destruct (zl_compare f g) eqn:Eg; [|exact IH].
      destruct (String.eqb_spec g field) as [E|Hne]; [|reflexivity].
      rewrite E in Eg. congruence.
Qed.

(** [hashTypeDelete] on a dict-encoded hash: the entry of the field goes,
    whether or not the dict is then resized. *)
Lemma hashTypeDelete_entries (d : dict sds sds) field :
  dict_ok d -> type d = hashDictType ->
  exists deleted d2,
    hashTypeDelete (HtObj d) field = Ret (deleted, HtObj d2) /\
    dict_ok d2 /\ type d2 = hashDictType /\
    ((deleted = 1 /\ exists e, key e = field /\ dict_entries d ≡ₚ e :: dict_entries d2) \/
     (deleted = 0 /\ (forall e, In e (dict_entries d) -> key e <> field) /\
      dict_entries d2 ≡ₚ dict_entries d)).
Proof.
  intros Hok Hty. unfold hashTypeDelete, dictDelete.
  destruct (dictGenericDelete_spec d field false Hok) as (r & d1 & E & Hok1 & Hty1 & _ & Hr).
  rewrite E. cbn [bind]. destruct r as [e|].
  - change (DICT_OK =? DICT_OK) with true. cbv iota. destruct Hr as [Hk Hp].
    destruct (dictResize_keeps dict_can_resize zcalloc d1 alloc Hok1) as (Hok2 & Hty2 & He2).
    eexists 1, _. split; [reflexivity|].
    destruct (htNeedsResize d1).
    + split; [exact Hok2|]. split; [congruence|]. left. split; [reflexivity|].
      exists e. rewrite He2. auto.
    + split; [exact Hok1|]. split; [congruence|]. left. split; [reflexivity|].
      exists e. auto.
  - change (DICT_ERR =? DICT_OK) with false. cbv iota. destruct Hr as [Hno Hp].
    exists 0, d1. split; [reflexivity|]. split; [exact Hok1|]. split; [congruence|].
    right. auto.
Qed.

(** X14. [hashTypeDelete] removes the field and nothing else. On a hash
    object in either representation it returns 1 when [hashTypeExists]
    found the field and 0 when not, and the number of fields drops by
    that much; afterwards [hashTypeGetValue] finds no value for the field,
    and for any other field the value it found before. The representation
    stays what it was, whether or not the dict is resized after the
    deletion. *)
Theorem hashTypeDelete_removes_field (o : robj) (field : sds) (n : Z) :
  hash_ok o -> hashTypeLength o = Ret n ->
  exists deleted o',
    hashTypeDelete o field = Ret (deleted, o') /\ hash_ok o' /\
    encoding_of o' = encoding_of o /\
    (exists o1, hashTypeExists o field = Ret (deleted, o1)) /\
    hashTypeLength o' = Ret (n - deleted) /\
    forall g, exists r0 o0 r1 o1,
      hashTypeGetValue o g = Ret (r0, o0) /\
      hashTypeGetValue o' g = Ret (r1, o1) /\
      r1 = if String.eqb g field then None else r0.
Proof.
  intros Hok Hlen. destruct o as [zl|d| |]; try contradiction.
  - destruct Hok as (ps & -> & Hps). rewrite hashTypeLength_pairs in Hlen.
    injection Hlen as <-.
    destruct (pairs_del_ok ps field Hps) as [Hqs Hl].
    eexists _, _. split; [apply hashTypeDelete_pairs|].
    split; [exists (pairs_del ps field); split; [reflexivity | exact Hqs]|].
    split; [reflexivity|]. split; [|split].
    + eexists. unfold hashTypeExists. rewrite hashTypeGetFromZiplist_pairs, pairs_get_has.
      cbn [bind]. destruct (pairs_get ps field); reflexivity.
    + rewrite hashTypeLength_pairs, Hl. reflexivity.
    + intros g. eexists _, _, _, _. split; [apply hashTypeGetValue_pairs|].
      split; [apply hashTypeGetValue_pairs|]. apply pairs_get_del, Hps.
  - destruct Hok as [Hd Hty]. rewrite (hashTypeLength_entries d Hd) in Hlen.
    injection Hlen as <-.
    destruct (hashTypeDelete_entries d field Hd Hty) as (deleted & d2 & E & Hd2 & Hty2 & Hcase).
    exists deleted, (HtObj d2). split; [exact E|]. split; [split; assumption|].
    split; [reflexivity|].
    assert (Hnd : NoDup (map key (dict_entries d))) by apply Hd.
    split; [|split].
    + destruct (hashTypeGetValue_entries d field Hd) as (r & d' & _ & Ex & Hr & _).
      exists (HtObj d'). rewrite Ex. do 2 f_equal.
      destruct Hcase as [(-> & e & Hk & Hp)|(-> & Hno & _)].
      * destruct r as [w|]; [reflexivity|]. exfalso. cbn [entry_value] in Hr.
        apply (Hr e); [|exact Hk]. apply (Permutation_in _ (Permutation_sym Hp)).
        left. reflexivity.
      * destruct r as [w|]; [|reflexivity]. exfalso. cbn [entry_value] in Hr.
        apply (Hno _ Hr). reflexivity.
    + rewrite (hashTypeLength_entries d2 Hd2).
      destruct Hcase as [(-> & e & _ & Hp)|(-> & _ & Hp)];
        rewrite (Permutation_length Hp); cbn [List.length]; f_equal; lia.
    + intros g.
      destruct (hashTypeGetValue_entries d g Hd) as (r0 & d0 & E0 & _ & Hr0 & _).
      destruct (hashTypeGetValue_entries d2 g Hd2) as (r1 & d1 & E1 & _ & Hr1 & _).
      exists (option_map ZStr r0), (HtObj d0), (option_map ZStr r1), (HtObj d1).
      split; [exact E0|]. split; [exact E1|].
      assert (Hnd2 : NoDup (map key (dict_entries d2))) by apply Hd2.
      destruct Hcase as [(_ & e & Hk & Hp)|(_ & Hno & Hp)].
      * apply (entry_value_perm _ _ _ _ Hp) in Hr0.
        apply (Permutation_map key) in Hp. rewrite Hp in Hnd.
        destruct e as [k v]. cbn [key] in Hk. subst k.
        pose proof (entry_value_cons _ field v g r0 Hnd Hr0) as Hc.
        destruct (String.eqb_spec g field) as [Eg|Hne].
        -- destruct r1 as [w|]; [|reflexivity]. exfalso. cbn [entry_value] in Hr1.
           cbn [map key] in Hnd. apply NoDup_cons in Hnd as [Hx _]. apply Hx.
           rewrite <- Eg. apply list_elem_of_In.
           apply (in_map key) in Hr1. exact Hr1.
        -- rewrite (entry_value_unique _ g r1 r0 Hnd2 Hr1 Hc). reflexivity.
      * apply (entry_value_perm _ _ _ _ (Permutation_sym Hp)) in Hr0.
        rewrite (entry_value_unique _ g r1 r0 Hnd2 Hr1 Hr0).
        destruct (String.eqb_spec g field) as [Eg|Hne]; [|reflexivity].
        destruct r0 as [w|]; [|reflexivity]. exfalso. cbn [entry_value] in Hr0.
        apply (Permutation_in _ Hp) in Hr0. apply (Hno _ Hr0). cbn [key]. exact Eg.
Qed.

(** **** Conversion *)

(** X15. [hashTypeConvert] to a hash table loses nothing: the result is a
    well-formed hash table with as many fields as the packed list had
    pairs, and [hashTypeGetValue] finds in it, for every field, the string
    of the value it found in the packed list, and no value where it found
    none. Conversion goes one way: on a hash table [hashTypeConvert]
    stops the server, whatever the encoding asked for. *)
Theorem hashTypeConvert_keeps_fields (ps : list (zlentry * zlentry)) (fuel : nat) :
  packed_ok ps -> Z.of_nat (List.length ps) < 2 ^ 62 -> (List.length ps < fuel)%nat ->
  (exists d,
     hashTypeConvert fuel (ZiplistObj (flat ps)) OBJ_ENCODING_HT = Ret (HtObj d) /\
     hash_ok (HtObj d) /\
     hashTypeLength (HtObj d) = hashTypeLength (ZiplistObj (flat ps)) /\
     forall g, exists r0 r1 o1,
       hashTypeGetValue (ZiplistObj (flat ps)) g = Ret (r0, ZiplistObj (flat ps)) /\
       hashTypeGetValue (HtObj d) g = Ret (r1, o1) /\
       r1 = option_map (fun v => ZStr (zl_decode v)) r0) /\
  (forall d enc, hashTypeConvert fuel (HtObj d) enc = Panic).
Proof.
  intros Hps Hsz Hf. split; [|reflexivity].
  destruct (hashTypeConvert_spec ps fuel ltac:(apply Hps) Hsz Hf) as (d & E & Hd & Hty & Hent).
  exists d. split; [exact E|]. split; [split; assumption|]. split.
  - rewrite (hashTypeLength_entries d Hd), hashTypeLength_pairs, (Permutation_length Hent),
      length_map. reflexivity.
  - intros g. destruct (hashTypeGetValue_entries d g Hd) as (r & d' & Eg & _ & Hr & _).
    exists (pairs_get ps g), (option_map ZStr r), (HtObj d').
    split; [apply hashTypeGetValue_pairs|]. split; [exact Eg|].
    assert (Er : r = option_map zl_decode (pairs_get ps g)).
    { apply (entry_value_unique (map to_entry ps) g).
      - eapply NoDup_Permutation_proper; [|apply Hd].
        apply Permutation_map. symmetry. exact Hent.
      - apply (entry_value_perm _ _ _ _ Hent), Hr.
      - apply pairs_get_value, Hps. }
    rewrite Er. destruct (pairs_get ps g); reflexivity.
Qed.

End Hash.

(** *** Examples *)

(** A hash that is the sum of the character codes. *)
Definition sum_hash (s : sds) : Z :=
  Z.of_nat (fold_right (fun c acc => (Ascii.nat_of_ascii c + acc)%nat) 0%nat
              (list_ascii_of_string s)).

(** An integer encoding: a string of fewer than 32 bytes that is the
    decimal spelling of an [int64], and only that spelling, is stored as
    the integer. *)
Definition decimal_of (v : Z) : sds := NilZero.string_of_int (Z.to_int v).

Definition decimal_encoding (s : sds) : option Z :=
  match NilZero.int_of_string s with
  | Some d =>
      let v := Z.of_int d in
      if String.eqb (decimal_of v) s && (- 2 ^ 63 <=? v) && (v <? 2 ^ 63) &&
         (String.length s <? 32)%nat
      then Some v else None
  | None => None
  end.

Lemma decimal_round_trip s v : decimal_encoding s = Some v -> decimal_of v = s.
Proof.
  unfold decimal_encoding. destruct (NilZero.int_of_string s) as [d|]; [|discriminate].
  cbv zeta. destruct (String.eqb_spec (decimal_of (Z.of_int d)) s) as [E|]; [|discriminate].
  destruct (_ && _); [|discriminate]. intros [= <-]. exact E.
Qed.

Lemma fixed_alloc_ok : alloc_ok fixed_alloc.
Proof. intros n. discriminate. Qed.

Definition set1 (fuel : nat) (o : robj) (f v : sds) : outcome robj :=
  letM '(_, o) :=
    hashTypeSet true fixed_alloc 3 sum_hash decimal_encoding decimal_of fuel o f v in
  Ret o.

Definition get1 (o : robj) (f : sds) : outcome (option zlentry) :=
  letM '(r, _) := hashTypeGetValue decimal_encoding o f in Ret r.

Definition abc : list (zlentry * zlentry) :=
  [(ZStr "a", ZInt 1); (ZStr "b", ZInt 2); (ZStr "c", ZInt 3)].

(** The scenario of section 8.4, run. The packed list reads the values back
    as integers, the hash table as the strings that spell them. *)
Example conversion_threshold :
  (letM o := set1 10 (ZiplistObj []) "a" "1" in
   letM o := set1 10 o "b" "2" in set1 10 o "c" "3") = Ret (ZiplistObj (flat abc)) /\
  get1 (ZiplistObj (flat abc)) "b" = Ret (Some (ZInt 2)) /\
  (letM o := set1 10 (ZiplistObj (flat abc)) "d" "4" in
   letM a := get1 o "a" in letM b := get1 o "b" in
   letM c := get1 o "c" in letM d := get1 o "d" in letM e := get1 o "e" in
   Ret (encoding_of o, [a; b; c; d; e])) =
    Ret (OBJ_ENCODING_HT,
         [Some (ZStr "1"); Some (ZStr "2"); Some (ZStr "3"); Some (ZStr "4"); None]).
Proof. repeat split; vm_compute; reflexivity. Qed.

(** Field uniqueness: a second set of a field replaces its value. *)
Example set_twice :
  (letM o := set1 10 (ZiplistObj (flat abc)) "b" "x" in
   letM b := get1 o "b" in Ret (o, b)) =
    Ret (ZiplistObj [ZStr "a"; ZInt 1; ZStr "b"; ZStr "x"; ZStr "c"; ZInt 3],
         Some (ZStr "x")).
Proof. vm_compute. reflexivity. Qed.

Definition long_value : sds :=
  "0123456789012345678901234567890123456789012345678901234567890123456789".

(** C6, counterexample to the byte-length trigger as stated: with
    [hash_max_ziplist_value = 64], [hashTypeSet] of a value of 70 bytes
    leaves the hash ziplist-encoded. *)
Lemma hashTypeSet_long_value_stays_packed :
  too_long 64 (SdsObj long_value) = true /\
  hashTypeSet true fixed_alloc 512 sum_hash decimal_encoding decimal_of 10
    (ZiplistObj []) "f" long_value =
    Ret (0, ZiplistObj [ZStr "f"; ZStr long_value]).
Proof. split; vm_compute; reflexivity. Qed.

Lemma hash_conversion_trigger_witness :
  packed_ok decimal_encoding decimal_of abc /\
  (exists d,
     hashTypeSet true fixed_alloc 3 sum_hash decimal_encoding decimal_of 10
       (ZiplistObj (flat abc)) "d" "4" = Ret (0, HtObj d)) /\
  (exists d,
     hashTypeTryConversion true fixed_alloc 64 sum_hash decimal_of 10
       (ZiplistObj (flat abc)) [SdsObj "HSET"; SdsObj "key"; SdsObj "f"; SdsObj long_value]
       2 3 = Ret (HtObj d)).
Proof.
  assert (Hok : packed_ok decimal_encoding decimal_of abc).
  { split.
    - repeat constructor.
    - cbn [abc fields map fst zl_decode].
      repeat (apply NoDup_cons; split;
              [rewrite ?elem_of_cons, elem_of_nil; intuition discriminate|]).
      apply NoDup_nil_2. }
  split; [exact Hok|].
  destruct (hash_conversion_trigger true fixed_alloc 3 64 sum_hash decimal_encoding decimal_of
              fixed_alloc_ok decimal_round_trip abc "d" "4"
              [SdsObj "HSET"; SdsObj "key"; SdsObj "f"; SdsObj long_value] 2 3 10 Hok)
    as [(update & o & E & Hu & _ & Hconv & _) [Htry _]].
  { cbn [abc List.length]. lia. }
  { cbn [abc List.length]. lia. }
  split.
  - change (has_field decimal_encoding abc "d") with false in Hu. subst update.
    destruct Hconv as (d & -> & _); [cbn [abc List.length]; lia|].
    exists d. exact E.
  - destruct Htry as (d & _ & _ & Et & _).
    { exists 3%nat, long_value. split; [lia|]. split; [reflexivity|].
      vm_compute. reflexivity. }
    exists d. exact Et.
Defined.

Lemma abc_packed : packed_ok decimal_encoding decimal_of abc.
Proof.
  split.
  - repeat constructor.
  - cbn [abc fields map fst zl_decode].
    repeat (apply NoDup_cons; split;
            [rewrite ?elem_of_cons, elem_of_nil; intuition discriminate|]).
    apply NoDup_nil_2.
Qed.

Lemma abc_hash_ok : hash_ok sum_hash decimal_encoding decimal_of (ZiplistObj (flat abc)).
Proof. exists abc. split; [reflexivity | exact abc_packed]. Qed.

Lemma hashTypeSet_then_get_witness :
  exists update o',
    hashTypeSet true fixed_alloc 3 sum_hash decimal_encoding decimal_of 10
      (ZiplistObj (flat abc)) "d" "4" = Ret (update, o') /\
    hash_ok sum_hash decimal_encoding decimal_of o' /\
    (exists o1, hashTypeExists decimal_encoding (ZiplistObj (flat abc)) "d" =
                  Ret (update, o1)) /\
    hashTypeLength o' = Ret (3 + 1 - update) /\
    (encoding_of (ZiplistObj (flat abc)) = OBJ_ENCODING_HT ->
     encoding_of o' = OBJ_ENCODING_HT) /\
    forall g, exists r0 o0 r1 o1,
      hashTypeGetValue decimal_encoding (ZiplistObj (flat abc)) g = Ret (r0, o0) /\
      hashTypeGetValue decimal_encoding o' g = Ret (r1, o1) /\
      option_map (zl_decode decimal_of) r1 =
        if String.eqb g "d" then Some "4"%string
        else option_map (zl_decode decimal_of) r0.
Proof.
  apply (hashTypeSet_then_get true fixed_alloc 3 sum_hash decimal_encoding decimal_of
           fixed_alloc_ok decimal_round_trip (ZiplistObj (flat abc)) "d" "4" 3 10).
  - exact abc_hash_ok.
  - reflexivity.
  - lia.
  - lia.
Defined.

Lemma hashTypeDelete_removes_field_witness :
  exists deleted o',
    hashTypeDelete true fixed_alloc decimal_encoding (fun _ => true)
      (ZiplistObj (flat abc)) "b" = Ret (deleted, o') /\
    hash_ok sum_hash decimal_encoding decimal_of o' /\
    encoding_of o' = encoding_of (ZiplistObj (flat abc)) /\
    (exists o1, hashTypeExists decimal_encoding (ZiplistObj (flat abc)) "b" =
                  Ret (deleted, o1)) /\
    hashTypeLength o' = Ret (3 - deleted) /\
    forall g, exists r0 o0 r1 o1,
      hashTypeGetValue decimal_encoding (ZiplistObj (flat abc)) g = Ret (r0, o0) /\
      hashTypeGetValue decimal_encoding o' g = Ret (r1, o1) /\
      r1 = if String.eqb g "b" then None else r0.
Proof.
  apply (hashTypeDelete_removes_field true fixed_alloc sum_hash decimal_encoding decimal_of
           fixed_alloc_ok decimal_round_trip (fun _ => true) (ZiplistObj (flat abc)) "b" 3).
  - exact abc_hash_ok.
  - reflexivity.
Defined.

Lemma hashTypeConvert_keeps_fields_witness :
  (exists d,
     hashTypeConvert true fixed_alloc sum_hash decimal_of 10 (ZiplistObj (flat abc))
       OBJ_ENCODING_HT = Ret (HtObj d) /\
     hash_ok sum_hash decimal_encoding decimal_of (HtObj d) /\
     hashTypeLength (HtObj d) = hashTypeLength (ZiplistObj (flat abc)) /\
     forall g, exists r0 r1 o1,
       hashTypeGetValue decimal_encoding (ZiplistObj (flat abc)) g =
         Ret (r0, ZiplistObj (flat abc)) /\
       hashTypeGetValue decimal_encoding (HtObj d) g = Ret (r1, o1) /\
       r1 = option_map (fun v => ZStr (zl_decode decimal_of v)) r0) /\
  (forall d enc, hashTypeConvert true fixed_alloc sum_hash decimal_of 10 (HtObj d) enc = Panic).
Proof.
  apply (hashTypeConvert_keeps_fields true fixed_alloc sum_hash decimal_encoding decimal_of
           fixed_alloc_ok decimal_round_trip abc 10).
  - exact abc_packed.
  - cbn [abc List.length]. lia.
  - cbn [abc List.length]. lia.
Defined.

(** Deleting a field of a packed hash, and of the hash table it becomes. *)
Example delete_field :
  hashTypeDelete true fixed_alloc decimal_encoding (fun _ => true)
    (ZiplistObj (flat abc)) "b" =
    Ret (1, ZiplistObj [ZStr "a"; ZInt 1; ZStr "c"; ZInt 3]) /\
  hashTypeDelete true fixed_alloc decimal_encoding (fun _ => true)
    (ZiplistObj (flat abc)) "x" = Ret (0, ZiplistObj (flat abc)) /\
  (letM o := set1 10 (ZiplistObj (flat abc)) "d" "4" in
   letM '(deleted, o) := hashTypeDelete true fixed_alloc decimal_encoding (fun _ => true)
                           o "b" in
   letM b := get1 o "b" in letM c := get1 o "c" in letM n := hashTypeLength o in
   Ret (deleted, encoding_of o, b, c, n)) =
    Ret (1, OBJ_ENCODING_HT, None, Some (ZStr "3"), 3).
Proof. repeat split; vm_compute; reflexivity. Qed.

End Hash.
